(** * jsonmatch: regions, references, evaluator and MatchSet

    A shallow embedding of the Go package [jsonmatch] (regions.go, the
    reference algebra, match.go and the MatchSet facade) together with the
    properties of it that the specification states.

    Conventions of the embedding:
    - a Go [int] is a [Z] in the 64-bit two's complement range; arithmetic
      that can leave the range is wrapped with [wrap];
    - a Go method [T.m] is the definition [T_m];
    - a panic is the outcome [Panic], a returned [error] is [Err];
    - loops whose number of iterations is not bounded by the structure of
      their input run on fuel and end in [OutOfFuel] when it is used up.

    Limits of the embedding:
    - documents are built from nil, booleans, ints, float64s, strings,
      [[]interface{}] and [map[string]interface{}]; other dynamic types, and
      with them the conversions of canonicalization, are left out;
    - the getter and setter of a VarRef are the four closures the package
      itself builds, not arbitrary ones ([NewVarRef]);
    - a slice is the sequence of its elements: capacity and the sharing of
      backing arrays are not followed;
    - [sort.Sort] is the insertion sort it runs on short slices;
    - package [template], with the comparisons of filters, is not among the
      sources: the evaluator takes the comparison as a parameter;
    - [sort.Ints] and [sort.Strings] are the increasing arrangement of
      their argument;
    - [Regions.Sort], [Regions.Clean], [Regions.ForEachIndex],
      [NewRegionsFromSliceSelector] and the scanner and parser of
      expressions are not embedded. *)

From Stdlib Require Import String Ascii DecimalString ZArith Lia Floats Uint63
  Sorted Permutation.
From stdpp Require Import gmap strings list fin_maps.
Local Open Scope string_scope.
Local Open Scope list_scope.
Local Open Scope Z_scope.

Set Warnings "-register-all,-inexact-float".

(* ================================================================== *)
(** ** Go integers *)
(* ================================================================== *)

Definition int_min : Z := - 2 ^ 63.
Definition int_max : Z := 2 ^ 63 - 1.

(** Two's complement wrap-around of a 64-bit [int]. *)
Definition wrap (z : Z) : Z := (z + 2 ^ 63) mod 2 ^ 64 - 2 ^ 63.

Definition is_int (z : Z) : Prop := int_min <= z <= int_max.

Definition int_add (a b : Z) : Z := wrap (a + b).
Definition int_sub (a b : Z) : Z := wrap (a - b).
Definition int_neg (a : Z) : Z := wrap (- a).

(** [len(s)] of a slice. *)
Definition len {A : Type} (l : list A) : Z := Z.of_nat (length l).

(* ================================================================== *)
(** ** regions.go: Region *)
(* ================================================================== *)

Record Region : Type := mkRegion { Start : Z; End : Z }.

Definition Regions : Type := list Region.

Definition Region_Len (r : Region) : Z := int_sub (End r) (Start r).

Definition Region_Empty (r : Region) : bool := Region_Len r =? 0.

Definition Region_ContainsIndex (r : Region) (index : Z) : bool :=
  (index >=? Start r) && (index <? End r).

Definition Region_IsBefore (r : Region) (index : Z) : bool := index <? Start r.

Definition Region_IsAfter (r : Region) (index : Z) : bool := Start r >=? index.

Definition Region_Clone (r : Region) : Region := mkRegion (Start r) (End r).

Definition Region_Grow (r : Region) (count : Z) : Region :=
  mkRegion (Start r) (int_add (End r) count).

Definition Region_Adjacent (r other : Region) : bool :=
  (End r =? Start other) || (End other =? Start r).

Definition Region_ContainsRegion (r other : Region) : bool :=
  (Start other >=? Start r) && (End other <=? End r).

Definition Region_Overlap (r other : Region) : bool :=
  ((Start other >=? Start r) && (Start other <? End r)) ||
  ((End other >? Start r) && (End other <? End r)) ||
  ((Start other <? Start r) && (End other >? Start r)) ||
  ((Start r <? Start other) && (End r >? Start other)).

Definition Region_Equal (r other : Region) : bool :=
  (Start r =? Start other) && (End r =? End other).

Definition Region_OverlapOrAdjacent (r other : Region) : bool :=
  Region_Adjacent r other || Region_Overlap r other.

Definition Region_Join (r other : Region) : Region :=
  let start := if Start r <? Start other then Start r else Start other in
  let end_ := if End r >? End other then End r else End other in
  mkRegion start end_.

Definition Region_Shrink (r : Region) (count : Z) : Region :=
  if count >=? Region_Len r
  then mkRegion (Start r) (Start r)
  else mkRegion (Start r) (int_sub (End r) count).

Definition Region_Shift (r : Region) (diff : Z) : Region :=
  mkRegion (int_add (Start r) diff) (int_add (End r) diff).

Definition Region_Cut (r other : Region) : Region :=
  if End other <? Start r then
    Region_Shift r (int_neg (Region_Len other))
  else if Start other >=? End r then
    r
  else if (Start other >=? Start r) && (End other >=? End r) then
    mkRegion (Start r) (Start other)
  else if (Start other <=? Start r) && (End other >? End r) then
    mkRegion (Start other) (Start other)
  else if (Start other <=? Start r) && (End other >? Start r) then
    mkRegion (Start other)
      (int_sub (int_add (Start other) (Region_Len r))
               (int_sub (End other) (Start r)))
  else
    Region_Shrink r (Region_Len other).

Definition Region_Intersect (r other : Region) : Regions :=
  if Region_ContainsRegion other r then []
  else if negb (Region_Overlap r other) then [r]
  else if Start other <=? Start r then [mkRegion (End other) (End r)]
  else if End other >=? End r then [mkRegion (Start r) (Start other)]
  else [mkRegion (Start r) (Start other); mkRegion (End other) (End r)].

(* ================================================================== *)
(** ** regions.go: Regions *)
(* ================================================================== *)

Definition Regions_Cut (rs : Regions) (other : Region) : Regions :=
  map (fun r => Region_Cut r other) rs.

Definition Regions_Compact (rs : Regions) : Regions :=
  List.filter (fun r => negb (Region_Empty r)) rs.

(** The body of the [for] loop of [Regions.Union].  [next] is the region
    under construction ([None] for the nil pointer); the result is the
    value returned by the method. *)
Fixpoint Union_loop (fuel : nat) (leftSet rightSet : Regions)
         (next : option Region) (result : Regions) : option Regions :=
  match leftSet, rightSet with
  | [], [] =>
      (* loop condition fails *)
      Some (match next with Some n => result ++ [n] | None => result end)
  | _, _ =>
    match fuel with
    | O => None
    | S fuel' =>
      match next with
      | None =>
          match leftSet, rightSet with
          | [], _ => Some (result ++ rightSet)
          | _, [] => Some (result ++ leftSet)
          | lft :: leftSet', rgt :: rightSet' =>
              if Start lft <? Start rgt
              then Union_loop fuel' leftSet' rightSet (Some (Region_Clone lft)) result
              else Union_loop fuel' leftSet rightSet' (Some (Region_Clone rgt)) result
          end
      | Some n =>
          let try_right (_ : unit) :=
            match rightSet with
            | rgt :: rightSet' =>
                if Region_Overlap n rgt
                then Union_loop fuel' leftSet rightSet' (Some (Region_Join n rgt)) result
                else if Region_Equal n rgt
                then Union_loop fuel' leftSet rightSet' (Some n) result
                else Union_loop fuel' leftSet rightSet None (result ++ [n])
            | [] => Union_loop fuel' leftSet rightSet None (result ++ [n])
            end in
          match leftSet with
          | lft :: leftSet' =>
              if Region_Overlap n lft
              then Union_loop fuel' leftSet' rightSet (Some (Region_Join n lft)) result
              else if Region_Equal n lft
              then Union_loop fuel' leftSet' rightSet (Some n) result
              else try_right tt
          | [] => try_right tt
          end
      end
    end
  end.

(** Every iteration either consumes a region or empties [next], and an
    iteration that starts with an empty [next] consumes a region or ends the
    loop: twice the number of regions, plus two, is enough fuel. *)
Definition Union_fuel (rs otherRegions : Regions) : nat :=
  2 * (length rs + length otherRegions) + 2.

Definition Regions_Union (rs otherRegions : Regions) : Regions :=
  match rs, otherRegions with
  | [], _ => otherRegions
  | _, [] => rs
  | _, _ =>
      match Union_loop (Union_fuel rs otherRegions) rs otherRegions None [] with
      | Some result => result
      | None => []
      end
  end.

(** [Regions.Check]: sorted and non-overlapping. *)
Fixpoint Check_from (watermark : Z) (rs : Regions) : bool :=
  match rs with
  | [] => true
  | r :: rs' => if Start r <? watermark then false else Check_from (End r) rs'
  end.

Definition Regions_Check (rs : Regions) : bool := Check_from 0 rs.

Fixpoint CheckSorted_from (watermark : Z) (rs : Regions) : bool :=
  match rs with
  | [] => true
  | r :: rs' => if Start r <? watermark then false else CheckSorted_from (Start r) rs'
  end.

Definition Regions_CheckSorted (rs : Regions) : bool := CheckSorted_from 0 rs.

(** The indices [start, start+1, ..., end-1] visited by
    [for i := start; i < end; i++]. *)
Definition index_range (start end_ : Z) : list Z :=
  map (fun k => start + Z.of_nat k) (seq 0 (Z.to_nat (end_ - start))).

Definition Regions_ToIndicies (rs : Regions) : list Z :=
  flat_map (fun r => index_range (Start r) (End r)) rs.

Fixpoint Regions_ContainsIndex (rs : Regions) (i : Z) : bool :=
  match rs with
  | [] => false
  | r :: rs' =>
      if Start r >? i then false
      else if Region_ContainsIndex r i then true
      else Regions_ContainsIndex rs' i
  end.

Definition NewRegionForEachIndex (indicies : list Z) : Regions :=
  map (fun index => mkRegion index (int_add index 1)) indicies.

Definition Regions_IndiciesCount (rs : Regions) : Z :=
  fold_left (fun result r => int_add result (Region_Len r)) rs 0.

(* ================================================================== *)
(** ** Outcomes of a call *)
(* ================================================================== *)

(** A Go call returns normally ([Ok]), returns a non-nil [error] ([Err],
    with the error's message), or panics ([Panic]).  [OutOfFuel] is the
    model's answer when a loop has not finished within its fuel. *)
Inductive outcome (A : Type) : Type :=
| Ok (a : A)
| Err (msg : string)
| Panic (msg : string)
| OutOfFuel.
Arguments Ok {A} a.
Arguments Err {A} msg.
Arguments Panic {A} msg.
Arguments OutOfFuel {A}.

Definition obind {A B : Type} (m : outcome A) (f : A -> outcome B) : outcome B :=
  match m with
  | Ok a => f a
  | Err e => Err e
  | Panic p => Panic p
  | OutOfFuel => OutOfFuel
  end.

#[global] Instance outcome_ret : MRet outcome := fun A a => Ok a.
#[global] Instance outcome_bind : MBind outcome := fun A B f m => obind m f.

(** Runtime panics of the Go runtime that the embedding can reach. *)
Definition panic_index : string := "runtime error: index out of range".
Definition panic_nil : string := "runtime error: invalid memory address or nil pointer dereference".
Definition panic_conversion : string := "interface conversion: wrong dynamic type".
Definition panic_makeslice : string := "runtime error: makeslice: cap out of range".
Definition panic_slice_bounds : string := "runtime error: slice bounds out of range".

(** [make([]T, 0, n)] panics on a negative capacity. *)
Definition make_cap (n : Z) : outcome unit :=
  if n <? 0 then Panic panic_makeslice else Ok tt.

(** [s[i]] on a slice. *)
Definition index_slice {A : Type} (s : list A) (i : Z) : outcome A :=
  if i <? 0 then Panic panic_index
  else match s !! Z.to_nat i with
       | Some x => Ok x
       | None => Panic panic_index
       end.

(** Left-to-right loop over a slice whose body may fail. *)
Fixpoint foldM {A S : Type} (f : S -> A -> outcome S) (l : list A) (s : S) : outcome S :=
  match l with
  | [] => Ok s
  | x :: l' => s' ← f s x; foldM f l' s'
  end.

(* ================================================================== *)
(** ** regions.go: Regions, continued *)
(* ================================================================== *)

(** [Regions.InsertAt]. *)
Definition Regions_InsertAt (rs : Regions) (other : Region) : outcome Regions :=
  if Region_Len other <? 0
  then Panic "Insert only makes sense when inserting a positive amount of items"
  else Ok (map (fun r =>
         if Region_IsAfter r (Start other) then Region_Shift r (Region_Len other)
         else if Region_ContainsIndex r (Start other) then Region_Grow r (Region_Len other)
         else r) rs).

(** The inner loop of [Regions.Intersect]:
    [for len(rightSet) > 0 && rightSet[0].End <= next.Start]. *)
Fixpoint Intersect_catch_up (rightSet : Regions) (next : Region) : Regions :=
  match rightSet with
  | r :: rightSet' =>
      if End r <=? Start next then Intersect_catch_up rightSet' next else rightSet
  | [] => []
  end.

Fixpoint Intersect_loop (fuel : nat) (leftSet rightSet : Regions)
         (next : option Region) (result : Regions) : option Regions :=
  let finish (next : option Region) (result : Regions) :=
    Some (match next with Some n => result ++ [n] | None => result end) in
  match leftSet, rightSet with
  | [], [] => finish next result
  | _, _ =>
    match fuel with
    | O => None
    | S fuel' =>
      let continue_with (n : Region) (leftSet : Regions) :=
        match Intersect_catch_up rightSet n with
        | [] => Some ((result ++ [n]) ++ leftSet)
        | rgt :: rightSet' =>
            if Region_Overlap rgt n then
              match Region_Intersect n rgt with
              | [] => Intersect_loop fuel' leftSet (rgt :: rightSet') None result
              | [x] => Intersect_loop fuel' leftSet (rgt :: rightSet') (Some x) result
              | x :: y :: _ =>
                  Intersect_loop fuel' leftSet (rgt :: rightSet') (Some y) (result ++ [x])
              end
            else Intersect_loop fuel' leftSet (rgt :: rightSet') None (result ++ [n])
        end in
      match next, leftSet with
      | None, [] => finish None result
      | None, lft :: leftSet' => continue_with lft leftSet'
      | Some n, _ => continue_with n leftSet
      end
    end
  end.

Definition Regions_Intersect (fuel : nat) (rs other : Regions) : outcome Regions :=
  match rs, other with
  | [], _ => Ok rs
  | _, [] => Ok rs
  | _, _ =>
      match Intersect_loop fuel rs other None [] with
      | Some result => Ok result
      | None => OutOfFuel
      end
  end.

(** [source[start:end]] for [0 <= start <= end], as copied item by item. *)
Definition items_between {A : Type} (source : list A) (start end_ : Z) : list A :=
  take (Z.to_nat (end_ - start)) (drop (Z.to_nat start) source).

Definition Regions_ExtractItems {A : Type} (rs : Regions) (source : list A)
  : outcome (list (list A)) :=
  foldM (fun result r =>
           _ ← make_cap (Region_Len r);
           items ← foldM (fun items i => x ← index_slice source i; Ok (items ++ [x]))
                          (index_range (Start r) (End r)) [];
           Ok (result ++ [items]))
        rs [].

(** One iteration of the loop of [Regions.MergeItems]; the state is
    (regionIndex, sourceIndex, merged, outRegions). *)
Definition MergeItems_step {A : Type} (source : list A) (replace : list (list A))
           (st : nat * Z * list A * Regions) (r : Region)
  : outcome (nat * Z * list A * Regions) :=
  let '(regionIndex, sourceIndex, merged, outRegions) := st in
  let bound := Z.min (Start r) (len source) in
  copied ← (if sourceIndex <? bound
             then if sourceIndex <? 0 then Panic panic_index
                  else Ok (items_between source sourceIndex bound)
             else Ok []);
  let merged := merged ++ copied in
  let insert := match replace !! regionIndex with Some x => x | None => [] end in
  let outRegions :=
    outRegions ++ [mkRegion (len merged) (int_add (len merged) (len insert))] in
  Ok (S regionIndex, End r, merged ++ insert, outRegions).

Definition Regions_MergeItems {A : Type} (rs : Regions) (source : list A)
           (replace : list (list A)) : outcome (list A * Regions) :=
  '(_, sourceIndex, merged, outRegions) ←
     foldM (MergeItems_step source replace) rs (O, 0, [], []);
  if sourceIndex <? len source
  then if sourceIndex <? 0 then Panic panic_slice_bounds
       else Ok (merged ++ drop (Z.to_nat sourceIndex) source, outRegions)
  else Ok (merged, outRegions).

(** [fmt.Sprintf("%d", z)]. *)
Definition itoa (z : Z) : string := NilZero.string_of_int (Z.to_int z).

Fixpoint zeros (n : nat) : string :=
  match n with O => "" | S n' => String "0" (zeros n') end.

(** [fmt.Sprintf("%06d", z)]: zero padding to width 6, after the sign. *)
Definition itoa06 (z : Z) : string :=
  if z <? 0
  then let digits := itoa (- z) in
       "-" +:+ zeros (5 - String.length digits) +:+ digits
  else let digits := itoa z in
       zeros (6 - String.length digits) +:+ digits.

Fixpoint strings_Join (elems : list string) (sep : string) : string :=
  match elems with
  | [] => ""
  | [x] => x
  | x :: rest => x +:+ sep +:+ strings_Join rest sep
  end.

Definition Regions_ToSliceSelector (rs : Regions) : string :=
  strings_Join
    (flat_map (fun r =>
       if (Region_Len r >? 1) || (Region_Len r =? 0)
       then [itoa (Start r) +:+ ":" +:+ itoa (End r)]
       else if Region_Len r =? 1 then [itoa (Start r)]
       else []) rs)
    ",".

(** One iteration of the loop of [Regions.Simplify] over the compacted
    regions: a region that overlaps the last region of the result is joined
    into it, in place; any other region is appended when it is not empty. *)
Definition Simplify_step (result : Regions) (r : Region) : Regions :=
  let append (_ : unit) := if Region_Len r >? 0 then result ++ [r] else result in
  match last result with
  | Some lst =>
      if Region_Overlap lst r
      then <[Nat.pred (length result) := Region_Join lst r]> result
      else append tt
  | None => append tt
  end.

Definition Regions_Simplify (rs : Regions) : outcome Regions :=
  if negb (Regions_CheckSorted rs)
  then Panic "Simplify require that the regions are sorted"
  else Ok (fold_left Simplify_step (Regions_Compact rs) []).

(** [sort.Ints]: the increasing arrangement of the integers, which does
    not depend on the sorting algorithm. *)
Fixpoint insert_int (x : Z) (sorted : list Z) : list Z :=
  match sorted with
  | [] => [x]
  | y :: rest => if x <=? y then x :: sorted else y :: insert_int x rest
  end.

Definition sort_Ints (l : list Z) : list Z := fold_right insert_int [] l.

(** One iteration of the loop of [NewRegionsFromIndicies]; the state is
    (result, nextRegion). *)
Definition FromIndicies_step (st : Regions * Region) (index : Z) : Regions * Region :=
  let '(result, nextRegion) := st in
  if Region_Empty nextRegion
  then (result, mkRegion index (int_add index 1))
  else if End nextRegion =? index
  then (result, mkRegion (Start nextRegion) (int_add index 1))
  else (result ++ [nextRegion], mkRegion index (int_add index 1)).

(** [NewRegionsFromIndicies] sorts the slice it is given in place: the
    call returns the regions and leaves the sorted indices behind in the
    argument (the first component). *)
Definition NewRegionsFromIndicies (indicies : list Z) : list Z * Regions :=
  let indicies := sort_Ints indicies in
  let '(result, nextRegion) :=
    fold_left FromIndicies_step indicies ([], mkRegion 0 0) in
  (indicies,
   if negb (Region_Empty nextRegion) then result ++ [nextRegion] else result).

(* ================================================================== *)
(** ** Document values *)
(* ================================================================== *)

(** The document is a tree of canonical values: what [interface{}] holds
    after JSON decoding.  [VNil] is the nil interface.  Type aliases of the
    container types are outside the model, so that canonicalization
    ([toCanonicalType]) and [matchType] never convert. *)
Inductive value : Type :=
| VNil
| VBool (b : bool)
| VInt (z : Z)
| VFloat (f : float)
| VString (s : string)
| VSlice (items : list value)
| VMap (m : gmap string value).

(** [reflect.Kind], as far as the package looks at it. *)
Inductive Kind : Type := Invalid | KBool | KInt | KFloat64 | KString | KSlice | KMap.

Definition kind_of (v : value) : Kind :=
  match v with
  | VNil => Invalid
  | VBool _ => KBool
  | VInt _ => KInt
  | VFloat _ => KFloat64
  | VString _ => KString
  | VSlice _ => KSlice
  | VMap _ => KMap
  end.

(** [toCanonicalType]: [reflect.TypeOf(nil)] is the nil [Type], on which
    [Kind()] panics; every other value of the model is canonical already. *)
Definition toCanonicalType (v : value) : outcome value :=
  match v with
  | VNil => Panic panic_nil
  | _ => Ok v
  end.

Definition isCanonicalType (v : value) : bool :=
  match v with VSlice _ | VMap _ => true | _ => false end.

(** [matchType]: a new container value is converted to the old value's
    type when the types differ and are convertible; [ConvertibleTo] panics
    on the nil type of a nil old value, and no two different types of the
    model are convertible. *)
Definition matchType (newValue oldValue : value) : outcome value :=
  if negb (isCanonicalType newValue) then Ok newValue
  else match newValue, oldValue with
       | VSlice _, VSlice _ => Ok newValue
       | VMap _, VMap _ => Ok newValue
       | _, VNil => Panic "reflect: nil type passed to Type.ConvertibleTo"
       | _, _ => Ok newValue
       end.

Definition assertIsCompatible (v : value) : outcome unit :=
  _ ← toCanonicalType v; Ok tt.

(** The type assertions [.([]interface{})] and [.(map[string]interface{})]. *)
Definition as_slice (v : value) : outcome (list value) :=
  match v with VSlice items => Ok items | _ => Panic panic_conversion end.

Definition as_map (v : value) : outcome (gmap string value) :=
  match v with VMap m => Ok m | _ => Panic panic_conversion end.

(** [m[key]]: the zero value, nil, for a key that is not present. *)
Definition map_index (m : gmap string value) (key : string) : value :=
  default VNil (m !! key).

(** Comparison of two interface values with [==]: the dynamic types must
    agree; comparing two values of an uncomparable type panics. *)
Definition iface_eq (a b : value) : outcome bool :=
  match a, b with
  | VNil, VNil => Ok true
  | VBool x, VBool y => Ok (Bool.eqb x y)
  | VInt x, VInt y => Ok (x =? y)
  | VFloat x, VFloat y => Ok (PrimFloat.eqb x y)
  | VString x, VString y => Ok (String.eqb x y)
  | VSlice _, VSlice _ => Panic "runtime error: comparing uncomparable type []interface {}"
  | VMap _, VMap _ => Panic "runtime error: comparing uncomparable type map[string]interface {}"
  | _, _ => Ok false
  end.

(* ================================================================== *)
(** ** VarRef *)
(* ================================================================== *)

(** The [key] field of a VarRef: nil, an int or a string. *)
Inductive VarKey : Type := KeyNone | KeyInt (i : Z) | KeyString (s : string).

(** A VarRef holds a getter and a setter closure.  The package builds
    four kinds of them, which the embedding keeps as data ([Cell]):
    - the root variable of [Expression.Match], over the document;
    - the variable of a [LiteralRef], whose setter panics;
    - the variables of [MapRef.Vars], over a key of the parent's map;
    - the variables of [ArrayRef.Vars], over an index of the parent's slice. *)
Inductive VarRef : Type :=
| mkVarRef (identity : string) (depth : Z) (key : VarKey) (cell : Cell)
with Cell : Type :=
| CellRoot
| CellLiteral (v : value)
| CellMapEntry (parent : VarRef) (k : string)
| CellArrayEntry (parent : VarRef) (index : Z).

Definition identity (r : VarRef) : string := let 'mkVarRef i _ _ _ := r in i.
Definition depth (r : VarRef) : Z := let 'mkVarRef _ d _ _ := r in d.
Definition key (r : VarRef) : VarKey := let 'mkVarRef _ _ k _ := r in k.
Definition cell (r : VarRef) : Cell := let 'mkVarRef _ _ _ c := r in c.

(** The getter closure, run on the current document [data]. *)
Fixpoint VarRef_getter (data : value) (r : VarRef) : outcome value :=
  match r with
  | mkVarRef _ _ _ c =>
      match c with
      | CellRoot => Ok data
      | CellLiteral v => Ok v
      | CellMapEntry parent k =>
          pv ← VarRef_getter data parent;
          cv ← toCanonicalType pv;
          m ← as_map cv;
          Ok (map_index m k)
      | CellArrayEntry parent index =>
          pv ← VarRef_getter data parent;
          cv ← toCanonicalType pv;
          items ← as_slice cv;
          index_slice items index
      end
  end.

Definition VarRef_Value (data : value) (r : VarRef) : outcome value :=
  VarRef_getter data r.

Definition VarRef_CanonicalValue (data : value) (r : VarRef) : outcome value :=
  v ← VarRef_getter data r; toCanonicalType v.

(** [mutated[index] = value] on a copy of the slice. *)
Definition slice_assign (items : list value) (index : Z) (v : value)
  : outcome (list value) :=
  if index <? 0 then Panic panic_index
  else if (Z.to_nat index <? length items)%nat then Ok (<[Z.to_nat index := v]> items)
  else Panic panic_index.

(** The setter closure; it returns the document after the assignment.
    The setters of [MapRef.Vars] and [ArrayRef.Vars] clone the parent's
    container, assign into the clone and hand it to the parent's [Set],
    which checks the clone with [assertIsCompatible] and runs the parent's
    setter. *)
Fixpoint VarRef_setter (data : value) (r : VarRef) (v : value) : outcome value :=
  match r with
  | mkVarRef _ _ _ c =>
      match c with
      | CellRoot => Ok v
      | CellLiteral _ => Panic "Attempt to set value of LiteralRef"
      | CellMapEntry parent k =>
          pv ← VarRef_CanonicalValue data parent;
          m ← as_map pv;
          let modified := VMap (<[k := v]> m) in
          _ ← assertIsCompatible modified;
          VarRef_setter data parent modified
      | CellArrayEntry parent index =>
          pv ← VarRef_CanonicalValue data parent;
          current ← as_slice pv;
          mutated ← slice_assign current index v;
          _ ← assertIsCompatible (VSlice mutated);
          VarRef_setter data parent (VSlice mutated)
      end
  end.

Definition VarRef_Set (data : value) (r : VarRef) (v : value) : outcome value :=
  _ ← assertIsCompatible v; VarRef_setter data r v.

Definition VarRef_SetWithMatchedType (data : value) (r : VarRef) (v : value)
  : outcome value :=
  old ← VarRef_Value data r;
  v' ← matchType v old;
  VarRef_Set data r v'.

Definition VarRef_TypeKind (data : value) (r : VarRef) : outcome Kind :=
  v ← VarRef_getter data r; Ok (kind_of v).

Definition VarRef_IsMap (data : value) (r : VarRef) : outcome bool :=
  k ← VarRef_TypeKind data r;
  Ok (match k with KMap => true | _ => false end).

Definition VarRef_IsSlice (data : value) (r : VarRef) : outcome bool :=
  k ← VarRef_TypeKind data r;
  Ok (match k with KSlice => true | _ => false end).

Definition VarRef_IsContainer (data : value) (r : VarRef) : outcome bool :=
  k ← VarRef_TypeKind data r;
  Ok (match k with KSlice | KMap => true | _ => false end).

(* ================================================================== *)
(** ** References *)
(* ================================================================== *)

(** The implementations of the interface [Ref].  [RNil] is the nil
    interface value.  Of a [*LatentMapRef] the embedding keeps the pointer
    ([addr]) and the [root] field, which is never assigned after
    construction; the [keyPath] field, which [AddKey] assigns through the
    pointer, lives in the heap.  The [refs] slice of a UnionRef is taken as
    the sequence of its elements: the embedding does not follow the backing
    arrays that slices built by [append] may share. *)
Inductive Ref : Type :=
| RNil
| RVar (v : VarRef)
| RArray (variable : VarRef) (selection : Regions)
| RMap (variable : VarRef) (keys : list string)
| RUnion (refs : list Ref)
| RLiteral (v : value)
| RLatent (addr : nat) (root : Ref).

(** The [keyPath] of every LatentMapRef allocated so far, by address. *)
Abbreviation Heap := (list (list string)).

Definition keyPath (h : Heap) (addr : nat) : list string := default [] (h !! addr).

(** [NewEmptyRef]. *)
Definition NewEmptyRef : Ref := RUnion [].

(** [individualRefs]. *)
Definition individualRefs (ref : Ref) : list Ref :=
  match ref with
  | RUnion refs => refs
  | t => [t]
  end.

(** [findInKeys], as [unionKeys] uses it. *)
Fixpoint findInKeys (v : string) (set : list string) : bool :=
  match set with
  | [] => false
  | x :: set' => if String.eqb v x then true else findInKeys v set'
  end.

(** [sort.Strings]. *)
Fixpoint insert_string (x : string) (sorted : list string) : list string :=
  match sorted with
  | [] => [x]
  | y :: rest => if String.leb x y then x :: sorted else y :: insert_string x rest
  end.

Definition sort_Strings (l : list string) : list string :=
  fold_right insert_string [] l.

Definition unionKeys (a b : list string) : list string :=
  let superset := a ++ b in
  let result :=
    fold_left (fun result candidate =>
                 if findInKeys candidate result then result else result ++ [candidate])
              superset [] in
  sort_Strings result.

(** [NewArrayRef] and [NewMapRef] panic unless the variable holds a
    container of the right kind. *)
Definition NewArrayRef (data : value) (variable : VarRef) (selection : Regions)
  : outcome Ref :=
  cv ← VarRef_CanonicalValue data variable;
  match cv with
  | VSlice _ => Ok (RArray variable selection)
  | _ => Panic "Variables wrapped by ArrayRefs must be compatible with type []interface{}"
  end.

Definition NewMapRef (data : value) (variable : VarRef) (keys : list string)
  : outcome Ref :=
  cv ← VarRef_CanonicalValue data variable;
  match cv with
  | VMap _ => Ok (RMap variable (sort_Strings keys))
  | _ => Panic "Variables wrapped by MapRefs must be of type map[string]interface{}"
  end.

Definition NewLiteralRef (v : value) : Ref := RLiteral v.

(** *** Depth, EstimateSize, IsEmpty *)

Definition Ref_Depth (r : Ref) : outcome Z :=
  match r with
  | RNil => Panic panic_nil
  | RVar v => Ok (depth v)
  | RArray variable _ => Ok (int_add (depth variable) 1)
  | RMap variable _ => Ok (int_add (depth variable) 1)
  | RUnion _ => Ok 0
  | RLiteral _ => Ok (-1)
  | RLatent _ _ => Ok 100000
  end.

Fixpoint Ref_EstimateSize (r : Ref) : outcome Z :=
  match r with
  | RNil => Panic panic_nil
  | RVar _ => Ok 1
  | RArray _ selection => Ok (Regions_IndiciesCount selection)
  | RMap _ keys => Ok (len keys)
  | RUnion refs =>
      foldM (fun result ref => n ← Ref_EstimateSize ref; Ok (int_add result n)) refs 0
  | RLiteral _ => Ok 1
  | RLatent _ _ => Ok 0
  end.

Fixpoint Ref_IsEmpty (r : Ref) : outcome bool :=
  match r with
  | RNil => Panic panic_nil
  | RVar _ => Ok false
  | RArray _ selection => Ok (Regions_IndiciesCount selection =? 0)
  | RMap _ keys => Ok (len keys =? 0)
  | RUnion refs =>
      (fix all (l : list Ref) : outcome bool :=
         match l with
         | [] => Ok true
         | ref :: l' => e ← Ref_IsEmpty ref; if (e : bool) then all l' else Ok false
         end) refs
  | RLiteral _ => Ok false
  | RLatent _ _ => Ok true
  end.

(** *** Values and Vars *)

Fixpoint Ref_Values (data : value) (r : Ref) : outcome (list value) :=
  match r with
  | RNil => Panic panic_nil
  | RVar v => x ← VarRef_Value data v; Ok [x]
  | RArray variable selection =>
      let indicies := Regions_ToIndicies selection in
      cv ← VarRef_CanonicalValue data variable;
      array ← as_slice cv;
      foldM (fun result i => x ← index_slice array i; Ok (result ++ [x])) indicies []
  | RMap variable keys =>
      cv ← VarRef_CanonicalValue data variable;
      current ← as_map cv;
      Ok (fold_left (fun (result : list value) k =>
                       match map_index current k with
                       | VNil => result
                       | val => result ++ [val]
                       end) keys [])
  | RUnion refs =>
      n ← Ref_EstimateSize (RUnion refs);
      _ ← make_cap n;
      foldM (fun result ref => vs ← Ref_Values data ref; Ok (result ++ vs)) refs []
  | RLiteral v => Ok [v]
  | RLatent _ _ => Ok []
  end.

(** [fmt.Sprintf("%s[%06d]", identity, index)] and
    [fmt.Sprintf("%s.%s", identity, key)]. *)
Definition array_identity (id : string) (index : Z) : string :=
  id +:+ "[" +:+ itoa06 index +:+ "]".

Definition map_identity (id : string) (k : string) : string :=
  id +:+ "." +:+ k.

(** [ArrayRef.Vars]: one VarRef for each selected index; its [key] is the
    position in the list of indices. *)
Definition ArrayRef_Vars (variable : VarRef) (selection : Regions) : list VarRef :=
  imap (fun i index =>
          mkVarRef (array_identity (identity variable) index)
                   (int_add (int_add (depth variable) 1) 1)
                   (KeyInt (Z.of_nat i))
                   (CellArrayEntry variable index))
       (Regions_ToIndicies selection).

Definition MapRef_Vars (variable : VarRef) (keys : list string) : list VarRef :=
  map (fun k =>
         mkVarRef (map_identity (identity variable) k)
                  (int_add (int_add (depth variable) 1) 1)
                  (KeyString k)
                  (CellMapEntry variable k))
      keys.

Fixpoint Ref_Vars (r : Ref) : outcome (list VarRef) :=
  match r with
  | RNil => Panic panic_nil
  | RVar v => Ok [v]
  | RArray variable selection => Ok (ArrayRef_Vars variable selection)
  | RMap variable keys => Ok (MapRef_Vars variable keys)
  | RUnion refs =>
      n ← Ref_EstimateSize (RUnion refs);
      _ ← make_cap n;
      foldM (fun result ref => vs ← Ref_Vars ref; Ok (result ++ vs)) refs []
  | RLiteral v => Ok [mkVarRef "[literal]" (-1) KeyNone (CellLiteral v)]
  | RLatent _ _ => Ok []
  end.

(** *** Merge *)

(** The loop of [UnionRef.Merge] over the members [refs] of the union:
    the first member that merges with the new reference is replaced by the
    merged reference in a copy of the members.  [merge] is [old.Merge(ref)];
    [before] are the members already tried, [rest] those to come. *)
Fixpoint UnionRef_Merge_loop (merge : Ref -> outcome (Ref * bool))
         (refs before rest : list Ref) : outcome (Ref * bool) :=
  match rest with
  | [] => Ok (RUnion refs, false)
  | old :: rest' =>
      '(merged, ok) ← merge old;
      if (ok : bool) then Ok (RUnion (before ++ merged :: rest'), true)
      else UnionRef_Merge_loop merge refs (before ++ [old]) rest'
  end.

(** [Ref.Merge]: the merged reference and whether the merge took place. *)
Fixpoint Ref_Merge (r : Ref) (ref : Ref) : outcome (Ref * bool) :=
  match r with
  | RNil => Panic panic_nil
  | RArray variable selection =>
      match ref with
      | RArray ovariable oselection =>
          if String.eqb (identity variable) (identity ovariable)
          then Ok (RArray variable (Regions_Union selection oselection), true)
          else Ok (RNil, false)
      | _ => Ok (RNil, false)
      end
  | RMap variable keys =>
      match ref with
      | RMap ovariable okeys =>
          if String.eqb (identity ovariable) (identity variable)
          then Ok (RMap variable (unionKeys keys okeys), true)
          else Ok (RNil, false)
      | _ => Ok (RNil, false)
      end
  | RUnion refs =>
      match ref with
      | RUnion _ => Ok (RNil, false)
      | _ => UnionRef_Merge_loop (fun old => Ref_Merge old ref) refs [] refs
      end
  | RVar v =>
      match ref with
      | RVar varRef =>
          if String.eqb (identity varRef) (identity v) then Ok (RVar v, true)
          else Ok (RNil, false)
      | _ => Ok (RNil, false)
      end
  | RLiteral v =>
      match ref with
      | RLiteral ov =>
          e ← iface_eq v ov;
          if (e : bool) then Ok (RLiteral v, true) else Ok (RNil, false)
      | _ => Ok (RNil, false)
      end
  | RLatent addr _ =>
      (* [return nil, ref == r]: pointer equality *)
      match ref with
      | RLatent oaddr _ => Ok (RNil, Nat.eqb oaddr addr)
      | _ => Ok (RNil, false)
      end
  end.

(** *** The order of a union *)

(** [PathedRef.GetPath], for the references that have one. *)
Definition GetPath (r : Ref) : option string :=
  match r with
  | RMap variable _ => Some (identity variable)
  | RArray variable _ => Some (identity variable)
  | RVar v => Some (identity v)
  | _ => None
  end.

(** [UnionRef.Less] on two members. *)
Definition UnionRef_Less (a b : Ref) : outcome bool :=
  da ← Ref_Depth a;
  db ← Ref_Depth b;
  if da =? db then
    match GetPath a, GetPath b with
    | Some _, None => Ok true
    | Some pa, Some pb => Ok (String.ltb pa pb)
    | None, _ => Ok (da >? db)
    end
  else Ok (da >? db).

(** [sort.Sort] on the members, as the insertion sort that package sort
    runs on short slices: each element moves left past the members it is
    [Less] than.  [bubble x rev_prefix] works on the reversed prefix. *)
Fixpoint bubble (x : Ref) (rev_prefix : list Ref) : outcome (list Ref) :=
  match rev_prefix with
  | [] => Ok [x]
  | p :: rest =>
      lt ← UnionRef_Less x p;
      if (lt : bool) then (r ← bubble x rest; Ok (p :: r))
      else Ok (x :: p :: rest)
  end.

Definition sort_refs (refs : list Ref) : outcome (list Ref) :=
  rev_sorted ← foldM (fun rev_prefix x => bubble x rev_prefix) refs [];
  Ok (rev rev_sorted).

(** *** Union *)

(** [UnionRef.Union] with receiver [&UnionRef{r}] and arguments [refs].
    The call [result.Union(t.refs...)] on a nested union goes to the
    method of [result]'s dynamic type: [UnionRef.Union] again, or, through
    [NewUnionRef(append(refs, r)...)], [UnionRef.Union] on an empty
    receiver.  Every such call is on the members of a union nested in
    [refs], so the nesting depth of [refs] bounds the recursion ([fuel]). *)
Fixpoint UnionRef_Union_fuel (fuel : nat) (r : list Ref) (refs : list Ref)
  : outcome Ref :=
  match fuel with
  | O => OutOfFuel
  | S fuel' =>
      result ← foldM (fun (result : Ref) (ref : Ref) =>
          match ref with
          | RUnion trefs =>
              match result with
              | RNil => Panic panic_nil
              | RUnion rrefs => UnionRef_Union_fuel fuel' rrefs trefs
              | other => UnionRef_Union_fuel fuel' [] (trefs ++ [other])
              end
          | _ =>
              '(merged, didMerge) ← Ref_Merge result ref;
              if (didMerge : bool) then Ok merged
              else match result with
                   | RUnion rrefs => Ok (RUnion (rrefs ++ [ref]))
                   | _ => Panic panic_conversion
                   end
          end) refs (RUnion r);
      match result with
      | RUnion [x] => Ok x
      | RUnion urefs => sorted ← sort_refs urefs; Ok (RUnion sorted)
      | _ => Panic "BUG: Result of a union with more than one member must be *UnionRef"
      end
  end.

(** Nesting depth of unions in a list of references. *)
Fixpoint union_depth (r : Ref) : nat :=
  match r with
  | RUnion refs => S (fold_right (fun x d => Nat.max (union_depth x) d) O refs)
  | _ => O
  end.

Definition UnionRef_Union (r : list Ref) (refs : list Ref) : outcome Ref :=
  UnionRef_Union_fuel (S (union_depth (RUnion refs))) r refs.

(** [NewUnionRef]. *)
Definition NewUnionRef (refs : list Ref) : outcome Ref := UnionRef_Union [] refs.

(** [Ref.Union]. *)
Definition Ref_Union (r : Ref) (refs : list Ref) : outcome Ref :=
  match r with
  | RNil => Panic panic_nil
  | RUnion rrefs => UnionRef_Union rrefs refs
  | other => NewUnionRef (refs ++ [other])
  end.

(* ================================================================== *)
(** ** Mutations through a reference *)
(* ================================================================== *)

(** A mutation runs on the current document and leaves a document behind
    also when it ends in an error: what was written before the error stays
    written. *)
Definition Mut (A : Type) : Type := value -> outcome A * value.

Definition mut_ret {A : Type} (a : A) : Mut A := fun d => (Ok a, d).

Definition mut_bind {A B : Type} (m : Mut A) (f : A -> Mut B) : Mut B :=
  fun d =>
    match m d with
    | (Ok a, d') => f a d'
    | (Err e, d') => (Err e, d')
    | (Panic p, d') => (Panic p, d')
    | (OutOfFuel, d') => (OutOfFuel, d')
    end.

#[global] Instance Mut_ret : MRet Mut := fun A a => mut_ret a.
#[global] Instance Mut_bind : MBind Mut := fun A B f m => mut_bind m f.

(** A computation that only reads the document. *)
Definition mut_read {A : Type} (f : value -> outcome A) : Mut A :=
  fun d => (f d, d).

(** A computation that does not look at the document. *)
Definition mut_lift {A : Type} (o : outcome A) : Mut A := fun d => (o, d).

(** A computation that replaces the document, when it succeeds. *)
Definition mut_write (f : value -> outcome value) : Mut unit :=
  fun d =>
    match f d with
    | Ok d' => (Ok tt, d')
    | Err e => (Err e, d)
    | Panic p => (Panic p, d)
    | OutOfFuel => (OutOfFuel, d)
    end.

Fixpoint mut_for {A : Type} (l : list A) (body : A -> Mut unit) : Mut unit :=
  match l with
  | [] => mut_ret tt
  | x :: l' => _ ← body x; mut_for l' body
  end.

(** [MutatorFunc] and [MutateRegionsFunc]: the callbacks of the caller. *)
Definition MutatorFunc : Type := string -> value -> outcome value.
Definition MutateRegionsFunc : Type := string -> list (list value) -> outcome (list (list value)).

(** [buildMapBabushka]. *)
Fixpoint buildMapBabushka (keyPath : list string) (v : value) : gmap string value :=
  match keyPath with
  | [] => ∅
  | k :: rest =>
      match rest with
      | [] => {[ k := v ]}
      | _ => {[ k := VMap (buildMapBabushka rest v) ]}
      end
  end.

(** *** ArrayRef *)

Definition ArrayRef_current (variable : VarRef) : Mut (list value) :=
  mut_read (fun d => cv ← VarRef_CanonicalValue d variable; as_slice cv).

Definition ArrayRef_Set (variable : VarRef) (selection : Regions) (v : value)
  : Mut unit :=
  current ← ArrayRef_current variable;
  let modified :=
    imap (fun i x => if Regions_ContainsIndex selection (Z.of_nat i) then v else x)
         current in
  mut_write (fun d => VarRef_SetWithMatchedType d variable (VSlice modified)).

Definition ArrayRef_Mutate (variable : VarRef) (selection : Regions)
           (mutator : MutatorFunc) : Mut unit :=
  current ← ArrayRef_current variable;
  modified ← mut_lift
    (foldM (fun modified i =>
              if Regions_ContainsIndex selection i then
                x ← index_slice current i;
                newValue ← mutator (array_identity (identity variable) i) x;
                slice_assign modified i newValue
              else Ok modified)
           (Regions_ToIndicies selection) current);
  mut_write (fun d => VarRef_SetWithMatchedType d variable (VSlice modified)).

(** A method that assigns to a field of its receiver when it succeeds:
    the outcome, the field afterwards, and the document afterwards. *)
Definition with_field {A : Type} (m : Mut A) (old : A) : value -> outcome unit * A * value :=
  fun d =>
    match m d with
    | (Ok a, d') => (Ok tt, a, d')
    | (Err e, d') => (Err e, old, d')
    | (Panic p, d') => (Panic p, old, d')
    | (OutOfFuel, d') => (OutOfFuel, old, d')
    end.

(** [ArrayRef.Delete]; on success the selection of the reference is
    cleared. *)
Definition ArrayRef_Delete (fuel : nat) (variable : VarRef) (selection : Regions)
  : value -> outcome unit * Regions * value :=
  with_field
    (current ← ArrayRef_current variable;
     regionsToKeep ← mut_lift (Regions_Intersect fuel [mkRegion 0 (len current)] selection);
     _ ← mut_lift (make_cap (Regions_IndiciesCount regionsToKeep));
     modified ← mut_lift
       (foldM (fun modified i => x ← index_slice current i; Ok (modified ++ [x]))
              (Regions_ToIndicies regionsToKeep) []);
     _ ← mut_write (fun d => VarRef_SetWithMatchedType d variable (VSlice modified));
     mut_ret [])
    selection.

(** [ArrayRef.MutateRegions]; on success the selection becomes the
    regions of the replacements. *)
Definition ArrayRef_MutateRegions (variable : VarRef) (selection : Regions)
           (mutator : MutateRegionsFunc) : value -> outcome unit * Regions * value :=
  with_field
    (original ← ArrayRef_current variable;
     extract ← mut_lift (Regions_ExtractItems selection original);
     modifiedExtract ← mut_lift
       (mutator (identity variable +:+ "[" +:+ Regions_ToSliceSelector selection +:+ "]")
                extract);
     '(modified, updatedRegions) ←
        mut_lift (Regions_MergeItems selection original modifiedExtract);
     _ ← mut_write (fun d => VarRef_SetWithMatchedType d variable (VSlice modified));
     mut_ret updatedRegions)
    selection.

(** *** MapRef *)

Definition MapRef_cloneMap (variable : VarRef) : Mut (gmap string value) :=
  mut_read (fun d => cv ← VarRef_CanonicalValue d variable; as_map cv).

Definition MapRef_Set (variable : VarRef) (keys : list string) (v : value) : Mut unit :=
  modified ← MapRef_cloneMap variable;
  let modified := fold_left (fun m k => <[k := v]> m) keys modified in
  mut_write (fun d => VarRef_SetWithMatchedType d variable (VMap modified)).

Definition MapRef_Mutate (variable : VarRef) (keys : list string)
           (mutator : MutatorFunc) : Mut unit :=
  current ← MapRef_cloneMap variable;
  modified ← MapRef_cloneMap variable;
  modified ← mut_lift
    (foldM (fun (modified : gmap string value) k =>
              newValue ← mutator (map_identity (identity variable) k) (map_index current k);
              Ok (<[k := newValue]> modified))
           keys modified);
  mut_write (fun d => VarRef_SetWithMatchedType d variable (VMap modified)).

Definition MapRef_Delete (variable : VarRef) (keys : list string) : Mut unit :=
  modified ← MapRef_cloneMap variable;
  let modified := fold_left (fun m k => delete k m) keys modified in
  mut_write (fun d => VarRef_SetWithMatchedType d variable (VMap modified)).

(** *** VarRef *)

Definition VarRef_Mutate (v : VarRef) (mutator : MutatorFunc) : Mut unit :=
  old ← mut_read (fun d => VarRef_getter d v);
  newValue ← mut_lift (mutator (identity v) old);
  mut_write (fun d => VarRef_setter d v newValue).

Definition VarRef_Delete : Mut unit :=
  mut_lift (Err "Delete not supported for VarRefs").

(** *** Set, Mutate and Delete of a reference *)

Fixpoint Ref_Set (h : Heap) (r : Ref) (v : value) : Mut unit :=
  match r with
  | RNil => mut_lift (Panic panic_nil)
  | RVar var => mut_write (fun d => VarRef_Set d var v)
  | RArray variable selection => ArrayRef_Set variable selection v
  | RMap variable keys => MapRef_Set variable keys v
  | RUnion refs =>
      (fix loop (l : list Ref) : Mut unit :=
         match l with
         | [] => mut_ret tt
         | ref :: l' => _ ← Ref_Set h ref v; loop l'
         end) refs
  | RLiteral _ => mut_lift (Panic "Attempt to set value of LiteralRef")
  | RLatent addr root =>
      let nested := VMap (buildMapBabushka (keyPath h addr) v) in
      match root with
      | RUnion refs =>
          (fix loop (l : list Ref) : Mut unit :=
             match l with
             | [] => mut_ret tt
             | ref :: l' => _ ← Ref_Set h ref nested; loop l'
             end) refs
      | t => Ref_Set h t nested
      end
  end.

(** The identity that [LatentMapRef.Mutate] hands to the mutator:
    [fmt.Sprintf("%s.*.%s", baseIdentity, strings.Join(keyPath, "."))]. *)
Definition latent_identity (baseIdentity : string) (keyPath : list string) : string :=
  baseIdentity +:+ ".*." +:+ strings_Join keyPath ".".

Definition LatentMapRef_Mutate_one (h : Heap) (addr : nat) (mutator : MutatorFunc)
           (ref : Ref) : Mut unit :=
  match ref with
  | RMap variable _ =>
      v ← mut_lift (mutator (latent_identity (identity variable) (keyPath h addr)) VNil);
      Ref_Set h ref (VMap (buildMapBabushka (keyPath h addr) v))
  | _ => mut_lift (Panic panic_conversion)
  end.

Fixpoint Ref_Mutate (h : Heap) (r : Ref) (mutator : MutatorFunc) : Mut unit :=
  match r with
  | RNil => mut_lift (Panic panic_nil)
  | RVar var => VarRef_Mutate var mutator
  | RArray variable selection => ArrayRef_Mutate variable selection mutator
  | RMap variable keys => MapRef_Mutate variable keys mutator
  | RUnion refs =>
      (fix loop (l : list Ref) : Mut unit :=
         match l with
         | [] => mut_ret tt
         | ref :: l' => _ ← Ref_Mutate h ref mutator; loop l'
         end) refs
  | RLiteral _ => mut_lift (Panic "Attempt to mutate value of LiteralRef")
  | RLatent addr root =>
      mut_for (individualRefs root) (LatentMapRef_Mutate_one h addr mutator)
  end.

(** [Ref.Delete]; an ArrayRef changes its own selection, so the call
    also returns the reference as it is afterwards. *)
Fixpoint Ref_Delete (fuel : nat) (r : Ref) (data : value) : outcome unit * Ref * value :=
  match r with
  | RNil => (Panic panic_nil, r, data)
  | RVar _ => let '(o, d) := VarRef_Delete data in (o, r, d)
  | RArray variable selection =>
      let '(o, selection', d) := ArrayRef_Delete fuel variable selection data in
      (o, RArray variable selection', d)
  | RMap variable keys => let '(o, d) := MapRef_Delete variable keys data in (o, r, d)
  | RUnion refs =>
      let '(o, refs', d) :=
        (fix loop (l : list Ref) (data : value) : outcome unit * list Ref * value :=
           match l with
           | [] => (Ok tt, [], data)
           | ref :: l' =>
               match Ref_Delete fuel ref data with
               | (Ok _, ref', d) => let '(o, l'', d') := loop l' d in (o, ref' :: l'', d')
               | (o, ref', d) => (o, ref' :: l', d)
               end
           end) refs data in
      (o, RUnion refs', d)
  | RLiteral _ => (Panic "Attempt to delete LiteralRef", r, data)
  | RLatent _ _ => (Ok tt, r, data)
  end.

(* ================================================================== *)
(** ** MatchSet *)
(* ================================================================== *)

Record MatchSet : Type := mkMatchSet {
  root : VarRef;
  ref : Ref;
  mutated : bool;
}.

Definition already_mutated : string := "This extract has allready mutated once".

(** A method of MatchSet runs on the MatchSet and the document its root
    variable holds ([Set] and [Mutate] also read the heap of its latent
    references); a mutating method leaves the MatchSet and the document
    behind, with its own result. *)
Definition MatchSet_Values (e : MatchSet) (data : value)
  : outcome (list value) :=
  if mutated e then Panic "Values are not availible after extract has been mutated"
  else Ref_Values data (ref e).

Definition set_mutated (e : MatchSet) : MatchSet := mkMatchSet (root e) (ref e) true.

Definition set_ref (e : MatchSet) (r : Ref) : MatchSet := mkMatchSet (root e) r (mutated e).

(** The common tail of the mutating methods: [e.mutated = true] and
    [return e.root.Value(), nil]. *)
Definition MatchSet_done (e : MatchSet) (data : value)
  : outcome value * MatchSet * value :=
  (VarRef_Value data (root e), set_mutated e, data).

Definition MatchSet_Set (h : Heap) (e : MatchSet) (v : value) (data : value)
  : outcome value * MatchSet * value :=
  if mutated e then (Err already_mutated, e, data)
  else match Ref_Set h (ref e) v data with
       | (Ok _, data') => MatchSet_done e data'
       | (Err msg, data') => (Err msg, e, data')
       | (Panic msg, data') => (Panic msg, e, data')
       | (OutOfFuel, data') => (OutOfFuel, e, data')
       end.

Definition MatchSet_Delete (fuel : nat) (e : MatchSet) (data : value)
  : outcome value * MatchSet * value :=
  if mutated e then (Err already_mutated, e, data)
  else match Ref_Delete fuel (ref e) data with
       | (Ok _, r', data') => MatchSet_done (set_ref e r') data'
       | (Err msg, r', data') => (Err msg, set_ref e r', data')
       | (Panic msg, r', data') => (Panic msg, set_ref e r', data')
       | (OutOfFuel, r', data') => (OutOfFuel, set_ref e r', data')
       end.

Definition MatchSet_Mutate (h : Heap) (e : MatchSet) (mutator : MutatorFunc) (data : value)
  : outcome value * MatchSet * value :=
  if mutated e then (Err already_mutated, e, data)
  else match Ref_Mutate h (ref e) mutator data with
       | (Ok _, data') => MatchSet_done e data'
       | (Err msg, data') => (Err msg, e, data')
       | (Panic msg, data') => (Panic msg, e, data')
       | (OutOfFuel, data') => (OutOfFuel, e, data')
       end.

(** [%T] of a reference, as [fmt.Errorf] prints it. *)
Definition type_name (r : Ref) : string :=
  match r with
  | RNil => "<nil>"
  | RVar _ => "*jsonmatch.VarRef"
  | RArray _ _ => "*jsonmatch.ArrayRef"
  | RMap _ _ => "*jsonmatch.MapRef"
  | RUnion _ => "*jsonmatch.UnionRef"
  | RLiteral _ => "*jsonmatch.LiteralRef"
  | RLatent _ _ => "*jsonmatch.LatentMapRef"
  end.

(** The type switch of [MatchSet.MutateRegions] that collects the array
    references: [*ArrayRef], [*UnionRef], and no other case. *)
Fixpoint collect_arrayRefs (refs : list Ref) : outcome (list (VarRef * Regions)) :=
  match refs with
  | [] => Ok []
  | r :: refs' =>
      match r with
      | RArray variable selection =>
          rest ← collect_arrayRefs refs';
          Ok ((variable, selection) :: rest)
      | _ => Err ("Cannot mutate regions of a " +:+ type_name r +:+
                  " ref. All selected values must be array members")
      end
  end.

Definition MatchSet_arrayRefs (r : Ref) : outcome (list (VarRef * Regions)) :=
  match r with
  | RArray variable selection => Ok [(variable, selection)]
  | RUnion refs => collect_arrayRefs refs
  | _ => Ok []
  end.

(** The loop [for _, ref := range arrayRefs] of [MatchSet.MutateRegions];
    it also returns the array references as they are afterwards. *)
Fixpoint MutateRegions_loop (arrayRefs : list (VarRef * Regions))
         (mutator : MutateRegionsFunc) (data : value)
  : outcome unit * list (VarRef * Regions) * value :=
  match arrayRefs with
  | [] => (Ok tt, [], data)
  | (variable, selection) :: rest =>
      match ArrayRef_MutateRegions variable selection mutator data with
      | (Ok _, selection', d) =>
          let '(o, rest', d') := MutateRegions_loop rest mutator d in
          (o, (variable, selection') :: rest', d')
      | (o, selection', d) => (o, (variable, selection') :: rest, d)
      end
  end.

(** The reference of the MatchSet after the array references it points to
    were updated. *)
Definition update_arrayRefs (r : Ref) (arrayRefs : list (VarRef * Regions)) : Ref :=
  match r with
  | RArray _ _ =>
      match arrayRefs with
      | (variable, selection) :: _ => RArray variable selection
      | [] => r
      end
  | RUnion _ => RUnion (map (fun '(variable, selection) => RArray variable selection) arrayRefs)
  | _ => r
  end.

Definition MatchSet_MutateRegions (e : MatchSet) (mutator : MutateRegionsFunc)
           (data : value) : outcome value * MatchSet * value :=
  if mutated e then (Err already_mutated, e, data)
  else match MatchSet_arrayRefs (ref e) with
       | Ok arrayRefs =>
           let '(o, arrayRefs', data') := MutateRegions_loop arrayRefs mutator data in
           let e' := set_ref e (update_arrayRefs (ref e) arrayRefs') in
           match o with
           | Ok _ => MatchSet_done e' data'
           | Err msg => (Err msg, e', data')
           | Panic msg => (Panic msg, e', data')
           | OutOfFuel => (OutOfFuel, e', data')
           end
       | Err msg => (Err msg, e, data)
       | Panic msg => (Panic msg, e, data)
       | OutOfFuel => (OutOfFuel, e, data)
       end.

(* ================================================================== *)
(** ** Expressions *)
(* ================================================================== *)

(** The operator of a filter: the comparison tokens and [Exists]; any
    other token is carried by name. *)
Inductive Token : Type :=
| Exists | LT | GT | Equals | NEQ | LTE | GTE
| OtherToken (name : string).

(** The node types of jsonpath.go, without their source position, which
    the evaluator never reads.  The [rhs] of a filter may be nil. *)
Inductive node : Type :=
| pathNode (nodes : list node)
| stringNode (val : string)
| fieldNode (name : string)
| existingFieldNode (name : string)
| indexNode (sealed : bool) (val : Z)
| sliceNode (start end_ step : Z) (startSpecified endSpecified stepSpecified : bool)
| filterNode (lhs : node) (rhs : option node) (operator : Token)
| intNode (val : Z)
| floatNode (val : float)
| wildcardNode
| recursiveNode
| unionNode (nodes : list node)
| selfNode.

(* ================================================================== *)
(** ** The evaluator (match.go) *)
(* ================================================================== *)

(** Evaluation reads the document and works on the heap of latent
    references: it allocates them and, through [AddKey], assigns to them. *)
Definition Eval (A : Type) : Type := Heap -> outcome (A * Heap).

Definition eval_ret {A : Type} (a : A) : Eval A := fun h => Ok (a, h).

Definition eval_bind {A B : Type} (m : Eval A) (f : A -> Eval B) : Eval B :=
  fun h =>
    match m h with
    | Ok (a, h') => f a h'
    | Err e => Err e
    | Panic p => Panic p
    | OutOfFuel => OutOfFuel
    end.

#[global] Instance Eval_ret : MRet Eval := fun A a => eval_ret a.
#[global] Instance Eval_bind : MBind Eval := fun A B f m => eval_bind m f.

Definition eval_lift {A : Type} (o : outcome A) : Eval A :=
  fun h => match o with
           | Ok a => Ok (a, h)
           | Err e => Err e
           | Panic p => Panic p
           | OutOfFuel => OutOfFuel
           end.

Fixpoint eval_fold {A S : Type} (f : S -> A -> Eval S) (l : list A) (s : S) : Eval S :=
  match l with
  | [] => eval_ret s
  | x :: l' => s' ← f s x; eval_fold f l' s'
  end.

(** A [*LatentMapRef]: the address of the object and its [root] field. *)
Definition LatentPtr : Type := (nat * Ref)%type.

Definition latent_ref (l : LatentPtr) : Ref := RLatent (fst l) (snd l).

(** [NewLatentMapRef]: a new LatentMapRef object. *)
Definition NewLatentMapRef (rootRef : Ref) (keyPath : list string) : Eval LatentPtr :=
  fun h => Ok ((length h, rootRef), h ++ [keyPath]).

(** [LatentMapRef.AddKey]: [r.keyPath = append(r.keyPath, key)]. *)
Definition LatentMapRef_AddKey (r : LatentPtr) (k : string) : Eval unit :=
  fun h => Ok (tt, alter (fun keyPath => keyPath ++ [k]) (fst r) h).

(** [MapRef.GetLatentMapRef]; [None] is the nil pointer. *)
Definition MapRef_GetLatentMapRef (data : value) (variable : VarRef) (keys : list string)
  : Eval (option LatentPtr) :=
  cv ← eval_lift (VarRef_CanonicalValue data variable);
  m ← eval_lift (as_map cv);
  let missingKeys :=
    List.filter (fun k =>
                   match m !! k with
                   | None => true
                   | Some VNil => true
                   | Some content => match kind_of content with KMap => false | _ => true end
                   end) keys in
  match missingKeys with
  | [] => eval_ret None
  | _ =>
      rootRef ← eval_lift (NewMapRef data variable missingKeys);
      latent ← NewLatentMapRef rootRef [];
      eval_ret (Some latent)
  end.

(** [latentMapRefs]. *)
Definition latentMapRefs (data : value) (ref : Ref) : Eval (list LatentPtr) :=
  eval_fold (fun result r =>
               match r with
               | RMap variable keys =>
                   latent ← MapRef_GetLatentMapRef data variable keys;
                   match latent with
                   | Some l => eval_ret (result ++ [l])
                   | None => eval_ret result
                   end
               | RLatent addr rootRef => eval_ret (result ++ [(addr, rootRef)])
               | _ => eval_ret result
               end)
            (individualRefs ref) [].

(** [allKeysOfMap]: the keys, in the order the map hands them out. *)
Definition allKeysOfMap (m : gmap string value) : list string :=
  map fst (map_to_list m).

(** [matchAllChildren]. *)
Definition matchAllChildren (data : value) (varRef : VarRef) : outcome Ref :=
  let result := NewEmptyRef in
  isMap ← VarRef_IsMap data varRef;
  if (isMap : bool) then
    cv ← VarRef_CanonicalValue data varRef;
    m ← as_map cv;
    r ← NewMapRef data varRef (allKeysOfMap m);
    Ref_Union result [r]
  else
    isSlice ← VarRef_IsSlice data varRef;
    if (isSlice : bool) then
      cv ← VarRef_CanonicalValue data varRef;
      items ← as_slice cv;
      r ← NewArrayRef data varRef [mkRegion 0 (len items)];
      Ref_Union result [r]
    else Ok result.

(** [processFieldSelection]. *)
Definition processFieldSelection (data : value) (input : Ref) (name : string)
           (requireFieldToExist : bool) : Eval Ref :=
  vars ← eval_lift (Ref_Vars input);
  results ← eval_lift
    (foldM (fun results varRef =>
              isMap ← VarRef_IsMap data varRef;
              if (isMap : bool) then
                skip ← (if requireFieldToExist then
                          cv ← VarRef_CanonicalValue data varRef;
                          m ← as_map cv;
                          Ok (match m !! name with Some _ => false | None => true end)
                        else Ok false);
                if (skip : bool) then Ok results
                else
                  r ← NewMapRef data varRef [name];
                  Ref_Union results [r]
              else Ok results)
           vars NewEmptyRef);
  if requireFieldToExist then eval_ret results
  else
    latents ← latentMapRefs data input;
    eval_fold (fun results latent =>
                 _ ← LatentMapRef_AddKey latent name;
                 eval_lift (Ref_Union results [latent_ref latent]))
              latents results.

(** The loop [for i := start; i < end; i += step] of [processSlice]. *)
Fixpoint slice_indicies (fuel : nat) (i end_ step : Z) (indicies : list Z)
  : outcome (list Z) :=
  if i <? end_ then
    match fuel with
    | O => OutOfFuel
    | S fuel' => slice_indicies fuel' (int_add i step) end_ step (indicies ++ [i])
    end
  else Ok indicies.

(** The body of the loop of [processSlice] for one slice variable. *)
Definition processSlice_var (fuel : nat) (data : value) (varRef : VarRef)
           (start end_ step : Z) (startSpecified endSpecified stepSpecified : bool)
           (result : Ref) : outcome Ref :=
  cv ← VarRef_CanonicalValue data varRef;
  val ← as_slice cv;
  let start0 := if startSpecified then start else 0 in
  let start1 := if start0 <? 0 then int_add start0 (len val) else start0 in
  let end0 := if endSpecified then end_ else len val in
  let end1 := if end0 <? 0 then int_add end0 (len val) else end0 in
  let start2 := if start1 <? 0 then 0 else start1 in
  let end2 := if end1 >? len val then len val else end1 in
  let '(end3, step1) :=
    if stepSpecified then
      if step =? 0
      then (if negb (end2 =? start2) then int_add start2 1 else end2, 1)
      else (end2, step)
    else (end2, 1) in
  if step1 =? 1 then
    r ← NewArrayRef data varRef [mkRegion start2 end3];
    Ref_Union result [r]
  else
    let '(start4, end4) := if step1 <? 0 then (end3, start2) else (start2, end3) in
    _ ← make_cap (int_sub end4 start4);
    indicies ← slice_indicies fuel start4 end4 step1 [];
    r ← NewArrayRef data varRef (NewRegionForEachIndex indicies);
    Ref_Union result [r].

Definition processSlice (fuel : nat) (data : value) (input : Ref)
           (start end_ step : Z) (startSpecified endSpecified stepSpecified : bool)
  : outcome Ref :=
  vars ← Ref_Vars input;
  foldM (fun result varRef =>
           isSlice ← VarRef_IsSlice data varRef;
           if (isSlice : bool)
           then processSlice_var fuel data varRef start end_ step
                                 startSpecified endSpecified stepSpecified result
           else Ok result)
        vars NewEmptyRef.

(** [processIndex]. *)
Definition processIndex (data : value) (input : Ref) (val : Z) : outcome Ref :=
  vars ← Ref_Vars input;
  foldM (fun result varRef =>
           isSlice ← VarRef_IsSlice data varRef;
           if (isSlice : bool) then
             cv ← VarRef_CanonicalValue data varRef;
             items ← as_slice cv;
             if (len items =? 0) && ((val =? 0) || (val =? -1)) then
               r ← NewArrayRef data varRef [mkRegion 0 0];
               Ref_Union result [r]
             else
               let index := if val <? 0 then int_add val (len items) else val in
               if (index >=? 0) && (index <? len items) then
                 r ← NewArrayRef data varRef [mkRegion index (int_add index 1)];
                 Ref_Union result [r]
               else Ok result
           else Ok result)
        vars NewEmptyRef.

(** [processWildcard]. *)
Definition processWildcard (data : value) (input : Ref) : outcome Ref :=
  vars ← Ref_Vars input;
  foldM (fun result varRef =>
           children ← matchAllChildren data varRef;
           Ref_Union result [children])
        vars NewEmptyRef.

(** [processRecursive]; the recursion goes down the document. *)
Fixpoint processRecursive (fuel : nat) (data : value) (input : Ref) : outcome Ref :=
  match fuel with
  | O => OutOfFuel
  | S fuel' =>
      vars ← Ref_Vars input;
      foldM (fun result varRef =>
               children ← matchAllChildren data varRef;
               descendants ← processRecursive fuel' data children;
               Ref_Union result [descendants])
            vars input
  end.

(** *** Filters *)

(** What a comparison function of package [template] returns: the result,
    one of the errors [ErrBadComparisonType] and [ErrBadComparison], or
    another error. *)
Inductive template_result : Type :=
| TOk (b : bool)
| TBadComparison
| TError (b : bool) (msg : string).

(** [float64(t)] of an [int]. *)
Definition float_of_int (z : Z) : float :=
  if z =? int_min
  then PrimFloat.opp (PrimFloat.mul (PrimFloat.of_uint63 (Uint63.of_Z (2 ^ 62))) 2%float)
  else if z <? 0 then PrimFloat.opp (PrimFloat.of_uint63 (Uint63.of_Z (- z)))
  else PrimFloat.of_uint63 (Uint63.of_Z z).

(** [floatFromValue], on the values of the model. *)
Definition floatFromValue (v : value) : float * bool :=
  match v with
  | VFloat t => (t, true)
  | VInt t => (float_of_int t, true)
  | _ => (0%float, false)
  end.

Definition coerceComparisionValue (v : value) : value :=
  let '(floatValue, wasNumber) := floatFromValue v in
  if wasNumber then VFloat floatValue else v.

Section Evaluator.

(** The comparison functions [Less], [Greater], [Equal], [NotEqual],
    [LessEqual] and [GreaterEqual] of package [template], which is not
    part of the sources at hand, by the operator they implement. *)
Variable template_compare : Token -> value -> value -> template_result.

(** [applyFilter]. *)
Definition applyFilter (data : value) (lhs rhs : Ref) (operator : Token) : outcome bool :=
  e ← Ref_IsEmpty lhs;
  if (e : bool) then Ok false
  else
    lhsValues ← Ref_Values data lhs;
    match lhsValues with
    | [] => Ok false
    | l0 :: lrest =>
        match operator with
        | Exists => Ok true
        | _ =>
            rhsValues ← Ref_Values data rhs;
            match rhsValues with
            | [] => Ok false
            | r0 :: rrest =>
                match lrest, rrest with
                | [], [] =>
                    let left := coerceComparisionValue l0 in
                    let right := coerceComparisionValue r0 in
                    match operator with
                    | LT | GT | Equals | NEQ | LTE | GTE =>
                        match template_compare operator left right with
                        | TOk b => Ok b
                        | TBadComparison => Ok false
                        | TError _ msg => Err msg
                        end
                    | Exists => Ok true
                    | OtherToken name => Err ("unrecognized filter operator " +:+ name)
                    end
                | _, _ => Ok false
                end
            end
        end
    end.

(** [process] and the functions it is mutually recursive with.  Every
    call of [process] spends one unit of [fuel]. *)
Fixpoint process (fuel : nat) (data : value) (input : Ref) (n : node) {struct fuel}
  : Eval Ref :=
  match fuel with
  | O => eval_lift OutOfFuel
  | S fuel' =>
      match n with
      | pathNode nodes =>
          (* processPath *)
          eval_fold (fun result n' => process fuel' data result n') nodes input
      | stringNode val => eval_ret (NewLiteralRef (VString val))
      | fieldNode name => processFieldSelection data input name false
      | existingFieldNode name => processFieldSelection data input name true
      | indexNode _ val => eval_lift (processIndex data input val)
      | sliceNode start end_ step startSpecified endSpecified stepSpecified =>
          eval_lift (processSlice fuel' data input start end_ step
                                  startSpecified endSpecified stepSpecified)
      | filterNode lhs rhs operator =>
          (* processFilter *)
          let test (single : Ref) : Eval bool :=
            lhsRef ← process fuel' data single lhs;
            rhsRef ← match rhs with
                     | Some rhsNode => process fuel' data single rhsNode
                     | None => eval_ret RNil
                     end;
            eval_lift (applyFilter data lhsRef rhsRef operator) in
          vars ← eval_lift (Ref_Vars input);
          eval_fold (fun result varRef =>
              isMap ← eval_lift (VarRef_IsMap data varRef);
              if (isMap : bool) then
                children ← eval_lift (matchAllChildren data varRef);
                match children with
                | RMap variable keys =>
                    matches ← eval_fold (fun matches k =>
                        single ← eval_lift (NewMapRef data variable [k]);
                        isMatch ← test single;
                        eval_ret (if (isMatch : bool) then matches ++ [k] else matches))
                      keys [];
                    r ← eval_lift (NewMapRef data variable matches);
                    eval_lift (Ref_Union result [r])
                | _ => eval_lift (Panic panic_conversion)
                end
              else
                isSlice ← eval_lift (VarRef_IsSlice data varRef);
                if (isSlice : bool) then
                  children ← eval_lift (matchAllChildren data varRef);
                  match children with
                  | RArray variable selection =>
                      _ ← eval_lift (make_cap (Regions_IndiciesCount selection));
                      matches ← eval_fold (fun matches index =>
                          single ← eval_lift
                            (NewArrayRef data variable (NewRegionForEachIndex [index]));
                          isMatch ← test single;
                          eval_ret (if (isMatch : bool) then matches ++ [index] else matches))
                        (Regions_ToIndicies selection) [];
                      r ← eval_lift
                        (NewArrayRef data variable (NewRegionForEachIndex matches));
                      eval_lift (Ref_Union result [r])
                  | _ => eval_lift (Panic panic_conversion)
                  end
                else eval_ret result)
            vars NewEmptyRef
      | intNode val => eval_ret (NewLiteralRef (VInt val))
      | floatNode val => eval_ret (NewLiteralRef (VFloat val))
      | wildcardNode => eval_lift (processWildcard data input)
      | recursiveNode => eval_lift (processRecursive fuel' data input)
      | unionNode nodes =>
          (* processUnion *)
          eval_fold (fun result pathNode' =>
                       subset ← process fuel' data input pathNode';
                       eval_lift (Ref_Union result [subset]))
                    nodes NewEmptyRef
      | selfNode => eval_ret input
      end
  end.

(** [Expression.Match]: the root variable is [$] over the document, the
    heap of latent references starts empty. *)
Definition rootVar : VarRef := mkVarRef "$" 0 KeyNone CellRoot.

Definition Expression_Match (fuel : nat) (expr : node) (data : value)
  : outcome (MatchSet * Heap) :=
  '(r, h) ← process fuel data (RVar rootVar) expr [];
  Ok (mkMatchSet rootVar r false, h).

End Evaluator.

(* ================================================================== *)
(** * Vocabulary of the properties *)
(* ================================================================== *)

(** ** Selected values of a map reference *)

(** The value a selected key contributes: the value stored under it,
    unless the key is absent or the value is nil. *)
Definition selected_value (m : gmap string value) (k : string) : option value :=
  match m !! k with
  | Some VNil => None
  | Some v => Some v
  | None => None
  end.

(** ** Documents and matches used as examples *)

(** The document [{"a": 1, "b": null}]. *)
Definition doc_a1_bnull : value :=
  VMap (<["a" := VInt 1]> (<["b" := VNil]> ∅)).

(** The document [{"a": [1, 2]}] and the MatchSet of the expression [a]
    on it. *)
Definition doc_a : value := VMap (<["a" := VSlice [VInt 1; VInt 2]]> ∅).

Definition match_a : MatchSet := mkMatchSet rootVar (RMap rootVar ["a"]) false.

(** The document [[0, 10, 20, 30, 40]], as the array of its tests. *)
Definition doc_array : value := VSlice [VInt 0; VInt 10; VInt 20; VInt 30; VInt 40].

(** The record of the package's match tests. *)
Definition ghost (name color : string) : value :=
  VMap (<["name" := VString name]> (<["color" := VString color]> ∅)).

Definition product (newPrice oldPrice : float) (title : string) : value :=
  VMap (<["newPrice" := VFloat newPrice]>
        (<["oldPrice" := VFloat oldPrice]> (<["title" := VString title]> ∅))).

Definition testRecord : value :=
  VMap (<["some" := VMap (<["path" := VString "hello there"]>
                          (<["wrongPath" := VString "hardyharhar!"]> ∅))]>
       (<["array" := VSlice [VInt 0; VInt 10; VInt 20; VInt 30; VInt 40]]>
       (<["otherArray" := VSlice [VInt 100; VInt 200]]>
       (<["ghosts" := VSlice [ghost "Blinky" "red"; ghost "Pinky" "pink";
                              ghost "Inky" "cyan"; ghost "Clyde" "orange"]]>
       (<["products" := VSlice [product 12.4 25.2 "Deck Chair";
                                product 52.2 10.0 "Malt Keg"]]>
       (<["name" := VString "root"]> ∅)))))).

(** The document [{"a": {}}] and the comparison that never compares. *)
Definition doc_a_empty : value := VMap (<["a" := VMap ∅]> ∅).

Definition no_compare (_ : Token) (_ _ : value) : template_result := TBadComparison.

(** [Match(src, data)] followed by [Values()], for the expression that
    [src] parses to. *)
Definition extractValues (expr : node) (data : value) : outcome (list value) :=
  '(ms, _) ← Expression_Match no_compare 10 expr data;
  MatchSet_Values ms data.

(** The reference that [a.b.c] evaluates to on that document: the latent
    reference at address 0, with the key path [c]. *)
Definition latent_a_b : Ref :=
  RLatent 0 (RMap (mkVarRef "$.a" 2 (KeyString "a") (CellMapEntry rootVar "a")) ["b"]).

(** ** Latent references and the heap *)

(** The latent reference at address [a] is [r] or a member of the union
    [r], at any depth of nesting. *)
Fixpoint latent_in (a : nat) (r : Ref) : Prop :=
  match r with
  | RLatent addr _ => addr = a
  | RUnion refs => fold_right (fun x rest => latent_in a x \/ rest) False refs
  | _ => False
  end.

(** A reference without latent references. *)
Definition no_latent (r : Ref) : Prop := forall a, ~ latent_in a r.

(** Postconditions of calls that return. *)
Definition returns {A : Type} (o : outcome A) (Q : A -> Prop) : Prop :=
  forall a, o = Ok a -> Q a.

(** From [h] to [h'] no latent reference is lost, the key path of a latent
    reference of [h] is at most extended, and it stays as it is for the
    addresses that [keep] names. *)
Definition heap_frame (keep : nat -> Prop) (h h' : Heap) : Prop :=
  (length h <= length h')%nat /\
  (forall a, (a < length h)%nat -> keep a -> h' !! a = h !! a) /\
  (forall a, (a < length h)%nat -> exists suffix, keyPath h' a = keyPath h a ++ suffix).

(** Postconditions of evaluations that return. *)
Definition eval_returns {A : Type} (m : Eval A) (h : Heap) (Q : A -> Heap -> Prop) : Prop :=
  forall a h', m h = Ok (a, h') -> Q a h'.

(** Every latent reference in [latents] is a latent reference of the
    input or was allocated after [h]. *)
Definition latents_of_input (input : Ref) (h : Heap) (latents : list LatentPtr) : Prop :=
  forall p, p ∈ latents -> latent_in (fst p) input \/ (length h <= fst p)%nat.

(** What evaluation promises about the heap and its result: the key path
    of a latent reference that is not in the input stays as it is, the others
    are at most extended, and a latent reference in the result is one of the
    input or a new one. *)
Definition process_post (input : Ref) (h : Heap) (out : Ref) (h' : Heap) : Prop :=
  heap_frame (fun a => ~ latent_in a input) h h' /\
  (forall a, latent_in a out -> latent_in a input \/ (length h <= a)%nat).

(** ** Regions as sets of indices *)

(** A region with [Start <= End]. *)
Definition well_formed (r : Region) : Prop := Start r <= End r.

(** A region that holds at least one index. *)
Definition strict (r : Region) : Prop := Start r < End r.

(** A well-formed region of a slice of length [n]. *)
Definition within (n : Z) (r : Region) : Prop :=
  0 <= Start r <= End r /\ End r <= n.

(** The index [i] lies in one of the regions. *)
Definition covers (rs : Regions) (i : Z) : Prop :=
  exists r, r ∈ rs /\ Region_ContainsIndex r i = true.

Definition covers_next (next : option Region) (i : Z) : Prop :=
  match next with Some n => Region_ContainsIndex n i = true | None => False end.

(** Deleting the items of [other] from a slice: how many of them lie
    before [r], and how many inside [r]. *)
Definition removed_before (r other : Region) : Z :=
  Z.max 0 (Z.min (End other) (Start r) - Start other).

Definition removed_inside (r other : Region) : Z :=
  Z.max 0 (Z.min (End r) (End other) - Z.max (Start r) (Start other)).

(** The watermark of [Regions.Check] after the regions [rs]. *)
Definition last_End (watermark : Z) (rs : Regions) : Z :=
  fold_left (fun _ r => End r) rs watermark.

(** The state of the loop of [Regions.Union]: the finished part is in
    order, and everything still to come starts behind it. *)
Definition Union_inv (leftSet rightSet : Regions) (next : option Region)
           (result : Regions) : Prop :=
  Check_from 0 result = true /\ Forall well_formed result /\
  Forall well_formed leftSet /\ Forall well_formed rightSet /\
  match next with
  | Some n =>
      well_formed n /\ last_End 0 result <= Start n /\
      Check_from (Start n) leftSet = true /\ Check_from (Start n) rightSet = true
  | None =>
      Check_from (last_End 0 result) leftSet = true /\
      Check_from (last_End 0 result) rightSet = true
  end.

(** The state (regionIndex, sourceIndex, merged, outRegions) of the loop
    of [Regions.MergeItems]: the regions written so far locate the
    replacements inserted so far in [merged]. *)
Definition Merge_inv {A : Type} (source : list A) (replace : list (list A))
           (st : nat * Z * list A * Regions) : Prop :=
  let '(k, sourceIndex, merged, out) := st in
  0 <= sourceIndex /\
  len merged <= Z.min sourceIndex (len source) + len (concat (take k replace)) /\
  Forall (within (len merged)) out /\
  map (fun r => items_between merged (Start r) (End r)) out = take k replace.

(** What the loop of [Regions.Simplify] keeps true of its result:
    [watermark] is below every region still to come. *)
Definition Simplify_inv (watermark : Z) (result : Regions) : Prop :=
  0 <= watermark /\
  Check_from 0 result = true /\ Forall strict result /\
  match last result with Some lst => Start lst <= watermark | None => True end.

(** The regions that [NewRegionsFromIndicies] would return if the loop
    ended in the state (result, nextRegion). *)
Definition closed_indices (result : Regions) (nextRegion : Region) : Regions :=
  if negb (Region_Empty nextRegion) then result ++ [nextRegion] else result.

(** The state of the loop of [NewRegionsFromIndicies] after the indices
    [seen]. *)
Definition FromIndicies_inv (seen : list Z) (st : Regions * Region) : Prop :=
  let '(result, nextRegion) := st in
  Regions_ToIndicies (closed_indices result nextRegion) = seen /\
  is_int (Start nextRegion) /\ is_int (End nextRegion) /\
  Start nextRegion <= End nextRegion /\
  (Start nextRegion = End nextRegion -> seen = []).

(** ** The loop of Regions.Intersect *)

(** One pass of the loop of [Regions.Intersect] with [n] in the hot seat;
    [loop] is the rest of the loop. *)
Definition Intersect_continue
           (loop : Regions -> Regions -> option Region -> Regions -> option Regions)
           (n : Region) (leftSet rightSet result : Regions) : option Regions :=
  match Intersect_catch_up rightSet n with
  | [] => Some ((result ++ [n]) ++ leftSet)
  | rgt :: rightSet' =>
      if Region_Overlap rgt n then
        match Region_Intersect n rgt with
        | [] => loop leftSet (rgt :: rightSet') None result
        | [x] => loop leftSet (rgt :: rightSet') (Some x) result
        | x :: y :: _ => loop leftSet (rgt :: rightSet') (Some y) (result ++ [x])
        end
      else loop leftSet (rgt :: rightSet') None (result ++ [n])
  end.

(** The work that is left for the loop of [Regions.Intersect]. *)
Definition Intersect_weight (rightSet : Regions) (n : Region) : nat :=
  match Intersect_catch_up rightSet n with
  | [] => 0
  | rgt :: rightSet' =>
      3 * length (rgt :: rightSet') + (if Region_Overlap rgt n then 2 else 1)
  end.

Definition Intersect_measure (leftSet rightSet : Regions) (next : option Region) : nat :=
  match next with
  | None => 3 * length leftSet + 3 * length rightSet
  | Some n => 3 * length leftSet + Intersect_weight rightSet n
  end.

(** The state of the loop of [Regions.Intersect]. *)
Definition Intersect_inv (leftSet rightSet : Regions) (next : option Region)
           (result : Regions) : Prop :=
  Check_from 0 result = true /\ Forall well_formed result /\
  Forall well_formed leftSet /\
  Check_from 0 rightSet = true /\ Forall well_formed rightSet /\
  match next with
  | Some n =>
      well_formed n /\ last_End 0 result <= Start n /\
      Check_from (End n) leftSet = true
  | None => Check_from (last_End 0 result) leftSet = true
  end.

(** The result of the loop, from a state that satisfies the invariant. *)
Definition Intersect_post (leftSet rightSet : Regions) (next : option Region)
           (result out : Regions) : Prop :=
  Check_from 0 out = true /\ Forall well_formed out /\
  forall i, covers out i <->
            covers result i \/
            ((covers_next next i \/ covers leftSet i) /\ ~ covers rightSet i).

(** ** Variables of the document *)

(** A variable reached from the root variable of the document, through
    map keys and slice indices: not the variable of a literal. *)
Fixpoint rooted (r : VarRef) : Prop :=
  match r with
  | mkVarRef _ _ _ c =>
      match c with
      | CellRoot => True
      | CellLiteral _ => False
      | CellMapEntry parent _ => rooted parent
      | CellArrayEntry parent _ => rooted parent
      end
  end.

(** ** Slices after a deletion *)

(** The items of a slice whose index is in none of the regions. *)
Definition remaining {A : Type} (selection : Regions) (items : list A) : list A :=
  omap (fun i => items !! Z.to_nat i)
       (filter (fun i => i ∉ Regions_ToIndicies selection) (index_range 0 (len items))).

(** ** Slice selectors *)

(** The bounds of a slice selector on a slice of length [n]: a bound that
    is not given is the start or the end of the slice, a negative bound
    counts from the end, and both are cut off at the ends of the slice. *)
Definition slice_from (n : Z) (specified : bool) (start : Z) : Z :=
  let s := if specified then start else 0 in
  Z.max 0 (if s <? 0 then s + n else s).

Definition slice_to (n : Z) (specified : bool) (end_ : Z) : Z :=
  let e := if specified then end_ else n in
  Z.min n (if e <? 0 then e + n else e).

(** ** Runs of indices *)

(** Regions that hold at least one index each and are separated: every
    region starts behind [watermark], and behind the end of the region
    before it, with a gap. *)
Fixpoint Gaps_from (watermark : Z) (rs : Regions) : Prop :=
  match rs with
  | [] => True
  | r :: rs' => watermark < Start r /\ Start r < End r /\ Gaps_from (End r) rs'
  end.

(** The state (result, nextRegion) of the loop of
    [NewRegionsFromIndicies] on increasing indices, with the indices [todo]
    still to come. *)
Definition Runs_inv (st : Regions * Region) (todo : list Z) : Prop :=
  let '(result, nextRegion) := st in
  Gaps_from (-1) (result ++ [nextRegion]) /\
  is_int (Start nextRegion) /\ is_int (End nextRegion) /\
  Forall (fun y => End nextRegion <= y) todo.

(** ** Errors *)

(** A call that does not return an error: it returns normally, panics or
    is still running. *)
Definition no_error {A : Type} (o : outcome A) : Prop := forall msg, o <> Err msg.

(* ================================================================== *)
(** * Properties *)
(* ================================================================== *)

(** ** Go integers *)

Lemma wrap_id (z : Z) : is_int z -> wrap z = z.
Proof.
  unfold is_int, int_min, int_max, wrap. intros H.
  rewrite Z.mod_small; lia.
Qed.

Lemma wrap_is_int (z : Z) : is_int (wrap z).
Proof.
  unfold is_int, int_min, int_max, wrap.
  pose proof (Z.mod_pos_bound (z + 2 ^ 63) (2 ^ 64)). lia.
Qed.

(** ** The package's own region tests, on the embedding *)

Example TestCut :
  Region_Cut (mkRegion 5 8) (mkRegion 2 7) = mkRegion 2 3 /\
  Region_Cut (mkRegion 5 8) (mkRegion 7 12) = mkRegion 5 7 /\
  Region_Cut (mkRegion 5 8) (mkRegion 6 7) = mkRegion 5 7 /\
  Region_Cut (mkRegion 5 8) (mkRegion 5 8) = mkRegion 5 5 /\
  Region_Cut (mkRegion 5 8) (mkRegion 1 3) = mkRegion 3 6 /\
  Region_Cut (mkRegion 5 8) (mkRegion 12 36) = mkRegion 5 8.
Proof. repeat split; reflexivity. Qed.

Example TestOverlap :
  Region_Overlap (mkRegion 2 3) (mkRegion 3 4) = false /\
  Region_Overlap (mkRegion 2 4) (mkRegion 3 4) = true /\
  Region_Overlap (mkRegion 5 5) (mkRegion 5 6) = false /\
  Region_Overlap (mkRegion 5 5) (mkRegion 5 5) = false /\
  Region_Overlap (mkRegion 4 6) (mkRegion 5 5) = true /\
  Region_Overlap (mkRegion 0 5) (mkRegion 5 5) = false /\
  Region_Overlap (mkRegion 1 1) (mkRegion 4 8) = false.
Proof. repeat split; reflexivity. Qed.

Example TestUnion :
  Regions_Union [mkRegion 1 2; mkRegion 4 9] [mkRegion 2 3]
    = [mkRegion 1 2; mkRegion 2 3; mkRegion 4 9] /\
  Regions_Union [mkRegion 2 3] [mkRegion 1 2; mkRegion 4 9]
    = [mkRegion 1 2; mkRegion 2 3; mkRegion 4 9] /\
  Regions_Union [mkRegion 1 5] [mkRegion 0 3; mkRegion 3 5] = [mkRegion 0 5] /\
  Regions_Union [mkRegion 0 3; mkRegion 3 5] [mkRegion 1 5] = [mkRegion 0 5].
Proof. repeat split; reflexivity. Qed.

Example TestUnionInfinitesimals :
  Regions_Union [mkRegion 5 5] [mkRegion 5 5; mkRegion 5 6]
    = [mkRegion 5 5; mkRegion 5 6] /\
  Regions_Union [mkRegion 6 6] [mkRegion 5 5; mkRegion 5 6]
    = [mkRegion 5 5; mkRegion 5 6; mkRegion 6 6] /\
  Regions_Union [mkRegion 5 5] [mkRegion 3 6] = [mkRegion 3 6].
Proof. repeat split; reflexivity. Qed.

(** ** Region.Cut *)

(** When [other] ends strictly before [r] starts, [Cut] shifts [r] left by
    the length of [other]. *)
Lemma Cut_strictly_before (r other : Region) :
  End other < Start r ->
  Region_Cut r other = Region_Shift r (int_neg (Region_Len other)).
Proof.
  intros H. unfold Region_Cut.
  destruct (End other <? Start r) eqn:E; [reflexivity | lia].
Qed.

(** C5 (the code departs from the claim): for [other] fully before [r] the
    claim promises [r] shifted left by [other.Len()], the adjacent case
    [other.End = r.Start] included.  [Region.Cut] tests [other.End <
    r.Start], so for the adjacent pair [r = [5,8)], [other = [2,5)] it falls
    through to [Shrink] and returns the empty region [[5,5)], where the shift
    is [[2,5)]. *)
Theorem C5_Cut_adjacent_before :
  let r := mkRegion 5 8 in
  let other := mkRegion 2 5 in
  End other <= Start r /\
  Region_Cut r other = mkRegion 5 5 /\
  Region_Shift r (int_neg (Region_Len other)) = mkRegion 2 5.
Proof. cbv zeta. split; [simpl; lia |]. split; reflexivity. Qed.

(** ** Region.Overlap *)

(** C6, the claim as stated fails: the zero-length region [[5,5)] lies
    strictly inside [[4,6)] and overlaps it, in both argument positions (the
    package's TestOverlap asserts the first). *)
Lemma C6_zero_length_inside_overlaps :
  Region_Empty (mkRegion 5 5) = true /\
  Region_Overlap (mkRegion 4 6) (mkRegion 5 5) = true /\
  Region_Overlap (mkRegion 5 5) (mkRegion 4 6) = true.
Proof. repeat split; reflexivity. Qed.

(** C6, amended: a zero-length region [z = [p,p)] overlaps a region
    [r = [s,e)], in either argument position, when it lies strictly inside
    it ([s < p < e]); it overlaps it in neither position when it lies
    outside it or on its end ([p < s] or [e <= p]); and [z.Overlap(r)] holds
    exactly when [s < p < e]. *)
Theorem C6_Overlap_zero_length (p s e : Z) :
  let z := mkRegion p p in
  let r := mkRegion s e in
  (s < p < e -> Region_Overlap z r = true /\ Region_Overlap r z = true) /\
  (p < s \/ e <= p -> Region_Overlap z r = false /\ Region_Overlap r z = false) /\
  (Region_Overlap z r = true <-> s < p < e).
Proof.
  cbv zeta. unfold Region_Overlap. simpl.
  repeat split; intros; try lia;
    repeat match goal with
           | H : _ /\ _ |- _ => destruct H
           | H : _ \/ _ |- _ => destruct H
           end;
    rewrite ?orb_true_iff, ?orb_false_iff, ?andb_true_iff, ?andb_false_iff in *;
    try lia.
Qed.

Lemma C6_Overlap_zero_length_witness :
  Region_Overlap (mkRegion 5 5) (mkRegion 4 6) = true /\
  Region_Overlap (mkRegion 4 6) (mkRegion 5 5) = true.
Proof.
  apply (proj1 (C6_Overlap_zero_length 5 4 6)). lia.
Defined.

(** ** Regions.Union *)

(** The loop of [Regions.Union] ends within the fuel that [Regions_Union]
    gives it: the default of [Regions_Union] is never taken. *)
Lemma Union_loop_total (fuel : nat) :
  forall (leftSet rightSet : Regions) (next : option Region) (result : Regions),
    (2 * (length leftSet + length rightSet)
     + (match next with Some _ => 1 | None => 0 end) < fuel)%nat ->
    exists res, Union_loop fuel leftSet rightSet next result = Some res.
Proof.
  induction fuel as [|fuel IH]; intros leftSet rightSet next result Hlt; [lia|].
  destruct leftSet as [|l ls], rightSet as [|r rs]; simpl.
  - eauto.
  - destruct next as [n|]; [|eauto].
    destruct (Region_Overlap n r); [apply IH; simpl in *; lia|].
    destruct (Region_Equal n r); apply IH; simpl in *; lia.
  - destruct next as [n|]; [|eauto].
    destruct (Region_Overlap n l); [apply IH; simpl in *; lia|].
    destruct (Region_Equal n l); apply IH; simpl in *; lia.
  - destruct next as [n|].
    + destruct (Region_Overlap n l); [apply IH; simpl in *; lia|].
      destruct (Region_Equal n l); [apply IH; simpl in *; lia|].
      destruct (Region_Overlap n r); [apply IH; simpl in *; lia|].
      destruct (Region_Equal n r); apply IH; simpl in *; lia.
    + destruct (Start l <? Start r); apply IH; simpl in *; lia.
Qed.

Lemma Regions_Union_total (rs otherRegions : Regions) :
  exists res,
    Union_loop (Union_fuel rs otherRegions) rs otherRegions None [] = Some res.
Proof. apply Union_loop_total. unfold Union_fuel. lia. Qed.

(** C7 (the code departs from the claim): the claim is that the union of
    two sorted, non-overlapping region sets does not depend on the order of
    the operands, which the package's tests check by taking every union both
    ways.  For the seam [A = [[5,5)]] and the region [B = [[5,6)]] that
    starts on it, [A.Union(B)] absorbs the seam and [B.Union(A)] keeps it. *)
Theorem C7_Union_order_matters_on_seam :
  let A := [mkRegion 5 5] in
  let B := [mkRegion 5 6] in
  Regions_Check A = true /\ Regions_Check B = true /\
  Regions_Union A B = [mkRegion 5 6] /\
  Regions_Union B A = [mkRegion 5 5; mkRegion 5 6].
Proof. cbv zeta. split; [reflexivity|]. split; [reflexivity|]. split; reflexivity. Qed.

(* ------------------------------------------------------------------ *)
(** ** The package's own match tests, on the embedding *)
(* ------------------------------------------------------------------ *)

Example TestMatch_simpleFieldExtraction :
  extractValues (pathNode [fieldNode "some"; fieldNode "path"]) testRecord
    = Ok [VString "hello there"] /\
  extractValues (pathNode [fieldNode "some"; fieldNode "nonExistantPath"]) testRecord
    = Ok [].
Proof. split; vm_compute; reflexivity. Qed.

Example TestMatch_simpleArrayExtraction :
  extractValues (pathNode [fieldNode "array"; indexNode true (-1)]) testRecord
    = Ok [VInt 40] /\
  extractValues (pathNode [fieldNode "array"; indexNode true 1]) testRecord
    = Ok [VInt 10] /\
  extractValues (pathNode [fieldNode "array"; sliceNode 1 2 0 true true false]) testRecord
    = Ok [VInt 10] /\
  extractValues (pathNode [fieldNode "array"; sliceNode 3 0 0 true false false]) testRecord
    = Ok [VInt 30; VInt 40] /\
  extractValues (pathNode [fieldNode "array"; sliceNode 0 3 0 false true false]) testRecord
    = Ok [VInt 0; VInt 10; VInt 20].
Proof. repeat split; vm_compute; reflexivity. Qed.

Example TestMatch_wildcard_recursive_union :
  extractValues (pathNode [fieldNode "some"; wildcardNode]) testRecord
    = Ok [VString "hello there"; VString "hardyharhar!"] /\
  extractValues (pathNode [recursiveNode; existingFieldNode "name"]) testRecord
    = Ok [VString "Blinky"; VString "Pinky"; VString "Inky"; VString "Clyde";
          VString "root"] /\
  extractValues (pathNode [fieldNode "ghosts"; recursiveNode;
                           unionNode [fieldNode "name"; fieldNode "color"]]) testRecord
    = Ok [VString "red"; VString "Blinky"; VString "pink"; VString "Pinky";
          VString "cyan"; VString "Inky"; VString "orange"; VString "Clyde"].
Proof. repeat split; vm_compute; reflexivity. Qed.

(** The splice of the specification: in [[0..9]] the regions [[1,4)] and
    [[8,9)] are replaced by one and by four items. *)
Example MutateRegions_splice :
  let doc := VSlice (map VInt [0; 1; 2; 3; 4; 5; 6; 7; 8; 9]) in
  let e := mkMatchSet rootVar (RArray rootVar [mkRegion 1 4; mkRegion 8 9]) false in
  Expression_Match no_compare 10
    (unionNode [sliceNode 1 4 0 true true false; indexNode true 8]) doc = Ok (e, []) /\
  fst (fst (MatchSet_MutateRegions e
              (fun _ _ => Ok [[VString "foo"];
                              [VString "bar"; VString "baz"; VString "pow"; VString "kapling"]])
              doc))
    = Ok (VSlice [VInt 0; VString "foo"; VInt 4; VInt 5; VInt 6; VInt 7;
                  VString "bar"; VString "baz"; VString "pow"; VString "kapling"; VInt 9]).
Proof. split; vm_compute; reflexivity. Qed.

(* ------------------------------------------------------------------ *)
(** ** MapRef.Values *)
(* ------------------------------------------------------------------ *)

Lemma selected_value_spec (m : gmap string value) (k : string) (v : value) :
  selected_value m k = Some v <-> m !! k = Some v /\ v <> VNil.
Proof.
  unfold selected_value. destruct (m !! k) as [[]|]; split; intros; destruct_and?; simplify_eq; done.
Qed.

Lemma MapRef_Values_fold (m : gmap string value) (keys : list string) (acc : list value) :
  fold_left (fun (result : list value) k =>
               match map_index m k with
               | VNil => result
               | val => result ++ [val]
               end) keys acc
  = acc ++ omap (selected_value m) keys.
Proof.
  revert acc. induction keys as [|k keys IH]; intros acc; simpl.
  - now rewrite app_nil_r.
  - rewrite IH. unfold map_index, selected_value.
    destruct (m !! k) as [x|]; simpl; [|reflexivity].
    destruct x; simpl; try reflexivity; now rewrite <- app_assoc.
Qed.

Lemma omap_length_le {A B : Type} (f : A -> option B) (l : list A) :
  (length (omap f l) <= length l)%nat.
Proof.
  induction l as [|x l IH]; csimpl; [lia|].
  destruct (f x); csimpl; lia.
Qed.

(** C10: for a Map reference whose variable holds the map [m], [Values]
    returns, in the order of the selected keys, the values of the keys that
    are present in [m] with a non-nil value, and nothing for a key that is
    absent or whose value is nil: it may return fewer values than there are
    selected keys, never more. *)
Theorem C10_MapRef_Values (data : value) (variable : VarRef) (keys : list string)
        (m : gmap string value) :
  VarRef_CanonicalValue data variable = Ok (VMap m) ->
  exists vs : list value,
    Ref_Values data (RMap variable keys) = Ok vs /\
    vs = omap (selected_value m) keys /\
    (forall v, v ∈ vs <-> exists k, k ∈ keys /\ m !! k = Some v /\ v <> VNil) /\
    (length vs <= length keys)%nat.
Proof.
  intros Hcv. exists (omap (selected_value m) keys).
  split; [|split; [reflexivity|split]].
  - simpl. rewrite Hcv. simpl. now rewrite MapRef_Values_fold.
  - intros v. rewrite list_elem_of_omap. split.
    + intros (k & Hk & Hv). exists k. split; [exact Hk|].
      now apply selected_value_spec.
    + intros (k & Hk & Hv). exists k. split; [exact Hk|].
      now apply selected_value_spec.
  - apply omap_length_le.
Qed.

Lemma C10_MapRef_Values_witness :
  exists vs : list value,
    Ref_Values doc_a1_bnull (RMap rootVar ["a"; "b"; "c"]) = Ok vs /\
    vs = omap (selected_value (<["a" := VInt 1]> (<["b" := VNil]> ∅))) ["a"; "b"; "c"] /\
    (forall v, v ∈ vs <->
       exists k, k ∈ ["a"; "b"; "c"] /\
                 (<["a" := VInt 1]> (<["b" := VNil]> ∅) : gmap string value) !! k = Some v /\
                 v <> VNil) /\
    (length vs <= length ["a"; "b"; "c"])%nat.
Proof.
  apply (C10_MapRef_Values doc_a1_bnull rootVar ["a"; "b"; "c"]
                           (<["a" := VInt 1]> (<["b" := VNil]> ∅))).
  reflexivity.
Defined.

(** On that document the three selected keys yield one value. *)
Example MapRef_Values_fewer :
  Ref_Values doc_a1_bnull (RMap rootVar ["a"; "b"; "c"]) = Ok [VInt 1].
Proof. vm_compute. reflexivity. Qed.

(* ------------------------------------------------------------------ *)
(** ** Delete on references that do not support it *)
(* ------------------------------------------------------------------ *)

(** C9, the claim as stated fails: [Delete] on a Literal reference panics,
    and [Delete] on a Latent reference returns nil and leaves the document as
    it was. *)
Lemma C9_Delete_Literal_panics_Latent_succeeds :
  Ref_Delete 0 (RLiteral (VInt 7)) doc_a1_bnull
    = (Panic "Attempt to delete LiteralRef", RLiteral (VInt 7), doc_a1_bnull) /\
  Ref_Delete 0 (RLatent 0 (RMap rootVar ["c"])) doc_a1_bnull
    = (Ok tt, RLatent 0 (RMap rootVar ["c"]), doc_a1_bnull).
Proof. split; reflexivity. Qed.

(** C9, amended: [Delete] on a Var reference returns the error "Delete not
    supported for VarRefs"; on a Literal reference it panics; on a Latent
    reference it is a no-op that returns nil.  None of the three changes the
    document. *)
Theorem C9_Delete_unsupported (fuel : nat) (data : value)
        (v : VarRef) (lit : value) (addr : nat) (rootRef : Ref) :
  Ref_Delete fuel (RVar v) data
    = (Err "Delete not supported for VarRefs", RVar v, data) /\
  Ref_Delete fuel (RLiteral lit) data
    = (Panic "Attempt to delete LiteralRef", RLiteral lit, data) /\
  Ref_Delete fuel (RLatent addr rootRef) data
    = (Ok tt, RLatent addr rootRef, data).
Proof. repeat split. Qed.

(* ------------------------------------------------------------------ *)
(** ** MatchSet: one mutation *)
(* ------------------------------------------------------------------ *)

Lemma Match_a (template_compare : Token -> value -> value -> template_result) :
  Expression_Match template_compare 1 (fieldNode "a") doc_a = Ok (match_a, []).
Proof. vm_compute. reflexivity. Qed.

(** A mutating method that returns without error leaves the MatchSet
    marked as mutated. *)
Lemma MatchSet_done_mutated (e e' : MatchSet) (data data' : value) (o : outcome value) :
  MatchSet_done e data = (o, e', data') -> mutated e' = true.
Proof. unfold MatchSet_done. intros H. inversion H. reflexivity. Qed.

Lemma Set_ok_mutated h e v data doc e' data' :
  MatchSet_Set h e v data = (Ok doc, e', data') -> mutated e' = true.
Proof.
  unfold MatchSet_Set. destruct (mutated e); [discriminate|].
  destruct (Ref_Set h (ref e) v data) as [[?|?|?|] d]; try discriminate.
  apply MatchSet_done_mutated.
Qed.

Lemma Delete_ok_mutated fuel e data doc e' data' :
  MatchSet_Delete fuel e data = (Ok doc, e', data') -> mutated e' = true.
Proof.
  unfold MatchSet_Delete. destruct (mutated e); [discriminate|].
  destruct (Ref_Delete fuel (ref e) data) as [[[?|?|?|] r'] d]; try discriminate.
  apply MatchSet_done_mutated.
Qed.

Lemma Mutate_ok_mutated h e f data doc e' data' :
  MatchSet_Mutate h e f data = (Ok doc, e', data') -> mutated e' = true.
Proof.
  unfold MatchSet_Mutate. destruct (mutated e); [discriminate|].
  destruct (Ref_Mutate h (ref e) f data) as [[?|?|?|] d]; try discriminate.
  apply MatchSet_done_mutated.
Qed.

Lemma MutateRegions_ok_mutated e g data doc e' data' :
  MatchSet_MutateRegions e g data = (Ok doc, e', data') -> mutated e' = true.
Proof.
  unfold MatchSet_MutateRegions. destruct (mutated e); [discriminate|].
  destruct (MatchSet_arrayRefs (ref e)) as [arrayRefs|?|?|]; try discriminate.
  destruct (MutateRegions_loop arrayRefs g data) as [[[?|?|?|] a'] d]; try discriminate.
  apply MatchSet_done_mutated.
Qed.

(** What every method does on a MatchSet that is marked as mutated. *)
Lemma MatchSet_gate (e : MatchSet) :
  mutated e = true ->
  forall (h : Heap) (d : value),
    (forall v, MatchSet_Set h e v d = (Err already_mutated, e, d)) /\
    (forall fuel, MatchSet_Delete fuel e d = (Err already_mutated, e, d)) /\
    (forall f, MatchSet_Mutate h e f d = (Err already_mutated, e, d)) /\
    (forall g, MatchSet_MutateRegions e g d = (Err already_mutated, e, d)) /\
    MatchSet_Values e d
      = Panic "Values are not availible after extract has been mutated".
Proof.
  intros Hm h d.
  unfold MatchSet_Set, MatchSet_Delete, MatchSet_Mutate, MatchSet_MutateRegions,
    MatchSet_Values.
  rewrite Hm. repeat split.
Qed.

(** C1, the claim as stated fails: after a [Set] that succeeded, [Values]
    does not return an error, it panics. *)
Lemma C1_Values_after_Set_panics :
  MatchSet_Set [] match_a (VInt 0) doc_a
    = (Ok (VMap (<["a" := VInt 0]> ∅)), set_mutated match_a, VMap (<["a" := VInt 0]> ∅)) /\
  MatchSet_Values (set_mutated match_a) (VMap (<["a" := VInt 0]> ∅))
    = Panic "Values are not availible after extract has been mutated".
Proof. split; vm_compute; reflexivity. Qed.

(** C1, amended: after one mutating method ([Set], [Delete], [Mutate] or
    [MutateRegions]) has returned without error, every further [Set],
    [Delete], [Mutate] and [MutateRegions] on that MatchSet returns the error
    "This extract has allready mutated once" and changes nothing, and
    [Values] panics. *)
Theorem C1_one_mutation (h : Heap) (e e' : MatchSet) (data data' doc : value) :
  (exists v, MatchSet_Set h e v data = (Ok doc, e', data')) \/
  (exists fuel, MatchSet_Delete fuel e data = (Ok doc, e', data')) \/
  (exists f, MatchSet_Mutate h e f data = (Ok doc, e', data')) \/
  (exists g, MatchSet_MutateRegions e g data = (Ok doc, e', data')) ->
  forall (h' : Heap) (d : value),
    (forall v, MatchSet_Set h' e' v d = (Err already_mutated, e', d)) /\
    (forall fuel, MatchSet_Delete fuel e' d = (Err already_mutated, e', d)) /\
    (forall f, MatchSet_Mutate h' e' f d = (Err already_mutated, e', d)) /\
    (forall g, MatchSet_MutateRegions e' g d = (Err already_mutated, e', d)) /\
    MatchSet_Values e' d
      = Panic "Values are not availible after extract has been mutated".
Proof.
  intros H. apply MatchSet_gate.
  destruct H as [[v H]|[[fuel H]|[[f H]|[g H]]]].
  - eapply Set_ok_mutated; exact H.
  - eapply Delete_ok_mutated; exact H.
  - eapply Mutate_ok_mutated; exact H.
  - eapply MutateRegions_ok_mutated; exact H.
Qed.

Lemma C1_one_mutation_witness :
  (forall v, MatchSet_Set [] (set_mutated match_a) v doc_a
             = (Err already_mutated, set_mutated match_a, doc_a)) /\
  (forall fuel, MatchSet_Delete fuel (set_mutated match_a) doc_a
                = (Err already_mutated, set_mutated match_a, doc_a)) /\
  (forall f, MatchSet_Mutate [] (set_mutated match_a) f doc_a
             = (Err already_mutated, set_mutated match_a, doc_a)) /\
  (forall g, MatchSet_MutateRegions (set_mutated match_a) g doc_a
             = (Err already_mutated, set_mutated match_a, doc_a)) /\
  MatchSet_Values (set_mutated match_a) doc_a
    = Panic "Values are not availible after extract has been mutated".
Proof.
  apply (C1_one_mutation [] match_a (set_mutated match_a) doc_a
           (VMap (<["a" := VInt 0]> ∅)) (VMap (<["a" := VInt 0]> ∅))).
  left. exists (VInt 0). vm_compute. reflexivity.
Defined.

(* ------------------------------------------------------------------ *)
(** ** MatchSet.MutateRegions on references that are not arrays *)
(* ------------------------------------------------------------------ *)

(** In a union, a member that is not an array reference makes
    [MutateRegions] return an error that names the member's type, before any
    mutator runs and without a change to the MatchSet or the document. *)
Lemma collect_arrayRefs_non_array (refs : list Ref) :
  (exists r, r ∈ refs /\ forall variable selection, r <> RArray variable selection) ->
  exists msg, collect_arrayRefs refs = Err msg.
Proof.
  induction refs as [|x refs IH]; intros (r & Hin & Hr).
  - inversion Hin.
  - simpl. destruct x; eauto.
    apply elem_of_cons in Hin as [->|Hin]; [now exfalso; eapply Hr|].
    destruct IH as [msg ->]; [eauto|]. simpl. eauto.
Qed.

Lemma MutateRegions_union_non_array (e : MatchSet) g data (refs : list Ref) :
  mutated e = false ->
  ref e = RUnion refs ->
  (exists r, r ∈ refs /\ forall variable selection, r <> RArray variable selection) ->
  exists msg, MatchSet_MutateRegions e g data = (Err msg, e, data).
Proof.
  intros Hm Hr Hex. unfold MatchSet_MutateRegions. rewrite Hm, Hr. simpl.
  destruct (collect_arrayRefs_non_array refs Hex) as [msg ->]. eauto.
Qed.

(** C2 (the code departs from the claim): the claim is that
    [MutateRegions] returns an error whenever the selection contains a
    reference that is not an Array reference, also when the selection is a
    single reference.  The selection of the expression [a] is the single Map
    reference [$.a]; the type switch of [MutateRegions] has no case for it,
    so for every mutator the call returns the document, unchanged, with a nil
    error, and marks the MatchSet as mutated. *)
Theorem C2_MutateRegions_single_MapRef
        (template_compare : Token -> value -> value -> template_result)
        (g : MutateRegionsFunc) :
  Expression_Match template_compare 1 (fieldNode "a") doc_a = Ok (match_a, []) /\
  ref match_a = RMap rootVar ["a"] /\
  MatchSet_MutateRegions match_a g doc_a = (Ok doc_a, set_mutated match_a, doc_a).
Proof. split; [apply Match_a|]. split; reflexivity. Qed.

(* ------------------------------------------------------------------ *)
(** ** processIndex *)
(* ------------------------------------------------------------------ *)

(** The union of the empty reference with one array reference is that
    array reference. *)
Lemma Union_empty_array (variable : VarRef) (selection : Regions) :
  Ref_Union NewEmptyRef [RArray variable selection] = Ok (RArray variable selection).
Proof. reflexivity. Qed.

Lemma NewArrayRef_slice (data : value) (variable : VarRef) (items : list value)
      (selection : Regions) :
  VarRef_CanonicalValue data variable = Ok (VSlice items) ->
  NewArrayRef data variable selection = Ok (RArray variable selection).
Proof. intros H. unfold NewArrayRef. now rewrite H. Qed.

Lemma CanonicalValue_getter (data : value) (variable : VarRef) (items : list value) :
  VarRef_CanonicalValue data variable = Ok (VSlice items) ->
  VarRef_getter data variable = Ok (VSlice items).
Proof.
  unfold VarRef_CanonicalValue. destruct (VarRef_getter data variable) as [v| | |];
    simpl; try discriminate.
  destruct v; simpl; intros H; inversion H; reflexivity.
Qed.

(** C3: an index node with value [i], evaluated against a Var that
    canonicalizes to an array of length [n].  If [n = 0] and [i] is 0 or -1,
    the result selects exactly the zero-length region [[0,0)] of that array.
    Otherwise a negative [i] is replaced by [i + n]; an index outside
    [[0, n)] selects nothing ([NewEmptyRef]); an index inside selects exactly
    the one-element region [[i, i+1)]. *)
Theorem C3_processIndex (data : value) (varRef : VarRef) (items : list value) (i : Z) :
  VarRef_CanonicalValue data varRef = Ok (VSlice items) ->
  is_int i ->
  is_int (len items) ->
  let n := len items in
  let index := if i <? 0 then i + n else i in
  processIndex data (RVar varRef) i =
    if (n =? 0) && ((i =? 0) || (i =? -1)) then Ok (RArray varRef [mkRegion 0 0])
    else if (0 <=? index) && (index <? n)
         then Ok (RArray varRef [mkRegion index (index + 1)])
         else Ok NewEmptyRef.
Proof.
  intros Hcv Hi Hn n index. subst n index.
  pose proof (CanonicalValue_getter _ _ _ Hcv) as Hget.
  unfold processIndex, VarRef_IsSlice, VarRef_TypeKind. simpl.
  rewrite Hget. simpl. rewrite Hcv. simpl.
  assert (Hlen : 0 <= len items) by (unfold len; lia).
  destruct ((len items =? 0) && ((i =? 0) || (i =? -1))) eqn:Hseam.
  - rewrite (NewArrayRef_slice _ _ _ _ Hcv). reflexivity.
  - unfold int_add.
    assert (Hidx : (if i <? 0 then wrap (i + len items) else i)
                   = (if i <? 0 then i + len items else i)).
    { destruct (i <? 0) eqn:E; [|reflexivity].
      apply wrap_id. unfold is_int, int_min, int_max in *. lia. }
    rewrite Hidx. clear Hidx.
    set (index := if i <? 0 then i + len items else i).
    replace (index >=? 0) with (0 <=? index) by (rewrite Z.geb_leb; reflexivity).
    destruct ((0 <=? index) && (index <? len items)) eqn:Hin; [|reflexivity].
    apply andb_true_iff in Hin as [H0 H1].
    rewrite wrap_id by (unfold is_int, int_min, int_max in *; lia).
    rewrite (NewArrayRef_slice _ _ _ _ Hcv). reflexivity.
Qed.

Lemma C3_processIndex_witness :
  processIndex doc_array (RVar rootVar) (-1) = Ok (RArray rootVar [mkRegion 4 5]).
Proof.
  apply (C3_processIndex doc_array rootVar
           [VInt 0; VInt 10; VInt 20; VInt 30; VInt 40] (-1)).
  - reflexivity.
  - unfold is_int, int_min, int_max. lia.
  - unfold is_int, int_min, int_max, len. cbn [length]. lia.
Defined.

(** The seam of an empty array, and an index that is out of range. *)
Example processIndex_seam :
  processIndex (VSlice []) (RVar rootVar) (-1) = Ok (RArray rootVar [mkRegion 0 0]) /\
  processIndex (VSlice []) (RVar rootVar) 0 = Ok (RArray rootVar [mkRegion 0 0]) /\
  processIndex doc_array (RVar rootVar) 5 = Ok NewEmptyRef /\
  processIndex doc_array (RVar rootVar) (-6) = Ok NewEmptyRef.
Proof. repeat split; vm_compute; reflexivity. Qed.

(* ------------------------------------------------------------------ *)
(** ** processSlice with a negative step *)
(* ------------------------------------------------------------------ *)

(** With a negative step the loop [for i := start; i < end; i += step]
    moves away from [end]: while it stays in the range of [int] it does not
    end. *)
Lemma slice_indicies_runaway (fuel : nat) :
  forall (i end_ step : Z) (indicies : list Z),
    step < 0 -> i < end_ -> is_int i ->
    int_min <= i + Z.of_nat fuel * step ->
    slice_indicies fuel i end_ step indicies = OutOfFuel.
Proof.
  induction fuel as [|fuel IH]; intros i end_ step indicies Hstep Hlt Hi Hmin.
  - simpl. destruct (i <? end_) eqn:E; [reflexivity|lia].
  - cbn [slice_indicies]. destruct (i <? end_) eqn:E; [|lia].
    assert (Hw : int_add i step = i + step).
    { apply wrap_id. unfold is_int, int_min, int_max in *. nia. }
    rewrite Hw. apply IH; unfold is_int, int_min, int_max in *; nia.
Qed.

(** C4 (the code departs from the claim): the claim is that a slice with a
    negative step selects the index set of its positive counterpart.  On the
    array [[0,10,20,30,40]] the slice [[1:4:1]] selects the indices 1, 2, 3;
    for [[1:4:-1]] [processSlice] swaps start and end, asks [make] for the
    capacity [1 - 4] and panics. *)
Theorem C4_processSlice_negative_step (fuel : nat) :
  processSlice fuel doc_array (RVar rootVar) 1 4 1 true true true
    = Ok (RArray rootVar [mkRegion 1 4]) /\
  Regions_ToIndicies [mkRegion 1 4] = [1; 2; 3] /\
  processSlice fuel doc_array (RVar rootVar) 1 4 (-1) true true true
    = Panic panic_makeslice.
Proof. split; [reflexivity|]. split; reflexivity. Qed.

(** The same defect on [[4:1:-1]]: after the swap the loop starts at 1
    with the bound 4 and steps away from it; it has not ended after [2^62]
    iterations. *)
Lemma processSlice_negative_step_runaway (fuel : nat) :
  Z.of_nat fuel <= 2 ^ 62 ->
  processSlice fuel doc_array (RVar rootVar) 4 1 (-1) true true true = OutOfFuel.
Proof.
  intros Hfuel.
  unfold processSlice. simpl.
  unfold processSlice_var. simpl.
  change (int_sub 4 1) with 3. simpl.
  rewrite slice_indicies_runaway; [reflexivity|lia|lia| |].
  - unfold is_int, int_min, int_max. lia.
  - unfold int_min. lia.
Qed.

(* ------------------------------------------------------------------ *)
(** ** Latent references under merge, sort and union *)
(* ------------------------------------------------------------------ *)

(** Induction on references, through the members of a union and the root
    of a latent reference. *)
Section Ref_induction.
Variable P : Ref -> Prop.
Hypothesis HNil : P RNil.
Hypothesis HVar : forall v, P (RVar v).
Hypothesis HArray : forall variable selection, P (RArray variable selection).
Hypothesis HMap : forall variable keys, P (RMap variable keys).
Hypothesis HUnion : forall refs, Forall P refs -> P (RUnion refs).
Hypothesis HLiteral : forall v, P (RLiteral v).
Hypothesis HLatent : forall addr rootRef, P rootRef -> P (RLatent addr rootRef).

Fixpoint Ref_nested_ind (r : Ref) : P r :=
  match r with
  | RNil => HNil
  | RVar v => HVar v
  | RArray variable selection => HArray variable selection
  | RMap variable keys => HMap variable keys
  | RUnion refs =>
      HUnion refs
        ((fix go (l : list Ref) : Forall P l :=
            match l with
            | [] => @List.Forall_nil Ref P
            | x :: l' => @List.Forall_cons Ref P x l' (Ref_nested_ind x) (go l')
            end) refs)
  | RLiteral v => HLiteral v
  | RLatent addr rootRef => HLatent addr rootRef (Ref_nested_ind rootRef)
  end.
End Ref_induction.

Lemma latent_in_union (a : nat) (refs : list Ref) :
  latent_in a (RUnion refs) <-> exists x, x ∈ refs /\ latent_in a x.
Proof.
  simpl. induction refs as [|y refs IH]; simpl.
  - split; [tauto|]. intros (x & Hx & _). inversion Hx.
  - rewrite IH. split.
    + intros [H|(x & Hx & H)]; [exists y|exists x]; split; auto; constructor; auto.
    + intros (x & Hx & H). apply elem_of_cons in Hx as [->|Hx]; [left|right]; eauto.
Qed.

Lemma returns_bind {A B : Type} (m : outcome A) (f : A -> outcome B)
      (P : A -> Prop) (Q : B -> Prop) :
  returns m P -> (forall a, P a -> returns (f a) Q) -> returns (a ← m; f a) Q.
Proof.
  intros Hm Hf b. unfold mbind, outcome_bind, obind.
  destruct m as [a| | |]; try discriminate. intros H. eapply Hf; eauto.
Qed.

Lemma returns_Ok {A : Type} (a : A) (Q : A -> Prop) : Q a -> returns (Ok a) Q.
Proof. intros H b E. inversion E. subst. exact H. Qed.

Lemma returns_any {A : Type} (o : outcome A) : returns o (fun _ => True).
Proof. intros a _. exact I. Qed.

Lemma returns_weaken {A : Type} (o : outcome A) (P Q : A -> Prop) :
  returns o P -> (forall a, P a -> Q a) -> returns o Q.
Proof. intros H HPQ a E. auto. Qed.

Lemma returns_foldM {A S : Type} (f : S -> A -> outcome S) (Inv : S -> Prop)
      (l : list A) (s : S) :
  Inv s ->
  (forall s x, x ∈ l -> Inv s -> returns (f s x) Inv) ->
  returns (foldM f l s) Inv.
Proof.
  revert s. induction l as [|x l IH]; intros s Hs Hstep; simpl.
  - now apply returns_Ok.
  - eapply returns_bind.
    + apply Hstep; [constructor|exact Hs].
    + intros s' Hs'. apply IH; [exact Hs'|].
      intros s0 y Hy. apply Hstep. now constructor.
Qed.

(** ** Latent references in merges and unions *)

Lemma latent_in_cons (a : nat) (x : Ref) (l : list Ref) :
  latent_in a (RUnion (x :: l)) <-> latent_in a x \/ latent_in a (RUnion l).
Proof. reflexivity. Qed.

Lemma latent_in_app (a : nat) (l1 l2 : list Ref) :
  latent_in a (RUnion (l1 ++ l2)) <-> latent_in a (RUnion l1) \/ latent_in a (RUnion l2).
Proof.
  rewrite !latent_in_union. split.
  - intros (x & Hx & Ha). apply elem_of_app in Hx as [Hx|Hx]; [left|right]; eauto.
  - intros [(x & Hx & Ha)|(x & Hx & Ha)]; exists x; rewrite elem_of_app; auto.
Qed.

Lemma UnionRef_Merge_loop_latent (merge : Ref -> outcome (Ref * bool)) (a : nat)
      (refs : list Ref) :
  forall (rest before : list Ref) (m : Ref),
    Forall (fun old => forall m', merge old = Ok (m', true) ->
                                  latent_in a m' -> latent_in a old) rest ->
    UnionRef_Merge_loop merge refs before rest = Ok (m, true) ->
    latent_in a m -> latent_in a (RUnion (before ++ rest)).
Proof.
  induction rest as [|old rest IH]; intros before m HF Hloop Hm; simpl in Hloop.
  - discriminate.
  - apply Forall_cons in HF as [Hold HF].
    unfold mbind, outcome_bind, obind in Hloop.
    destruct (merge old) as [[m' ok]| | |] eqn:E; try discriminate.
    destruct ok.
    + inversion Hloop; subst m. apply latent_in_app in Hm as [Hm|Hm].
      * apply latent_in_app. now left.
      * apply latent_in_cons in Hm as [Hm|Hm]; apply latent_in_app; right;
          apply latent_in_cons; [left; exact (Hold _ eq_refl Hm)|now right].
    + specialize (IH (before ++ [old]) m HF Hloop Hm).
      now rewrite <- app_assoc in IH.
Qed.

(** A merge never brings in a latent reference: the latent references of
    the merged reference are among those of the receiver. *)
Lemma Ref_Merge_latent (a : nat) (r : Ref) :
  forall (ref m : Ref),
    Ref_Merge r ref = Ok (m, true) -> latent_in a m -> latent_in a r.
Proof.
  induction r as [|v|variable selection|variable keys|refs IH|v|addr rootRef _]
    using Ref_nested_ind; intros ref m Hmerge Hm; simpl in Hmerge.
  - discriminate.
  - destruct ref; try discriminate.
    destruct (String.eqb _ _); inversion Hmerge; subst; contradiction.
  - destruct ref; try discriminate.
    destruct (String.eqb _ _); inversion Hmerge; subst; contradiction.
  - destruct ref; try discriminate.
    destruct (String.eqb _ _); inversion Hmerge; subst; contradiction.
  - assert (Hloop : UnionRef_Merge_loop (fun old => Ref_Merge old ref) refs [] refs
                    = Ok (m, true)) by (destruct ref; try discriminate; exact Hmerge).
    eapply (UnionRef_Merge_loop_latent _ a refs refs [] m); [|exact Hloop|exact Hm].
    eapply Forall_impl; [exact IH|]. intros old Hold m' Hm'. now apply (Hold ref).
  - destruct ref; try discriminate.
    unfold mbind, outcome_bind, obind in Hmerge.
    destruct (iface_eq v v0) as [[]| | |]; inversion Hmerge; subst; contradiction.
  - destruct ref; inversion Hmerge; subst; contradiction.
Qed.

(** Sorting the members of a union keeps the members. *)
Lemma bubble_elem (x : Ref) :
  forall (rev_prefix l' : list Ref),
    bubble x rev_prefix = Ok l' -> forall y, y ∈ l' -> y = x \/ y ∈ rev_prefix.
Proof.
  induction rev_prefix as [|p rest IH]; intros l' Hb y Hy; simpl in Hb.
  - inversion Hb; subst. apply list_elem_of_singleton in Hy. now left.
  - unfold mbind, outcome_bind, obind in Hb.
    destruct (UnionRef_Less x p) as [[]| | |]; try discriminate.
    + destruct (bubble x rest) as [r| | |] eqn:E; try discriminate.
      inversion Hb; subst. apply elem_of_cons in Hy as [->|Hy].
      * right. constructor.
      * destruct (IH r eq_refl y Hy) as [->|H]; [now left|right; now constructor].
    + inversion Hb; subst. apply elem_of_cons in Hy as [->|Hy]; [now left|now right].
Qed.

Lemma sort_refs_elem (refs sorted : list Ref) :
  sort_refs refs = Ok sorted -> forall y, y ∈ sorted -> y ∈ refs.
Proof.
  unfold sort_refs. intros Hs y Hy.
  assert (Hfold : returns (foldM (fun rev_prefix x => bubble x rev_prefix) refs [])
                          (fun l => forall y, y ∈ l -> y ∈ refs)).
  { apply (returns_foldM _ (fun l => forall y, y ∈ l -> y ∈ refs)).
    - intros z Hz. inversion Hz.
    - intros s x Hx Hs' l' Hl' z Hz.
      destruct (bubble_elem x s l' Hl' z Hz) as [->|H]; auto. }
  unfold mbind, outcome_bind, obind in Hs.
  destruct (foldM _ refs []) as [l| | |] eqn:E; try discriminate.
  inversion Hs; subst. apply list_elem_of_In, in_rev, list_elem_of_In in Hy.
  exact (Hfold l eq_refl y Hy).
Qed.

Lemma sort_refs_latent (a : nat) (refs sorted : list Ref) :
  sort_refs refs = Ok sorted -> latent_in a (RUnion sorted) -> latent_in a (RUnion refs).
Proof.
  intros Hs. rewrite !latent_in_union. intros (x & Hx & Ha).
  exists x. split; [|exact Ha]. eapply sort_refs_elem; eauto.
Qed.

Lemma latent_in_member (a : nat) (x : Ref) (l : list Ref) :
  x ∈ l -> latent_in a x -> latent_in a (RUnion l).
Proof. intros Hx Ha. apply latent_in_union. eauto. Qed.

(** A union never brings in a latent reference: the latent references of
    the result are among those of the receiver and of the arguments. *)
Lemma UnionRef_Union_fuel_latent (a : nat) (fuel : nat) :
  forall (r refs : list Ref) (out : Ref),
    UnionRef_Union_fuel fuel r refs = Ok out ->
    latent_in a out -> latent_in a (RUnion r) \/ latent_in a (RUnion refs).
Proof.
  induction fuel as [|fuel IH]; intros r refs out Hu Hout; [discriminate|].
  cbn [UnionRef_Union_fuel] in Hu.
  set (Inv := fun result : Ref =>
                latent_in a result -> latent_in a (RUnion r) \/ latent_in a (RUnion refs)).
  match type of Hu with
  | (mbind _ (foldM ?f refs (RUnion r))) = _ =>
      assert (Hfold : returns (foldM f refs (RUnion r)) Inv)
  end.
  { apply returns_foldM.
    - intros H. now left.
    - intros result ref Hin HInv.
      assert (Hdefault :
                returns ('(merged, didMerge) ← Ref_Merge result ref;
                         if (didMerge : bool) then Ok merged
                         else match result with
                              | RUnion rrefs => Ok (RUnion (rrefs ++ [ref]))
                              | _ => Panic panic_conversion
                              end) Inv).
      { intros res Hres. unfold mbind, outcome_bind, obind in Hres.
        destruct (Ref_Merge result ref) as [[merged didMerge]| | |] eqn:E;
          try discriminate.
        destruct didMerge.
        - inversion Hres; subst res. intros Hm. apply HInv.
          eapply Ref_Merge_latent; eauto.
        - destruct result; try discriminate. inversion Hres; subst res.
          intros Hm. apply latent_in_app in Hm as [Hm|Hm]; [now apply HInv|].
          right. eapply latent_in_member; [exact Hin|].
          apply latent_in_cons in Hm as [Hm|[]]. exact Hm. }
      destruct ref as [|v|variable selection|variable keys|trefs|v|addr rootRef];
        try exact Hdefault.
      intros res Hres Hm.
      assert (Htrefs : latent_in a (RUnion trefs) -> latent_in a (RUnion refs))
        by (intros H; eapply latent_in_member; [exact Hin|exact H]).
      destruct result as [|v|variable selection|variable keys|rrefs|v|addr rootRef];
        try discriminate;
        destruct (IH _ _ _ Hres Hm) as [H|H]; auto;
        try (apply latent_in_app in H as [H|H]; [auto|];
             apply latent_in_cons in H as [H|[]]; auto);
        try contradiction. }
  unfold mbind, outcome_bind, obind in Hu.
  destruct (foldM _ refs (RUnion r)) as [result| | |] eqn:E; try discriminate.
  specialize (Hfold result eq_refl). unfold Inv in Hfold.
  destruct result as [|v|variable selection|variable keys|urefs|v|addr rootRef];
    try discriminate.
  destruct urefs as [|x [|y urefs]].
  - destruct (sort_refs []) as [sorted| | |] eqn:Es; try discriminate.
    inversion Hu; subst out. apply Hfold. eapply sort_refs_latent; eauto.
  - inversion Hu; subst out. apply Hfold. apply latent_in_cons. now left.
  - destruct (sort_refs (x :: y :: urefs)) as [sorted| | |] eqn:Es; try discriminate.
    inversion Hu; subst out. apply Hfold. eapply sort_refs_latent; eauto.
Qed.

Lemma Ref_Union_latent (a : nat) (r : Ref) (refs : list Ref) (out : Ref) :
  Ref_Union r refs = Ok out ->
  latent_in a out -> latent_in a r \/ latent_in a (RUnion refs).
Proof.
  unfold Ref_Union, NewUnionRef, UnionRef_Union. intros Hu Hout.
  destruct r as [|v|variable selection|variable keys|rrefs|v|addr rootRef];
    try discriminate;
    destruct (UnionRef_Union_fuel_latent a _ _ _ _ Hu Hout) as [H|H]; auto;
    try contradiction;
    apply latent_in_app in H as [H|H]; auto;
    apply latent_in_cons in H as [H|[]]; auto.
Qed.

Lemma Ref_Union_no_latent (r x out : Ref) :
  no_latent r -> no_latent x -> Ref_Union r [x] = Ok out -> no_latent out.
Proof.
  intros Hr Hx Hu a Ha.
  destruct (Ref_Union_latent a _ _ _ Hu Ha) as [H|H]; [now apply (Hr a)|].
  apply latent_in_cons in H as [H|[]]. now apply (Hx a).
Qed.

(** ** The heap of latent references under evaluation *)

Lemma heap_frame_refl (keep : nat -> Prop) (h : Heap) : heap_frame keep h h.
Proof.
  split; [lia|]. split; [reflexivity|].
  intros a _. exists []. now rewrite app_nil_r.
Qed.

Lemma heap_frame_compose (keep keep' : nat -> Prop) (h h1 h2 : Heap) :
  heap_frame keep h h1 ->
  heap_frame keep' h1 h2 ->
  (forall a, (a < length h)%nat -> keep a -> keep' a) ->
  heap_frame keep h h2.
Proof.
  intros (Hlen1 & Hkeep1 & Hsuf1) (Hlen2 & Hkeep2 & Hsuf2) Himp.
  split; [lia|]. split.
  - intros a Ha Hk. rewrite Hkeep2; [now apply Hkeep1|lia|now apply Himp].
  - intros a Ha. destruct (Hsuf1 a Ha) as [s1 E1].
    destruct (Hsuf2 a ltac:(lia)) as [s2 E2].
    exists (s1 ++ s2). rewrite E2, E1. now rewrite app_assoc.
Qed.

Lemma heap_frame_trans (keep : nat -> Prop) (h h1 h2 : Heap) :
  heap_frame keep h h1 -> heap_frame keep h1 h2 -> heap_frame keep h h2.
Proof. intros H1 H2. eapply heap_frame_compose; eauto. Qed.

Lemma heap_frame_weaken (keep keep' : nat -> Prop) (h h' : Heap) :
  heap_frame keep h h' -> (forall a, keep' a -> keep a) -> heap_frame keep' h h'.
Proof.
  intros (Hlen & Hkeep & Hsuf) Himp. split; [exact Hlen|]. split; [|exact Hsuf].
  intros a Ha Hk. apply Hkeep; auto.
Qed.

Lemma heap_frame_alloc (h : Heap) (kp : list string) :
  heap_frame (fun _ => True) h (h ++ [kp]).
Proof.
  split; [rewrite length_app; lia|]. split.
  - intros a Ha _. now apply lookup_app_l.
  - intros a Ha. exists []. unfold keyPath.

    rewrite (lookup_app_l h [kp] a Ha). now rewrite app_nil_r.
Qed.

Lemma heap_frame_AddKey (h : Heap) (addr : nat) (k : string) :
  heap_frame (fun a => a <> addr) h (alter (fun keyPath => keyPath ++ [k]) addr h).
Proof.
  split; [rewrite length_alter; lia|]. split.
  - intros a Ha Hne. apply list_lookup_alter_ne. congruence.
  - intros a Ha. unfold keyPath. destruct (decide (a = addr)) as [->|Hne].
    + rewrite list_lookup_alter_eq. destruct (h !! addr) as [kp|] eqn:E; simpl.
      * now exists [k].
      * exists []. reflexivity.
    + rewrite list_lookup_alter_ne by congruence. exists []. now rewrite app_nil_r.
Qed.

Lemma eval_returns_ret {A : Type} (a : A) (h : Heap) (Q : A -> Heap -> Prop) :
  Q a h -> eval_returns (eval_ret a) h Q.
Proof. intros H b h' E. inversion E; subst. exact H. Qed.

Lemma eval_returns_bind {A B : Type} (m : Eval A) (f : A -> Eval B) (h : Heap)
      (P : A -> Heap -> Prop) (Q : B -> Heap -> Prop) :
  eval_returns m h P ->
  (forall a h1, P a h1 -> eval_returns (f a) h1 Q) ->
  eval_returns (a ← m; f a) h Q.
Proof.
  intros Hm Hf b h' E. unfold mbind, Eval_bind, eval_bind in E.
  destruct (m h) as [[a h1]| | |] eqn:Em; try discriminate.
  eapply Hf; eauto.
Qed.

Lemma eval_returns_lift {A : Type} (o : outcome A) (h : Heap) (P : A -> Prop)
      (Q : A -> Heap -> Prop) :
  returns o P -> (forall a, P a -> Q a h) -> eval_returns (eval_lift o) h Q.
Proof.
  intros Ho HPQ a h' E. unfold eval_lift in E.
  destruct o as [x| | |]; try discriminate. inversion E; subst.
  apply HPQ. now apply Ho.
Qed.

Lemma eval_returns_weaken {A : Type} (m : Eval A) (h : Heap) (P Q : A -> Heap -> Prop) :
  eval_returns m h P -> (forall a h', P a h' -> Q a h') -> eval_returns m h Q.
Proof. intros Hm HPQ a h' E. auto. Qed.

Lemma eval_returns_fold {A S : Type} (f : S -> A -> Eval S) (Inv : S -> Heap -> Prop)
      (l : list A) :
  forall (s : S) (h : Heap),
    Inv s h ->
    (forall s h x, x ∈ l -> Inv s h -> eval_returns (f s x) h Inv) ->
    eval_returns (eval_fold f l s) h Inv.
Proof.
  induction l as [|x l IH]; intros s h Hs Hstep; simpl.
  - now apply eval_returns_ret.
  - eapply eval_returns_bind.
    + apply Hstep; [constructor|exact Hs].
    + intros s' h1 Hs'. apply IH; [exact Hs'|].
      intros s0 h0 y Hy. apply Hstep. now constructor.
Qed.

(** ** What the evaluator functions return *)

Ltac skip_bind := eapply returns_bind; [apply returns_any | intros ? _].

Lemma NewMapRef_no_latent (data : value) (variable : VarRef) (keys : list string) :
  returns (NewMapRef data variable keys) no_latent.
Proof.
  unfold NewMapRef. skip_bind.
  destruct a; try (intros ? ?; discriminate).
  apply returns_Ok. intros a Ha. exact Ha.
Qed.

Lemma NewArrayRef_no_latent (data : value) (variable : VarRef) (selection : Regions) :
  returns (NewArrayRef data variable selection) no_latent.
Proof.
  unfold NewArrayRef. skip_bind.
  destruct a; try (intros ? ?; discriminate).
  apply returns_Ok. intros a Ha. exact Ha.
Qed.

Lemma NewEmptyRef_no_latent : no_latent NewEmptyRef.
Proof. intros a Ha. exact Ha. Qed.

Lemma returns_Union_no_latent (r x : Ref) :
  no_latent r -> no_latent x -> returns (Ref_Union r [x]) no_latent.
Proof. intros Hr Hx out Hout. exact (Ref_Union_no_latent r x out Hr Hx Hout). Qed.

Lemma matchAllChildren_no_latent (data : value) (varRef : VarRef) :
  returns (matchAllChildren data varRef) no_latent.
Proof.
  unfold matchAllChildren. skip_bind. destruct a.
  - skip_bind. skip_bind.
    eapply returns_bind; [apply NewMapRef_no_latent|]. intros r Hr.
    apply returns_Union_no_latent; [apply NewEmptyRef_no_latent|exact Hr].
  - skip_bind. destruct a.
    + skip_bind. skip_bind.
      eapply returns_bind; [apply NewArrayRef_no_latent|]. intros r Hr.
      apply returns_Union_no_latent; [apply NewEmptyRef_no_latent|exact Hr].
    + apply returns_Ok. apply NewEmptyRef_no_latent.
Qed.

Lemma processIndex_no_latent (data : value) (input : Ref) (val : Z) :
  returns (processIndex data input val) no_latent.
Proof.
  unfold processIndex. skip_bind.
  apply returns_foldM; [apply NewEmptyRef_no_latent|].
  intros result varRef _ Hres. skip_bind.
  destruct a0; [|now apply returns_Ok].
  skip_bind. skip_bind.
  destruct (_ && _).
  - eapply returns_bind; [apply NewArrayRef_no_latent|]. intros r Hr.
    now apply returns_Union_no_latent.
  - destruct (_ && _); [|now apply returns_Ok].
    eapply returns_bind; [apply NewArrayRef_no_latent|]. intros r Hr.
    now apply returns_Union_no_latent.
Qed.

Lemma processSlice_no_latent (fuel : nat) (data : value) (input : Ref)
      (start end_ step : Z) (startSpecified endSpecified stepSpecified : bool) :
  returns (processSlice fuel data input start end_ step
                        startSpecified endSpecified stepSpecified) no_latent.
Proof.
  unfold processSlice. skip_bind.
  apply returns_foldM; [apply NewEmptyRef_no_latent|].
  intros result varRef _ Hres. skip_bind.
  destruct a0; [|now apply returns_Ok].
  unfold processSlice_var. skip_bind. skip_bind.
  match goal with |- context [let '(_, _) := ?p in _] => destruct p as [end3 step1] end.
  destruct (step1 =? 1).
  - eapply returns_bind; [apply NewArrayRef_no_latent|]. intros r Hr.
    now apply returns_Union_no_latent.
  - match goal with |- context [let '(_, _) := ?p in _] => destruct p as [start4 end4] end.
    skip_bind. skip_bind.
    eapply returns_bind; [apply NewArrayRef_no_latent|]. intros r Hr.
    now apply returns_Union_no_latent.
Qed.

Lemma processWildcard_no_latent (data : value) (input : Ref) :
  returns (processWildcard data input) no_latent.
Proof.
  unfold processWildcard. skip_bind.
  apply returns_foldM; [apply NewEmptyRef_no_latent|].
  intros result varRef _ Hres.
  eapply returns_bind; [apply matchAllChildren_no_latent|]. intros children Hc.
  now apply returns_Union_no_latent.
Qed.

(** The recursive operator returns its input united with descendants that
    are map and array references: its latent references are those of the
    input. *)
Lemma processRecursive_latent (a : nat) (fuel : nat) :
  forall (data : value) (input : Ref),
    returns (processRecursive fuel data input)
            (fun out => latent_in a out -> latent_in a input).
Proof.
  induction fuel as [|fuel IH]; intros data input; simpl.
  - intros ? ?; discriminate.
  - skip_bind.
    apply (returns_foldM _ (fun out => latent_in a out -> latent_in a input)); [auto|].
    intros result varRef _ Hres.
    eapply returns_bind; [apply matchAllChildren_no_latent|]. intros children Hc.
    eapply returns_bind; [apply IH|]. intros descendants Hd.
    intros out Hout Ha.
    destruct (Ref_Union_latent a _ _ _ Hout Ha) as [H|H]; [now apply Hres|].
    apply latent_in_cons in H as [H|[]]. exfalso. apply (Hc a). now apply Hd.
Qed.

(** ** Field selection *)

Lemma individualRefs_latent (input : Ref) (addr : nat) (rootRef : Ref) :
  RLatent addr rootRef ∈ individualRefs input -> latent_in addr input.
Proof.
  destruct input; simpl; intros Hin;
    try (apply list_elem_of_singleton in Hin; try discriminate).
  - eapply latent_in_member; [exact Hin|reflexivity].
  - inversion Hin; subst. reflexivity.
Qed.

Lemma MapRef_GetLatentMapRef_frame (data : value) (variable : VarRef)
      (keys : list string) (h0 h : Heap) :
  heap_frame (fun _ => True) h0 h ->
  eval_returns (MapRef_GetLatentMapRef data variable keys) h
    (fun latent h' =>
       heap_frame (fun _ => True) h0 h' /\
       forall p, latent = Some p -> (length h0 <= fst p)%nat).
Proof.
  intros Hh. unfold MapRef_GetLatentMapRef.
  eapply eval_returns_bind;
    [eapply eval_returns_lift with (Q := fun _ h' => h' = h);
     [apply returns_any|reflexivity]|].
  intros cv h1 ->.
  eapply eval_returns_bind;
    [eapply eval_returns_lift with (Q := fun _ h' => h' = h);
     [apply returns_any|reflexivity]|].
  intros m h1 ->.
  destruct (List.filter _ keys) as [|k0 missing].
  - apply eval_returns_ret. split; [exact Hh|discriminate].
  - eapply eval_returns_bind;
      [eapply eval_returns_lift with (Q := fun _ h' => h' = h);
       [apply returns_any|reflexivity]|].
    intros rootRef h1 ->.
    intros latent h' E. unfold mbind, Eval_bind, eval_bind, NewLatentMapRef in E.
    simpl in E. inversion E; subst. split.
    + eapply heap_frame_trans; [exact Hh|apply heap_frame_alloc].
    + intros p Hp. inversion Hp; subst. simpl. destruct Hh as [Hlen _]. exact Hlen.
Qed.

Lemma latentMapRefs_frame (data : value) (input : Ref) (h : Heap) :
  eval_returns (latentMapRefs data input) h
    (fun latents h' =>
       heap_frame (fun _ => True) h h' /\ latents_of_input input h latents).
Proof.
  unfold latentMapRefs.
  apply (eval_returns_fold _
           (fun latents h' =>
              heap_frame (fun _ => True) h h' /\ latents_of_input input h latents)).
  - split; [apply heap_frame_refl|]. intros p Hp. inversion Hp.
  - intros result hk r Hr [Hframe Hlat].
    destruct r as [|v|variable selection|variable keys|refs|v|addr rootRef];
      try (apply eval_returns_ret; split; assumption).
    + eapply eval_returns_bind;
        [apply (MapRef_GetLatentMapRef_frame data variable keys h hk Hframe)|].
      intros latent h1 [Hframe1 Hnew].
      destruct latent as [l|]; apply eval_returns_ret; (split; [exact Hframe1|]);
        [|exact Hlat].
      intros p Hp. apply elem_of_app in Hp as [Hp|Hp]; [now apply Hlat|].
      apply list_elem_of_singleton in Hp. subst p. right. now apply Hnew.
    + apply eval_returns_ret. split; [exact Hframe|].
      intros p Hp. apply elem_of_app in Hp as [Hp|Hp]; [now apply Hlat|].
      apply list_elem_of_singleton in Hp. subst p. left. simpl.
      eapply individualRefs_latent; exact Hr.
Qed.

Lemma process_post_pure (input : Ref) (h : Heap) (o : outcome Ref) :
  returns o (fun out => forall a, latent_in a out -> latent_in a input) ->
  eval_returns (eval_lift o) h (process_post input h).
Proof.
  intros Ho. eapply eval_returns_lift; [exact Ho|].
  intros out Hout. split; [apply heap_frame_refl|]. intros a Ha. left. now apply Hout.
Qed.

Lemma process_post_no_latent (input : Ref) (h : Heap) (o : outcome Ref) :
  returns o no_latent ->
  eval_returns (eval_lift o) h (process_post input h).
Proof.
  intros Ho. apply process_post_pure. eapply returns_weaken; [exact Ho|].
  intros out Hout a Ha. exfalso. exact (Hout a Ha).
Qed.

Lemma processFieldSelection_frame (data : value) (input : Ref) (name : string)
      (requireFieldToExist : bool) (h : Heap) :
  eval_returns (processFieldSelection data input name requireFieldToExist) h
               (process_post input h).
Proof.
  unfold processFieldSelection.
  eapply eval_returns_bind;
    [eapply eval_returns_lift with (Q := fun _ h' => h' = h);
     [apply returns_any|reflexivity]|].
  intros vars h1 ->.
  eapply eval_returns_bind.
  { eapply eval_returns_lift with (P := no_latent)
                                  (Q := fun results h' => h' = h /\ no_latent results).
    - apply returns_foldM; [apply NewEmptyRef_no_latent|].
      intros results varRef _ Hres. skip_bind.
      destruct a; [|now apply returns_Ok].
      eapply returns_bind; [apply returns_any|]. intros skip _.
      destruct skip; [now apply returns_Ok|].
      eapply returns_bind; [apply NewMapRef_no_latent|]. intros r Hr.
      now apply returns_Union_no_latent.
    - auto. }
  intros results h1 [-> Hres].
  destruct requireFieldToExist.
  - apply eval_returns_ret. split; [apply heap_frame_refl|].
    intros a Ha. exfalso. exact (Hres a Ha).
  - eapply eval_returns_bind; [apply latentMapRefs_frame|].
    intros latents h1 [Hframe Hlat].
    apply (eval_returns_fold _ (process_post input h)).
    + split.
      * eapply heap_frame_weaken; [exact Hframe|intros; exact I].
      * intros a Ha. exfalso. exact (Hres a Ha).
    + intros res hk p Hp [Hfk Hlk].
      intros out h' E. unfold mbind, Eval_bind, eval_bind, LatentMapRef_AddKey in E.
      simpl in E. unfold eval_lift in E.
      destruct (Ref_Union res [latent_ref p]) as [u| | |] eqn:Eu; try discriminate.
      inversion E; subst out h'. split.
      * eapply heap_frame_compose; [exact Hfk|apply heap_frame_AddKey|].
        intros a Ha Hnot ->. destruct (Hlat p Hp) as [H|H]; [contradiction|lia].
      * intros a Ha.
        destruct (Ref_Union_latent a _ _ _ Eu Ha) as [H|H]; [now apply Hlk|].
        apply latent_in_cons in H as [H|[]]. simpl in H. subst a.
        exact (Hlat p Hp).
Qed.

(** ** The evaluator *)

Lemma process_post_strict (input : Ref) (h : Heap) (out : Ref) (h' : Heap) :
  no_latent input -> process_post input h out h' -> heap_frame (fun _ => True) h h'.
Proof.
  intros Hno [Hframe _]. eapply heap_frame_weaken; [exact Hframe|].
  intros a _. apply Hno.
Qed.

Ltac pure_bind h :=
  eapply eval_returns_bind;
  [eapply eval_returns_lift with (Q := fun _ h' => h' = h);
   [apply returns_any|reflexivity]|].

Section Frame.
Variable template_compare : Token -> value -> value -> template_result.

Lemma process_frame (fuel : nat) :
  forall (data : value) (input : Ref) (n : node) (h : Heap),
    eval_returns (process template_compare fuel data input n) h (process_post input h).
Proof.
  induction fuel as [|fuel IH]; intros data input n h.
  - intros out h' E. discriminate.
  - destruct n as [nodes|val|name|name|sealed val|start end_ step ss es sts
                   |lhs rhs operator|val|val| | |nodes| ]; cbn [process].
    + (* path *)
      apply (eval_returns_fold _ (process_post input h)).
      * split; [apply heap_frame_refl|]. intros a Ha. now left.
      * intros result hk n' _ [Hfk Hlk].
        eapply eval_returns_weaken; [apply IH|].
        intros out h' [Hf Hl]. split.
        -- eapply heap_frame_compose; [exact Hfk|exact Hf|].
           intros a Ha Hnot Hin. destruct (Hlk a Hin) as [H|H]; [contradiction|lia].
        -- intros a Ha. destruct (Hl a Ha) as [H|H].
           ++ now apply Hlk.
           ++ right. destruct Hfk as [Hlen _]. lia.
    + apply eval_returns_ret. split; [apply heap_frame_refl|]. intros a [].
    + apply processFieldSelection_frame.
    + apply processFieldSelection_frame.
    + apply process_post_no_latent, processIndex_no_latent.
    + apply process_post_no_latent, processSlice_no_latent.
    + (* filter *)
      assert (Htest : forall (single : Ref) (hk : Heap),
                 no_latent single ->
                 eval_returns
                   (lhsRef ← process template_compare fuel data single lhs;
                    rhsRef ← match rhs with
                             | Some rhsNode => process template_compare fuel data single rhsNode
                             | None => eval_ret RNil
                             end;
                    eval_lift (applyFilter template_compare data lhsRef rhsRef operator))
                   hk (fun _ hk' => heap_frame (fun _ => True) hk hk')).
      { intros single hk Hs.
        eapply eval_returns_bind; [apply IH|]. intros lhsRef h1 Hl.
        apply (process_post_strict _ _ _ _ Hs) in Hl.
        eapply eval_returns_bind with (P := fun _ h2 => heap_frame (fun _ => True) hk h2).
        - destruct rhs as [rhsNode|].
          + eapply eval_returns_weaken; [apply IH|]. intros rhsRef h2 Hr.
            apply (process_post_strict _ _ _ _ Hs) in Hr.
            eapply heap_frame_trans; eauto.
          + apply eval_returns_ret. exact Hl.
        - intros rhsRef h2 Hr. eapply eval_returns_lift; [apply returns_any|].
          intros _ _. exact Hr. }
      eapply eval_returns_weaken
        with (P := fun out h' => heap_frame (fun _ => True) h h' /\ no_latent out).
      2:{ intros out h' [Hf Hno]. split.
          - eapply heap_frame_weaken; [exact Hf|intros; exact I].
          - intros a Ha. exfalso. exact (Hno a Ha). }
      pure_bind h. intros vars h1 ->.
      apply (eval_returns_fold _
               (fun out h' => heap_frame (fun _ => True) h h' /\ no_latent out)).
      * split; [apply heap_frame_refl|apply NewEmptyRef_no_latent].
      * intros result hk varRef _ [Hfk Hres].
        pure_bind hk. intros isMap h1 ->. destruct isMap.
        -- pure_bind hk. intros children h1 ->.
           destruct children as [|v|variable selection|variable keys|refs|v|addr rootRef];
             try (intros ? ? ?; discriminate).
           eapply eval_returns_bind
             with (P := fun _ h2 => heap_frame (fun _ => True) h h2).
           ++ apply (eval_returns_fold _ (fun _ h2 => heap_frame (fun _ => True) h h2));
                [exact Hfk|].
              intros matches h2 k _ Hf2.
              eapply eval_returns_bind
                with (P := fun single h3 => h3 = h2 /\ no_latent single).
              { eapply eval_returns_lift; [apply NewMapRef_no_latent|]. auto. }
              intros single h3 [-> Hsingle].
              eapply eval_returns_bind; [apply (Htest single h2 Hsingle)|].
              intros isMatch h3 Hf3. apply eval_returns_ret.
              eapply heap_frame_trans; eauto.
           ++ intros matches h2 Hf2.
              eapply eval_returns_bind
                with (P := fun r h3 => h3 = h2 /\ no_latent r).
              { eapply eval_returns_lift; [apply NewMapRef_no_latent|]. auto. }
              intros r h3 [-> Hr].
              eapply eval_returns_lift; [apply (returns_Union_no_latent _ _ Hres Hr)|].
              auto.
        -- pure_bind hk. intros isSlice h1 ->. destruct isSlice.
           ++ pure_bind hk. intros children h1 ->.
              destruct children as [|v|variable selection|variable keys|refs|v|addr rootRef];
                try (intros ? ? ?; discriminate).
              pure_bind hk. intros _u h1 ->.
              eapply eval_returns_bind
                with (P := fun _ h2 => heap_frame (fun _ => True) h h2).
              ** apply (eval_returns_fold _ (fun _ h2 => heap_frame (fun _ => True) h h2));
                   [exact Hfk|].
                 intros matches h2 index _ Hf2.
                 eapply eval_returns_bind
                   with (P := fun single h3 => h3 = h2 /\ no_latent single).
                 { eapply eval_returns_lift; [apply NewArrayRef_no_latent|]. auto. }
                 intros single h3 [-> Hsingle].
                 eapply eval_returns_bind; [apply (Htest single h2 Hsingle)|].
                 intros isMatch h3 Hf3. apply eval_returns_ret.
                 eapply heap_frame_trans; eauto.
              ** intros matches h2 Hf2.
                 eapply eval_returns_bind
                   with (P := fun r h3 => h3 = h2 /\ no_latent r).
                 { eapply eval_returns_lift; [apply NewArrayRef_no_latent|]. auto. }
                 intros r h3 [-> Hr].
                 eapply eval_returns_lift; [apply (returns_Union_no_latent _ _ Hres Hr)|].
                 auto.
           ++ apply eval_returns_ret. split; assumption.
    + apply eval_returns_ret. split; [apply heap_frame_refl|]. intros a [].
    + apply eval_returns_ret. split; [apply heap_frame_refl|]. intros a [].
    + apply process_post_no_latent, processWildcard_no_latent.
    + apply process_post_pure. intros out Hout a. revert out Hout.
      apply processRecursive_latent.
    + (* union *)
      apply (eval_returns_fold _ (process_post input h)).
      * split; [apply heap_frame_refl|]. intros a [].
      * intros result hk n' _ [Hfk Hlk].
        eapply eval_returns_bind; [apply IH|]. intros subset h1 [Hf Hl].
        intros out h' E. unfold eval_lift in E.
        destruct (Ref_Union result [subset]) as [u| | |] eqn:Eu; try discriminate.
        inversion E; subst out h'. split.
        -- eapply heap_frame_trans; eauto.
        -- intros a Ha. destruct (Ref_Union_latent a _ _ _ Eu Ha) as [H|H].
           ++ now apply Hlk.
           ++ apply latent_in_cons in H as [H|[]]. destruct (Hl a H) as [H'|H'].
              ** now left.
              ** right. destruct Hfk as [Hlen _]. lia.
    + apply eval_returns_ret. split; [apply heap_frame_refl|]. intros a Ha. now left.
Qed.

End Frame.

(* ------------------------------------------------------------------ *)
(** ** Evaluation and the references it is given *)
(* ------------------------------------------------------------------ *)

(** C8, the claim as stated fails: [a.b.c] evaluates to a Latent reference
    with the key path [c]; evaluating the field node [d] with that reference
    as its input returns the same Latent reference and has changed its key
    path, in place, to [c, d]. *)
Lemma C8_field_extends_input_latent :
  process no_compare 3 doc_a_empty (RVar rootVar)
          (pathNode [fieldNode "a"; fieldNode "b"; fieldNode "c"]) []
    = Ok (latent_a_b, [["c"]]) /\
  process no_compare 1 doc_a_empty latent_a_b (fieldNode "d") [["c"]]
    = Ok (latent_a_b, [["c"; "d"]]) /\
  keyPath [["c"]] 0 <> keyPath [["c"; "d"]] 0.
Proof. split; [|split]; [vm_compute; reflexivity ..| discriminate]. Qed.

(** Evaluating a field node on a Latent reference appends the name to its
    key path and returns the reference. *)
Lemma field_on_latent (template_compare : Token -> value -> value -> template_result)
      (fuel : nat) (data : value) (addr : nat) (rootRef : Ref) (name : string) (h : Heap) :
  process template_compare (S fuel) data (RLatent addr rootRef) (fieldNode name) h
  = Ok (RLatent addr rootRef, alter (fun keyPath => keyPath ++ [name]) addr h).
Proof. reflexivity. Qed.

(** C8, amended: evaluation does modify a Latent reference that its input
    contains, in place and only by appending to its key path: for every
    node and every input, when evaluation returns, no latent reference was
    lost; the key path of a latent reference that is not contained in the
    input is what it was; the key path of a latent reference of the input is
    its old key path followed by a suffix; a latent reference in the result is
    a latent reference of the input or a new one; and a field node whose
    input is a Latent reference returns that reference with the name appended
    to its key path.  (The document is only read, and Var, Array, Map and
    Literal references have no field that the evaluator assigns: in the
    embedding they are values.) *)
Theorem C8_evaluation_frame
        (template_compare : Token -> value -> value -> template_result)
        (fuel : nat) (data : value) (input : Ref) (n : node) (h : Heap)
        (out : Ref) (h' : Heap) :
  process template_compare fuel data input n h = Ok (out, h') ->
  (length h <= length h')%nat /\
  (forall a, (a < length h)%nat -> ~ latent_in a input -> keyPath h' a = keyPath h a) /\
  (forall a, (a < length h)%nat -> exists suffix, keyPath h' a = keyPath h a ++ suffix) /\
  (forall a, latent_in a out -> latent_in a input \/ (length h <= a)%nat) /\
  (forall name addr rootRef,
      n = fieldNode name -> input = RLatent addr rootRef ->
      out = input /\ h' = alter (fun keyPath => keyPath ++ [name]) addr h).
Proof.
  intros Hrun.
  destruct (process_frame template_compare fuel data input n h out h' Hrun)
    as [(Hlen & Hkeep & Hsuffix) Hlatents].
  split; [exact Hlen|]. split; [|split; [exact Hsuffix|split; [exact Hlatents|]]].
  - intros a Ha Hnot. unfold keyPath. now rewrite (Hkeep a Ha Hnot).
  - intros name addr rootRef -> ->.
    destruct fuel as [|fuel]; [discriminate|].
    rewrite field_on_latent in Hrun. inversion Hrun. split; reflexivity.
Qed.

Lemma C8_evaluation_frame_witness :
  (length [["c"]] <= length [["c"; "d"]])%nat /\
  (forall a, (a < length [["c"]])%nat -> ~ latent_in a latent_a_b ->
             keyPath [["c"; "d"]] a = keyPath [["c"]] a) /\
  (forall a, (a < length [["c"]])%nat ->
             exists suffix, keyPath [["c"; "d"]] a = keyPath [["c"]] a ++ suffix) /\
  (forall a, latent_in a latent_a_b -> latent_in a latent_a_b \/ (length [["c"]] <= a)%nat) /\
  (forall name addr rootRef,
      fieldNode "d" = fieldNode name -> latent_a_b = RLatent addr rootRef ->
      latent_a_b = latent_a_b /\
      [["c"; "d"]] = alter (fun keyPath => keyPath ++ [name]) addr [["c"]]).
Proof.
  apply (C8_evaluation_frame no_compare 1 doc_a_empty latent_a_b (fieldNode "d")
           [["c"]] latent_a_b [["c"; "d"]]).
  vm_compute. reflexivity.
Defined.

(* ================================================================== *)
(** * Further properties of the code *)
(* ================================================================== *)

(** ** Regions as sets of indices *)

Lemma ContainsIndex_spec (r : Region) (i : Z) :
  Region_ContainsIndex r i = true <-> Start r <= i < End r.
Proof. unfold Region_ContainsIndex. rewrite andb_true_iff. lia. Qed.

Lemma index_range_spec (start end_ i : Z) :
  i ∈ index_range start end_ <-> start <= i < end_.
Proof.
  unfold index_range. rewrite list_elem_of_fmap. split.
  - intros (k & -> & Hk). apply elem_of_seq in Hk. lia.
  - intros H. exists (Z.to_nat (i - start)). split; [lia|].
    apply elem_of_seq. lia.
Qed.

Lemma ToIndicies_covers (rs : Regions) (i : Z) :
  i ∈ Regions_ToIndicies rs <-> covers rs i.
Proof.
  unfold Regions_ToIndicies, covers.
  rewrite list_elem_of_In, in_flat_map. setoid_rewrite <- list_elem_of_In.
  setoid_rewrite index_range_spec. setoid_rewrite ContainsIndex_spec. reflexivity.
Qed.

Lemma covers_nil (i : Z) : covers [] i <-> False.
Proof. split; [|tauto]. intros (r & Hr & _). inversion Hr. Qed.

Lemma covers_cons (r : Region) (rs : Regions) (i : Z) :
  covers (r :: rs) i <-> Region_ContainsIndex r i = true \/ covers rs i.
Proof.
  unfold covers. split.
  - intros (x & Hx & Hi). apply elem_of_cons in Hx as [->|Hx]; eauto.
  - intros [H|(x & Hx & Hi)]; [exists r|exists x]; split; auto; constructor; auto.
Qed.

Lemma covers_app (l1 l2 : Regions) (i : Z) :
  covers (l1 ++ l2) i <-> covers l1 i \/ covers l2 i.
Proof.
  unfold covers. split.
  - intros (x & Hx & Hi). apply elem_of_app in Hx as [Hx|Hx]; eauto.
  - intros [(x & Hx & Hi)|(x & Hx & Hi)]; exists x; rewrite elem_of_app; auto.
Qed.

(** ** Region.Cut as the deletion of items *)

(** X1: [r.Cut(other)] is the region [r] after the items of [other] have
    been deleted from the slice: it moves down by the number of deleted
    items in front of it and shrinks by the number of deleted items inside
    it.  This holds for well-formed regions of non-negative indices, except
    when a non-empty [other] ends exactly where [r] starts. *)
Theorem Cut_models_deletion (r other : Region) :
  0 <= Start r <= End r -> End r <= int_max ->
  0 <= Start other <= End other -> End other <= int_max ->
  End other <> Start r \/ Start other = End other ->
  Region_Cut r other =
    mkRegion (Start r - removed_before r other)
             (Start r - removed_before r other
              + (End r - Start r - removed_inside r other)).
Proof.
  destruct r as [s e], other as [s' e']. cbn [Start End].
  intros Hr He Ho He' Hadj.
  assert (Hw : forall z, - int_max <= z <= int_max -> wrap z = z).
  { intros z Hz. apply wrap_id. unfold is_int, int_min, int_max in *. lia. }
  unfold Region_Cut, Region_Shift, Region_Shrink, Region_Len, removed_before,
    removed_inside, int_neg, int_sub, int_add. cbn [Start End].
  pose proof (Z.ltb_spec e' s); pose proof (Z.geb_spec s' e);
  pose proof (Z.geb_spec s' s); pose proof (Z.geb_spec e' e);
  pose proof (Z.leb_spec s' s); pose proof (Z.gtb_spec e' e);
  pose proof (Z.gtb_spec e' s).
  destruct (e' <? s), (s' >=? e), (s' >=? s), (e' >=? e), (s' <=? s),
    (e' >? e), (e' >? s); cbn [andb];
    repeat match goal with
           | H : Bool.reflect _ _ |- _ => inversion H; clear H
           | H : BoolSpec _ _ _ |- _ => inversion H; clear H
           end; try lia;
    repeat match goal with
           | |- context [wrap ?z] => rewrite (Hw z) by lia
           end;
    try (f_equal; lia);
    pose proof (Z.geb_spec (e' - s') (e - s));
    destruct (e' - s' >=? e - s);
    repeat match goal with
           | H : Bool.reflect _ _ |- _ => inversion H; clear H
           | H : BoolSpec _ _ _ |- _ => inversion H; clear H
           end;
    repeat match goal with
           | |- context [wrap ?z] => rewrite (Hw z) by lia
           end; f_equal; lia.
Qed.

Lemma Cut_models_deletion_witness :
  Region_Cut (mkRegion 5 8) (mkRegion 1 6) = mkRegion 1 3.
Proof.
  apply (Cut_models_deletion (mkRegion 5 8) (mkRegion 1 6));
    cbn [Start End]; unfold int_max; lia.
Defined.

(** ** Region.Intersect *)

Lemma Region_Intersect_covers (r other : Region) (i : Z) :
  Start r <= End r -> Start other <= End other ->
  (covers (Region_Intersect r other) i <->
   Region_ContainsIndex r i = true /\ Region_ContainsIndex other i = false).
Proof.
  intros Hr Ho.
  destruct r as [s e], other as [s' e']. simpl in *.
  unfold Region_Intersect, Region_ContainsRegion, Region_Overlap. simpl.
  rewrite <- not_true_iff_false. rewrite !ContainsIndex_spec. simpl.
  destruct ((s >=? s') && (e <=? e')) eqn:E1.
  { apply andb_true_iff in E1. rewrite covers_nil. lia. }
  apply andb_false_iff in E1.
  match goal with |- context [negb ?b] => destruct b eqn:E2 end; simpl.
  - rewrite !orb_true_iff, !andb_true_iff in E2.
    destruct (s' <=? s) eqn:E3; [|destruct (e' >=? e) eqn:E4];
      rewrite ?covers_cons, ?covers_nil, ?ContainsIndex_spec; simpl; lia.
  - rewrite !orb_false_iff, !andb_false_iff in E2.
    rewrite ?covers_cons, ?covers_nil, ?ContainsIndex_spec; simpl. lia.
Qed.

(** X2: for well-formed regions, [r.Intersect(other)] holds exactly the
    indices of [r] that are not in [other]: despite its name the method
    computes the difference. *)
Theorem Region_Intersect_difference (r other : Region) (i : Z) :
  Start r <= End r -> Start other <= End other ->
  (i ∈ Regions_ToIndicies (Region_Intersect r other) <->
   Region_ContainsIndex r i = true /\ Region_ContainsIndex other i = false).
Proof. intros Hr Ho. rewrite ToIndicies_covers. apply Region_Intersect_covers; assumption. Qed.

Lemma Region_Intersect_difference_witness :
  4 ∈ Regions_ToIndicies (Region_Intersect (mkRegion 0 10) (mkRegion 2 4)) <->
  Region_ContainsIndex (mkRegion 0 10) 4 = true /\
  Region_ContainsIndex (mkRegion 2 4) 4 = false.
Proof.
  apply (Region_Intersect_difference (mkRegion 0 10) (mkRegion 2 4) 4); cbn [Start End]; lia.
Defined.

(** ** Regions.Union *)

Lemma Join_covers (n x : Region) (i : Z) :
  Region_Overlap n x = true ->
  (Region_ContainsIndex (Region_Join n x) i = true <->
   Region_ContainsIndex n i = true \/ Region_ContainsIndex x i = true).
Proof.
  destruct n as [s e], x as [s' e'].
  unfold Region_Overlap, Region_Join. rewrite !ContainsIndex_spec. cbn [Start End].
  rewrite !orb_true_iff, !andb_true_iff. intros H.
  destruct (s <? s') eqn:E1, (e >? e') eqn:E2; cbn [Start End]; lia.
Qed.

Lemma Equal_covers (n x : Region) (i : Z) :
  Region_Equal n x = true ->
  (Region_ContainsIndex x i = true <-> Region_ContainsIndex n i = true).
Proof.
  unfold Region_Equal. rewrite andb_true_iff, !ContainsIndex_spec. lia.
Qed.

Lemma Union_loop_covers (i : Z) (fuel : nat) :
  forall (leftSet rightSet : Regions) (next : option Region) (result out : Regions),
    Union_loop fuel leftSet rightSet next result = Some out ->
    (covers out i <->
     covers result i \/ covers_next next i \/ covers leftSet i \/ covers rightSet i).
Proof.
  induction fuel as [|fuel IH]; intros leftSet rightSet next result out.
  - destruct leftSet, rightSet; simpl; try discriminate.
    intros [= <-]. destruct next; simpl; rewrite ?covers_app, ?covers_cons, ?covers_nil; tauto.
  - destruct leftSet as [|l ls], rightSet as [|r rs]; simpl.
    + intros [= <-]. destruct next; simpl; rewrite ?covers_app, ?covers_cons, ?covers_nil; tauto.
    + destruct next as [n|].
      * destruct (Region_Overlap n r) eqn:Eo;
          [|destruct (Region_Equal n r) eqn:Ee]; intros H; apply IH in H; rewrite H;
          simpl; rewrite ?covers_app, ?covers_cons, ?covers_nil.
        -- rewrite (Join_covers _ _ _ Eo). tauto.
        -- pose proof (Equal_covers _ _ i Ee). tauto.
        -- tauto.
      * intros [= <-]. simpl. rewrite ?covers_app, ?covers_cons, ?covers_nil. tauto.
    + destruct next as [n|].
      * destruct (Region_Overlap n l) eqn:Eo;
          [|destruct (Region_Equal n l) eqn:Ee]; intros H; apply IH in H; rewrite H;
          simpl; rewrite ?covers_app, ?covers_cons, ?covers_nil.
        -- rewrite (Join_covers _ _ _ Eo). tauto.
        -- pose proof (Equal_covers _ _ i Ee). tauto.
        -- tauto.
      * intros [= <-]. simpl. rewrite ?covers_app, ?covers_cons, ?covers_nil. tauto.
    + destruct next as [n|].
      * destruct (Region_Overlap n l) eqn:Eo;
          [|destruct (Region_Equal n l) eqn:Ee;
            [|destruct (Region_Overlap n r) eqn:Eo';
              [|destruct (Region_Equal n r) eqn:Ee']]];
          intros H; apply IH in H; rewrite H;
          simpl; rewrite ?covers_app, ?covers_cons, ?covers_nil.
        -- rewrite (Join_covers _ _ _ Eo). tauto.
        -- pose proof (Equal_covers _ _ i Ee). tauto.
        -- rewrite (Join_covers _ _ _ Eo'). tauto.
        -- pose proof (Equal_covers _ _ i Ee'). tauto.
        -- tauto.
      * destruct (Start l <? Start r); intros H; apply IH in H; rewrite H;
          simpl; rewrite ?covers_app, ?covers_cons, ?covers_nil;
          unfold Region_Clone; rewrite !ContainsIndex_spec; simpl; tauto.
Qed.

Lemma Union_covers (rs otherRegions : Regions) (i : Z) :
  covers (Regions_Union rs otherRegions) i <-> covers rs i \/ covers otherRegions i.
Proof.
  unfold Regions_Union.
  destruct rs as [|l ls]; [rewrite covers_nil; tauto|].
  destruct otherRegions as [|r rs]; [rewrite covers_nil; tauto|].
  destruct (Regions_Union_total (l :: ls) (r :: rs)) as [out Hout].
  rewrite Hout. rewrite (Union_loop_covers i _ _ _ _ _ _ Hout).
  simpl. rewrite covers_nil. tauto.
Qed.

(** X3: the indices of [rs.Union(otherRegions)] are the indices of [rs]
    together with the indices of [otherRegions], whatever the regions are:
    the union loses no index and invents none. *)
Theorem Union_indices (rs otherRegions : Regions) (i : Z) :
  i ∈ Regions_ToIndicies (Regions_Union rs otherRegions) <->
  i ∈ Regions_ToIndicies rs \/ i ∈ Regions_ToIndicies otherRegions.
Proof. rewrite !ToIndicies_covers. apply Union_covers. Qed.

(** X4: as sets of indices, [a.Union(b)] and [b.Union(a)] are the same;
    the two results can differ only in how the indices are cut into
    regions and in empty regions. *)
Theorem Union_indices_comm (a b : Regions) (i : Z) :
  i ∈ Regions_ToIndicies (Regions_Union a b) <->
  i ∈ Regions_ToIndicies (Regions_Union b a).
Proof. rewrite !ToIndicies_covers, !Union_covers. tauto. Qed.

(** ** Regions.Union and Regions.Check *)

Lemma Check_from_app (a b : Regions) :
  forall w, Check_from w (a ++ b) = Check_from w a && Check_from (last_End w a) b.
Proof.
  induction a as [|r a IH]; intros w; simpl; [reflexivity|].
  destruct (Start r <? w); [reflexivity|]. apply IH.
Qed.

Lemma last_End_app (a b : Regions) (w : Z) :
  last_End w (a ++ b) = last_End (last_End w a) b.
Proof. unfold last_End. apply fold_left_app. Qed.

Lemma Check_from_weaken (rs : Regions) (w w' : Z) :
  w' <= w -> Check_from w rs = true -> Check_from w' rs = true.
Proof.
  destruct rs as [|r rs]; simpl; [reflexivity|]. intros Hle.
  destruct (Start r <? w) eqn:E; [discriminate|].
  destruct (Start r <? w') eqn:E'; [lia|auto].
Qed.

Lemma Check_from_cons (r : Region) (rs : Regions) (w : Z) :
  Check_from w (r :: rs) = true <-> w <= Start r /\ Check_from (End r) rs = true.
Proof.
  simpl. destruct (Start r <? w) eqn:E; split; try lia; intuition (try discriminate; lia).
Qed.

Lemma not_Overlap_after (n x : Region) :
  Start n <= Start x -> Region_Overlap n x = false -> End n <= Start x.
Proof.
  destruct n as [s e], x as [s' e']. unfold Region_Overlap. cbn [Start End].
  rewrite !orb_false_iff, !andb_false_iff. lia.
Qed.

Lemma Join_shape (n x : Region) :
  Start n <= Start x -> well_formed n -> well_formed x ->
  Start (Region_Join n x) = Start n /\ well_formed (Region_Join n x) /\
  End x <= End (Region_Join n x).
Proof.
  destruct n as [s e], x as [s' e']. unfold Region_Join, well_formed. cbn [Start End].
  destruct (s <? s') eqn:E1, (e >? e') eqn:E2; cbn [Start End]; lia.
Qed.

Lemma Union_inv_emit (leftSet rightSet : Regions) (n : Region) (result : Regions) :
  Union_inv leftSet rightSet (Some n) result ->
  match leftSet with x :: _ => Region_Overlap n x = false | [] => True end ->
  match rightSet with x :: _ => Region_Overlap n x = false | [] => True end ->
  Union_inv leftSet rightSet None (result ++ [n]).
Proof.
  intros (Hc & Hw & Hl & Hr & Hn & Hle & HL & HR) HoL HoR.
  unfold Union_inv. rewrite Check_from_app, last_End_app, Hc. simpl.
  destruct (Start n <? last_End 0 result) eqn:E; [lia|].
  split; [reflexivity|]. split; [apply Forall_app; auto|].
  split; [assumption|]. split; [assumption|].
  split.
  - destruct leftSet as [|x ls]; [reflexivity|].
    apply Check_from_cons in HL as [H1 H2]. apply Check_from_cons. split; [|assumption].
    apply not_Overlap_after; assumption.
  - destruct rightSet as [|x ls]; [reflexivity|].
    apply Check_from_cons in HR as [H1 H2]. apply Check_from_cons. split; [|assumption].
    apply not_Overlap_after; assumption.
Qed.

Lemma Union_inv_finish (next : option Region) (result : Regions) :
  Union_inv [] [] next result ->
  let out := match next with Some n => result ++ [n] | None => result end in
  Check_from 0 out = true /\ Forall well_formed out.
Proof.
  intros (Hc & Hw & _ & _ & Hn). destruct next as [n|]; simpl; [|auto].
  destruct Hn as (Hn & Hle & _). rewrite Check_from_app, Hc. simpl.
  destruct (Start n <? last_End 0 result) eqn:E; [lia|].
  split; [reflexivity|apply Forall_app; auto].
Qed.

Lemma Union_inv_join_left (x : Region) (ls rightSet : Regions) (n : Region) (result : Regions) :
  Union_inv (x :: ls) rightSet (Some n) result ->
  Union_inv ls rightSet (Some (Region_Join n x)) result.
Proof.
  intros (Hc & Hw & Hl & Hr & Hn & Hle & HL & HR).
  apply Check_from_cons in HL as [H1 H2]. inversion Hl; subst.
  destruct (Join_shape n x) as (Hs & Hwf & He); auto.
  unfold Union_inv. rewrite Hs. repeat split; auto.
  apply Check_from_weaken with (w := End x); auto. unfold well_formed in *. lia.
Qed.

Lemma Union_inv_join_right (x : Region) (leftSet rs : Regions) (n : Region) (result : Regions) :
  Union_inv leftSet (x :: rs) (Some n) result ->
  Union_inv leftSet rs (Some (Region_Join n x)) result.
Proof.
  intros (Hc & Hw & Hl & Hr & Hn & Hle & HL & HR).
  apply Check_from_cons in HR as [H1 H2]. inversion Hr; subst.
  destruct (Join_shape n x) as (Hs & Hwf & He); auto.
  unfold Union_inv. rewrite Hs. repeat split; auto.
  apply Check_from_weaken with (w := End x); auto. unfold well_formed in *. lia.
Qed.

Lemma Union_inv_drop_left (x : Region) (ls rightSet : Regions) (n : Region) (result : Regions) :
  Union_inv (x :: ls) rightSet (Some n) result ->
  Union_inv ls rightSet (Some n) result.
Proof.
  intros (Hc & Hw & Hl & Hr & Hn & Hle & HL & HR).
  apply Check_from_cons in HL as [H1 H2]. inversion Hl; subst.
  unfold Union_inv. repeat split; auto.
  apply Check_from_weaken with (w := End x); auto. unfold well_formed in *. lia.
Qed.

Lemma Union_inv_drop_right (x : Region) (leftSet rs : Regions) (n : Region) (result : Regions) :
  Union_inv leftSet (x :: rs) (Some n) result ->
  Union_inv leftSet rs (Some n) result.
Proof.
  intros (Hc & Hw & Hl & Hr & Hn & Hle & HL & HR).
  apply Check_from_cons in HR as [H1 H2]. inversion Hr; subst.
  unfold Union_inv. repeat split; auto.
  apply Check_from_weaken with (w := End x); auto. unfold well_formed in *. lia.
Qed.

Lemma Union_loop_Check (fuel : nat) :
  forall (leftSet rightSet : Regions) (next : option Region) (result out : Regions),
    Union_inv leftSet rightSet next result ->
    Union_loop fuel leftSet rightSet next result = Some out ->
    Check_from 0 out = true /\ Forall well_formed out.
Proof.
  induction fuel as [|fuel IH]; intros leftSet rightSet next result out Hinv.
  - destruct leftSet, rightSet; simpl; try discriminate.
    intros [= <-]. apply (Union_inv_finish _ _ Hinv).
  - destruct leftSet as [|l ls], rightSet as [|r rs]; simpl.
    + intros [= <-]. apply (Union_inv_finish _ _ Hinv).
    + destruct next as [n|].
      * destruct (Region_Overlap n r) eqn:Eo;
          [|destruct (Region_Equal n r) eqn:Ee]; apply IH.
        -- apply Union_inv_join_right; assumption.
        -- apply Union_inv_drop_right with (x := r); assumption.
        -- apply Union_inv_emit; auto.
      * intros [= <-]. destruct Hinv as (Hc & Hw & Hl & Hr & HL & HR).
        rewrite Check_from_app, Hc, HR. split; [reflexivity|apply Forall_app; auto].
    + destruct next as [n|].
      * destruct (Region_Overlap n l) eqn:Eo;
          [|destruct (Region_Equal n l) eqn:Ee]; apply IH.
        -- apply Union_inv_join_left; assumption.
        -- apply Union_inv_drop_left with (x := l); assumption.
        -- apply Union_inv_emit; auto.
      * intros [= <-]. destruct Hinv as (Hc & Hw & Hl & Hr & HL & HR).
        rewrite Check_from_app, Hc, HL. split; [reflexivity|apply Forall_app; auto].
    + destruct next as [n|].
      * destruct (Region_Overlap n l) eqn:Eo;
          [|destruct (Region_Equal n l) eqn:Ee;
            [|destruct (Region_Overlap n r) eqn:Eo';
              [|destruct (Region_Equal n r) eqn:Ee']]]; apply IH.
        -- apply Union_inv_join_left; assumption.
        -- apply Union_inv_drop_left with (x := l); assumption.
        -- apply Union_inv_join_right; assumption.
        -- apply Union_inv_drop_right with (x := r); assumption.
        -- apply Union_inv_emit; auto.
      * destruct Hinv as (Hc & Hw & Hl & Hr & HL & HR).
        apply Check_from_cons in HL as HL'. apply Check_from_cons in HR as HR'.
        destruct HL' as [HL1 HL2], HR' as [HR1 HR2].
        inversion Hl; inversion Hr; subst.
        destruct (Start l <? Start r) eqn:E; apply IH; unfold Union_inv, Region_Clone;
          cbn [Start End]; repeat split; auto.
        -- apply Check_from_weaken with (w := End l); auto.
        -- apply Check_from_cons. split; [lia|assumption].
        -- apply Check_from_cons. split; [lia|assumption].
        -- apply Check_from_weaken with (w := End r); auto.
Qed.

(** X5: the union of two sets of well-formed regions that pass
    [Regions.Check] (sorted, not overlapping) passes [Regions.Check] again
    and holds well-formed regions only. *)
Theorem Union_Check (a b : Regions) :
  Regions_Check a = true -> Forall well_formed a ->
  Regions_Check b = true -> Forall well_formed b ->
  Regions_Check (Regions_Union a b) = true /\
  Forall well_formed (Regions_Union a b).
Proof.
  intros Ha Hwa Hb Hwb. unfold Regions_Union.
  destruct a as [|l ls]; [auto|]. destruct b as [|r rs]; [auto|].
  destruct (Regions_Union_total (l :: ls) (r :: rs)) as [out Hout]. rewrite Hout.
  refine (Union_loop_Check _ _ _ _ _ _ _ Hout).
  unfold Union_inv. repeat split; auto.
Qed.

Lemma Union_Check_witness :
  Regions_Check (Regions_Union [mkRegion 0 2; mkRegion 5 7] [mkRegion 1 6]) = true /\
  Forall well_formed (Regions_Union [mkRegion 0 2; mkRegion 5 7] [mkRegion 1 6]).
Proof.
  apply (Union_Check [mkRegion 0 2; mkRegion 5 7] [mkRegion 1 6]);
    try reflexivity; repeat constructor; unfold well_formed; cbn [Start End]; lia.
Defined.

(** ** Regions.Check and Regions.ToIndicies *)

Lemma index_range_sorted (s e : Z) : StronglySorted Z.lt (index_range s e).
Proof.
  unfold index_range. generalize (Z.to_nat (e - s)) as n. intros n.
  generalize 0%nat as k. induction n as [|n IH]; intros k; simpl; constructor.
  - apply IH.
  - apply List.Forall_forall. intros x Hx. apply in_map_iff in Hx as (j & <- & Hj).
    apply in_seq in Hj. lia.
Qed.

Lemma StronglySorted_app_lt (l1 l2 : list Z) :
  StronglySorted Z.lt l1 -> StronglySorted Z.lt l2 ->
  (forall x y, x ∈ l1 -> y ∈ l2 -> x < y) ->
  StronglySorted Z.lt (l1 ++ l2).
Proof.
  intros H1 H2 H. induction H1 as [|a l1 Hs IH Hf]; simpl; [assumption|].
  constructor.
  - apply IH. intros x y Hx Hy. apply H; [constructor 2|]; assumption.
  - apply Forall_app. split; [assumption|].
    apply List.Forall_forall. intros y Hy. apply H; [constructor|apply list_elem_of_In; assumption].
Qed.

Lemma Check_from_lower (rs : Regions) :
  forall w i, Check_from w rs = true -> Forall well_formed rs ->
              covers rs i -> w <= i.
Proof.
  induction rs as [|r rs IH]; intros w i Hc Hw Hi.
  - apply covers_nil in Hi. tauto.
  - apply Check_from_cons in Hc as [H1 H2]. inversion Hw; subst.
    apply covers_cons in Hi as [Hi|Hi].
    + apply ContainsIndex_spec in Hi. lia.
    + specialize (IH _ _ H2 ltac:(assumption) Hi). unfold well_formed in *. lia.
Qed.

Lemma Check_from_indices_sorted (rs : Regions) :
  forall w, Check_from w rs = true -> Forall well_formed rs ->
            StronglySorted Z.lt (Regions_ToIndicies rs).
Proof.
  induction rs as [|r rs IH]; intros w Hc Hw; simpl; [constructor|].
  apply Check_from_cons in Hc as [H1 H2]. inversion Hw; subst.
  apply StronglySorted_app_lt.
  - apply index_range_sorted.
  - apply (IH _ H2). assumption.
  - intros x y Hx Hy. apply index_range_spec in Hx.
    apply ToIndicies_covers in Hy.
    pose proof (Check_from_lower _ _ _ H2 ltac:(assumption) Hy). lia.
Qed.

(** X6: well-formed regions that pass [Regions.Check] enumerate their
    indices in strictly increasing order: [ToIndicies] lists every index
    once. *)
Theorem Check_indices_increasing (rs : Regions) :
  Regions_Check rs = true -> Forall well_formed rs ->
  StronglySorted Z.lt (Regions_ToIndicies rs).
Proof. apply Check_from_indices_sorted. Qed.

Lemma Check_indices_increasing_witness :
  StronglySorted Z.lt (Regions_ToIndicies [mkRegion 1 3; mkRegion 3 4; mkRegion 8 10]).
Proof.
  apply (Check_indices_increasing [mkRegion 1 3; mkRegion 3 4; mkRegion 8 10]);
    [reflexivity|repeat constructor; unfold well_formed; cbn [Start End]; lia].
Defined.

(** ** Regions.ContainsIndex *)

Lemma CheckSorted_from_cons (r : Region) (rs : Regions) (w : Z) :
  CheckSorted_from w (r :: rs) = true <->
  w <= Start r /\ CheckSorted_from (Start r) rs = true.
Proof.
  simpl. destruct (Start r <? w) eqn:E; split; try lia; intuition (try discriminate; lia).
Qed.

Lemma CheckSorted_from_lower (rs : Regions) :
  forall w i, CheckSorted_from w rs = true -> covers rs i -> w <= i.
Proof.
  induction rs as [|r rs IH]; intros w i Hc Hi.
  - apply covers_nil in Hi. tauto.
  - apply CheckSorted_from_cons in Hc as [H1 H2].
    apply covers_cons in Hi as [Hi|Hi].
    + apply ContainsIndex_spec in Hi. lia.
    + specialize (IH _ _ H2 Hi). lia.
Qed.

Lemma ContainsIndex_covers (rs : Regions) (i : Z) :
  forall w, CheckSorted_from w rs = true ->
            (Regions_ContainsIndex rs i = true <-> covers rs i).
Proof.
  induction rs as [|r rs IH]; intros w Hc; simpl.
  - rewrite covers_nil. split; [discriminate|tauto].
  - apply CheckSorted_from_cons in Hc as [H1 H2]. rewrite covers_cons.
    destruct (Start r >? i) eqn:E1.
    + split; [discriminate|]. intros [Hi|Hi].
      * apply ContainsIndex_spec in Hi. lia.
      * pose proof (CheckSorted_from_lower _ _ _ H2 Hi). lia.
    + destruct (Region_ContainsIndex r i) eqn:E2; [tauto|].
      rewrite (IH _ H2). split; [tauto|]. intros [?|?]; [discriminate|assumption].
Qed.

(** X7: on regions sorted by their start ([Regions.CheckSorted]), the
    early exit of [Regions.ContainsIndex] loses nothing: it answers true
    exactly for the indices that [ToIndicies] enumerates. *)
Theorem ContainsIndex_sorted (rs : Regions) (i : Z) :
  Regions_CheckSorted rs = true ->
  (Regions_ContainsIndex rs i = true <-> i ∈ Regions_ToIndicies rs).
Proof. intros Hc. rewrite ToIndicies_covers. exact (ContainsIndex_covers rs i 0 Hc). Qed.

Lemma ContainsIndex_sorted_witness :
  Regions_ContainsIndex [mkRegion 1 3; mkRegion 2 9] 5 = true <->
  5 ∈ Regions_ToIndicies [mkRegion 1 3; mkRegion 2 9].
Proof. apply (ContainsIndex_sorted [mkRegion 1 3; mkRegion 2 9] 5). reflexivity. Defined.

(** ** Regions.ExtractItems *)

Lemma index_range_nil (s e : Z) : e <= s -> index_range s e = [].
Proof. intros H. unfold index_range. replace (Z.to_nat (e - s)) with 0%nat by lia. reflexivity. Qed.

Lemma index_range_cons (s e : Z) :
  s < e -> index_range s e = s :: index_range (s + 1) e.
Proof.
  intros H. unfold index_range.
  replace (Z.to_nat (e - s)) with (S (Z.to_nat (e - (s + 1)))) by lia.
  cbn [seq map]. f_equal; [lia|].
  rewrite <- seq_shift, map_map. apply map_ext. intros; lia.
Qed.

Lemma index_range_snoc (s e : Z) :
  s <= e -> index_range s (e + 1) = index_range s e ++ [e].
Proof.
  intros H. unfold index_range.
  replace (Z.to_nat (e + 1 - s)) with (Z.to_nat (e - s) + 1)%nat by lia.
  rewrite seq_app, map_app. cbn [seq map]. repeat f_equal. lia.
Qed.

Lemma items_between_cons {A : Type} (source : list A) (s e : Z) (x : A) :
  0 <= s < e -> source !! Z.to_nat s = Some x ->
  items_between source s e = x :: items_between source (s + 1) e.
Proof.
  intros H Hx. unfold items_between.
  rewrite (drop_S _ _ _ Hx).
  replace (Z.to_nat (e - s)) with (S (Z.to_nat (e - (s + 1)))) by lia.
  replace (Z.to_nat (s + 1)) with (S (Z.to_nat s)) by lia. reflexivity.
Qed.

Lemma bind_Ok {A B : Type} (a : A) (f : A -> outcome B) : (Ok a ≫= f) = f a.
Proof. reflexivity. Qed.

Lemma index_slice_Some {A : Type} (source : list A) (i : Z) (x : A) :
  0 <= i -> source !! Z.to_nat i = Some x -> index_slice source i = Ok x.
Proof.
  intros Hi Hx. unfold index_slice. destruct (i <? 0) eqn:E; [lia|]. rewrite Hx. reflexivity.
Qed.

Lemma extract_loop {A : Type} (source : list A) (n : nat) :
  forall (s : Z) (acc : list A),
    0 <= s -> s + Z.of_nat n <= len source ->
    foldM (fun items i => x ← index_slice source i; Ok (items ++ [x]))
          (index_range s (s + Z.of_nat n)) acc
    = Ok (acc ++ items_between source s (s + Z.of_nat n)).
Proof.
  induction n as [|n IH]; intros s acc Hs Hn.
  - rewrite index_range_nil by lia. unfold items_between.
    replace (Z.to_nat (s + Z.of_nat 0 - s)) with 0%nat by lia.
    simpl. rewrite app_nil_r. reflexivity.
  - rewrite index_range_cons by lia. cbn [foldM].
    destruct (source !! Z.to_nat s) as [x|] eqn:Hx.
    + rewrite (index_slice_Some _ _ _ Hs Hx). rewrite !bind_Ok. replace (s + Z.of_nat (S n)) with ((s + 1) + Z.of_nat n) by lia.
      rewrite IH by (unfold len in *; lia).
      rewrite (items_between_cons source s (s + 1 + Z.of_nat n) x) by (auto; lia).
      rewrite <- app_assoc. reflexivity.
    + apply lookup_ge_None in Hx. unfold len in *. lia.
Qed.

Lemma foldM_app {A S : Type} (f : S -> A -> outcome S) (l1 l2 : list A) (s : S) :
  foldM f (l1 ++ l2) s = (s' ← foldM f l1 s; foldM f l2 s').
Proof.
  revert s. induction l1 as [|x l1 IH]; intros s; simpl; [reflexivity|].
  destruct (f s x); simpl; auto.
Qed.

Lemma ExtractItems_acc {A : Type} (source : list A) (rs : Regions) :
  is_int (len source) -> Forall (within (len source)) rs ->
  forall acc,
    foldM (fun result r =>
           _ ← make_cap (Region_Len r);
           items ← foldM (fun items i => x ← index_slice source i; Ok (items ++ [x]))
                          (index_range (Start r) (End r)) [];
           Ok (result ++ [items]))
        rs acc
    = Ok (acc ++ map (fun r => items_between source (Start r) (End r)) rs).
Proof.
  intros Hlen Hrs. induction Hrs as [|r rs Hr Hrs IH]; intros acc; simpl.
  - rewrite app_nil_r. reflexivity.
  - destruct Hr as [Hr1 Hr2].
    unfold make_cap, Region_Len, int_sub.
    rewrite wrap_id by (unfold is_int, int_min, int_max in *; lia).
    destruct (End r - Start r <? 0) eqn:E; [lia|]. rewrite bind_Ok.
    replace (End r) with (Start r + Z.of_nat (Z.to_nat (End r - Start r))) at 1 by lia.
    rewrite extract_loop by lia. rewrite !bind_Ok.
    replace (Start r + Z.of_nat (Z.to_nat (End r - Start r))) with (End r) by lia.
    rewrite IH, <- app_assoc. reflexivity.
Qed.

(** X8: for well-formed regions inside the bounds of [source],
    [rs.ExtractItems(source)] returns without a panic, with one sub-slice
    [source[r.Start:r.End]] for every region, in the order of the regions
    (which may overlap or be unsorted). *)
Theorem ExtractItems_within {A : Type} (rs : Regions) (source : list A) :
  is_int (len source) -> Forall (within (len source)) rs ->
  Regions_ExtractItems rs source =
  Ok (map (fun r => items_between source (Start r) (End r)) rs).
Proof. intros Hlen Hrs. unfold Regions_ExtractItems. rewrite ExtractItems_acc; auto. Qed.

Lemma ExtractItems_within_witness :
  Regions_ExtractItems [mkRegion 1 3; mkRegion 0 2] [10; 20; 30; 40] =
  Ok (map (fun r => items_between [10; 20; 30; 40] (Start r) (End r))
          [mkRegion 1 3; mkRegion 0 2]).
Proof.
  apply (ExtractItems_within [mkRegion 1 3; mkRegion 0 2] [10; 20; 30; 40]).
  - unfold is_int, int_min, int_max, len. cbn [length]. lia.
  - repeat constructor; unfold len; cbn [Start End length]; lia.
Defined.

(** ** NewRegionForEachIndex *)

Lemma index_range_one (i : Z) : index_range i (i + 1) = [i].
Proof. rewrite index_range_cons by lia. rewrite index_range_nil by lia. reflexivity. Qed.

(** X9: [NewRegionForEachIndex(indicies).ToIndicies()] gives the indices
    back, in their order and with their duplicates, as long as no index is
    the largest [int] (whose successor wraps around). *)
Theorem NewRegionForEachIndex_indices (indicies : list Z) :
  Forall (fun i => int_min <= i < int_max) indicies ->
  Regions_ToIndicies (NewRegionForEachIndex indicies) = indicies.
Proof.
  intros H. induction H as [|i l Hi Hl IH]; [reflexivity|].
  unfold Regions_ToIndicies, NewRegionForEachIndex in *. cbn [map flat_map Start End].
  rewrite IH. unfold int_add.
  rewrite wrap_id by (unfold is_int; lia). rewrite index_range_one. reflexivity.
Qed.

Lemma NewRegionForEachIndex_indices_witness :
  Regions_ToIndicies (NewRegionForEachIndex [4; 1; 1; -3]) = [4; 1; 1; -3].
Proof.
  apply (NewRegionForEachIndex_indices [4; 1; 1; -3]).
  repeat constructor; unfold int_min, int_max; lia.
Defined.

(** ** Regions.MergeItems *)

Lemma len_app {A : Type} (a b : list A) : len (a ++ b) = len a + len b.
Proof. unfold len. rewrite length_app. lia. Qed.

Lemma len_nonneg {A : Type} (a : list A) : 0 <= len a.
Proof. unfold len. lia. Qed.

Lemma len_items_between {A : Type} (source : list A) (s e : Z) :
  0 <= s <= e -> e <= len source -> len (items_between source s e) = e - s.
Proof.
  intros H1 H2. unfold items_between, len in *.
  rewrite length_take, length_drop. lia.
Qed.

Lemma take_items_between {A : Type} (source : list A) (s e : Z) :
  0 <= s <= e ->
  take (Z.to_nat s) source ++ items_between source s e = take (Z.to_nat e) source.
Proof.
  intros H. unfold items_between. rewrite take_take_drop. f_equal. lia.
Qed.

Lemma items_between_prefix {A : Type} (a b : list A) (s e : Z) :
  0 <= s <= e -> e <= len a ->
  items_between (a ++ b) s e = items_between a s e.
Proof.
  intros H1 H2. unfold items_between, len in *.
  rewrite drop_app_le by lia. rewrite take_app_le; [reflexivity|].
  rewrite length_drop. lia.
Qed.

Lemma items_between_suffix {A : Type} (a b : list A) :
  items_between (a ++ b) (len a) (len a + len b) = b.
Proof.
  unfold items_between, len.
  replace (Z.to_nat (Z.of_nat (length a))) with (length a) by lia.
  rewrite drop_app_length.
  replace (Z.to_nat (Z.of_nat (length a) + Z.of_nat (length b) - Z.of_nat (length a)))
    with (length b) by lia.
  apply firstn_all.
Qed.

Section Merge.
Context {A : Type}.
Variables (source : list A) (replace : list (list A)).

(** Merging back what [ExtractItems] took out. *)
Lemma MergeItems_step_restore (r : Region) (k : nat) (done : Regions) (sourceIndex : Z) :
  is_int (len source) ->
  replace !! k = Some (items_between source (Start r) (End r)) ->
  0 <= sourceIndex <= Start r -> within (len source) r ->
  MergeItems_step source replace
    (k, sourceIndex, take (Z.to_nat sourceIndex) source, done) r
  = Ok (S k, End r, take (Z.to_nat (End r)) source, done ++ [r]).
Proof.
  intros Hint Hk Hs [Hr1 Hr2]. unfold MergeItems_step.
  replace (Z.min (Start r) (len source)) with (Start r) by lia.
  assert (Hm : take (Z.to_nat sourceIndex) source ++
               (if sourceIndex <? Start r then items_between source sourceIndex (Start r) else [])
               = take (Z.to_nat (Start r)) source).
  { destruct (sourceIndex <? Start r) eqn:E.
    - apply take_items_between. lia.
    - rewrite app_nil_r. f_equal. lia. }
  assert (Hl : len (take (Z.to_nat (Start r)) source) = Start r).
  { unfold len in *. rewrite length_take. lia. }
  rewrite Hk.
  destruct (sourceIndex <? Start r) eqn:E;
    [destruct (sourceIndex <? 0) eqn:E0; [lia|]|];
    rewrite bind_Ok, Hm, take_items_between by lia;
    rewrite Hl, len_items_between by lia; unfold int_add;
    rewrite wrap_id by (unfold is_int, int_min, int_max in *; lia);
    replace (Start r + (End r - Start r)) with (End r) by lia;
    destruct r; reflexivity.
Qed.

Lemma MergeItems_loop_restore (rs : Regions) :
  is_int (len source) ->
  forall (done : Regions) (sourceIndex : Z),
    replace = map (fun r => items_between source (Start r) (End r)) (done ++ rs) ->
    0 <= sourceIndex <= len source ->
    Check_from sourceIndex rs = true ->
    Forall (within (len source)) rs ->
    exists sourceIndex',
      0 <= sourceIndex' <= len source /\
      foldM (MergeItems_step source replace) rs
            (length done, sourceIndex, take (Z.to_nat sourceIndex) source, done)
      = Ok (length (done ++ rs), sourceIndex',
            take (Z.to_nat sourceIndex') source, done ++ rs).
Proof.
  intros Hint. induction rs as [|r rs IH]; intros done sourceIndex Hrep Hs Hc Hw.
  - exists sourceIndex. rewrite app_nil_r. auto.
  - apply Check_from_cons in Hc as [Hc1 Hc2].
    apply Forall_cons in Hw as [Hr Hw']. pose proof Hr as [Hr1 Hr2].
    assert (Hk : replace !! length done = Some (items_between source (Start r) (End r))).
    { rewrite Hrep, list_lookup_fmap, lookup_app_r by lia.
      replace (length done - length done)%nat with 0%nat by lia. reflexivity. }
    cbn [foldM]. rewrite MergeItems_step_restore by (auto; lia). rewrite bind_Ok.
    destruct (IH (done ++ [r]) (End r)) as (s' & Hs' & Heq); auto.
    { rewrite <- app_assoc. exact Hrep. }
    { lia. }
    exists s'. split; [assumption|].
    rewrite length_app in Heq. cbn [length] in Heq.
    replace (length done + 1)%nat with (S (length done)) in Heq by lia.
    etrans; [exact Heq|]. rewrite <- !app_assoc. reflexivity.
Qed.

End Merge.

(** X10: merging back what was extracted changes nothing:
    for well-formed regions in the bounds of [source] that pass
    [Regions.Check], [rs.MergeItems(source, rs.ExtractItems(source))]
    returns [source] and the regions [rs] themselves. *)
Theorem MergeItems_restores {A : Type} (rs : Regions) (source : list A) :
  is_int (len source) -> Regions_Check rs = true ->
  Forall (within (len source)) rs ->
  exists items,
    Regions_ExtractItems rs source = Ok items /\
    Regions_MergeItems rs source items = Ok (source, rs).
Proof.
  intros Hint Hc Hw.
  exists (map (fun r => items_between source (Start r) (End r)) rs).
  split; [unfold Regions_ExtractItems; rewrite ExtractItems_acc by assumption; reflexivity|].
  unfold Regions_MergeItems.
  destruct (MergeItems_loop_restore source
              (map (fun r => items_between source (Start r) (End r)) rs)
              rs Hint [] 0) as (s' & Hs' & Heq); auto.
  { pose proof (len_nonneg source). lia. }
  cbn [length take Z.to_nat] in Heq. change (Z.to_nat 0) with 0%nat in Heq.
  rewrite take_0 in Heq. unfold Regions in *. rewrite Heq, bind_Ok. cbn [app].
  destruct (s' <? len source) eqn:E.
  - destruct (s' <? 0) eqn:E0; [lia|]. rewrite take_drop. reflexivity.
  - rewrite take_ge by (unfold len in *; lia). reflexivity.
Qed.

Lemma MergeItems_restores_witness :
  exists items,
    Regions_ExtractItems [mkRegion 1 2; mkRegion 3 4] [10; 20; 30; 40] = Ok items /\
    Regions_MergeItems [mkRegion 1 2; mkRegion 3 4] [10; 20; 30; 40] items
    = Ok ([10; 20; 30; 40], [mkRegion 1 2; mkRegion 3 4]).
Proof.
  apply (MergeItems_restores [mkRegion 1 2; mkRegion 3 4] [10; 20; 30; 40]).
  - unfold is_int, int_min, int_max, len. cbn [length]. lia.
  - reflexivity.
  - repeat constructor; unfold len; cbn [Start End length]; lia.
Defined.

Section MergeLocate.
Context {A : Type}.
Variables (source : list A) (replace : list (list A)).

Lemma len_concat_take (k : nat) :
  len (concat (take k replace)) <= len (concat replace).
Proof.
  rewrite <- (take_drop k replace) at 2. rewrite concat_app, len_app.
  pose proof (len_nonneg (concat (drop k replace))). lia.
Qed.

Lemma within_mono (n m : Z) (r : Region) : n <= m -> within n r -> within m r.
Proof. unfold within. lia. Qed.

Lemma located_prefix (merged more : list A) (out : Regions) :
  Forall (within (len merged)) out ->
  map (fun r => items_between (merged ++ more) (Start r) (End r)) out =
  map (fun r => items_between merged (Start r) (End r)) out.
Proof.
  intros H. induction H as [|r out [Hr1 Hr2] Hout IH]; simpl; [reflexivity|].
  rewrite IH, items_between_prefix by lia. reflexivity.
Qed.

Lemma MergeItems_step_inv (st : nat * Z * list A * Regions) (r : Region) :
  len source + len (concat replace) <= int_max ->
  Merge_inv source replace st ->
  (st.1.1.1 < length replace)%nat ->
  st.1.1.2 <= Start r <= End r ->
  exists merged out,
    MergeItems_step source replace st r = Ok (S st.1.1.1, End r, merged, out) /\
    Merge_inv source replace (S st.1.1.1, End r, merged, out).
Proof.
  destruct st as [[[k sourceIndex] merged] out]. cbn [fst snd].
  intros Hint (Hs & Hlen & Hout & Hmap) Hk Hr.
  destruct (lookup_lt_is_Some_2 replace k Hk) as [insert Hins].
  unfold MergeItems_step. rewrite Hins.
  set (bound := Z.min (Start r) (len source)).
  set (copied := if sourceIndex <? bound then items_between source sourceIndex bound else []).
  assert (Hcop : (if sourceIndex <? bound
                  then if sourceIndex <? 0 then Panic panic_index
                       else Ok (items_between source sourceIndex bound)
                  else Ok []) = Ok copied).
  { unfold copied. destruct (sourceIndex <? bound); [|reflexivity].
    destruct (sourceIndex <? 0) eqn:E; [lia|reflexivity]. }
  rewrite Hcop, bind_Ok.
  assert (Hlc : len copied = Z.max 0 (bound - sourceIndex)).
  { unfold copied. destruct (sourceIndex <? bound) eqn:E.
    - rewrite len_items_between by lia. lia.
    - unfold len. simpl. lia. }
  assert (Htk : take (S k) replace = take k replace ++ [insert])
    by (apply take_S_r; assumption).
  pose proof (len_concat_take (S k)) as Hle. rewrite Htk in Hle.
  rewrite concat_app, len_app in Hle. cbn [concat] in Hle. rewrite app_nil_r in Hle.
  pose proof (len_nonneg merged). pose proof (len_nonneg insert).
  pose proof (len_nonneg (concat (take k replace))).
  pose proof (len_nonneg source).
  assert (Hm1 : len (merged ++ copied) <= bound + len (concat (take k replace))).
  { rewrite len_app, Hlc. lia. }
  unfold int_add.
  rewrite wrap_id by (unfold is_int, int_min, int_max in *; rewrite len_app in *; lia).
  eexists _, _. split; [reflexivity|].
  unfold Merge_inv. split; [lia|]. split.
  { rewrite Htk, concat_app, !len_app. cbn [concat]. rewrite app_nil_r.
    rewrite len_app in Hm1. lia. }
  split.
  - apply Forall_app. split.
    + eapply Forall_impl; [exact Hout|]. intros x. apply within_mono.
      rewrite !len_app. lia.
    + constructor; [|constructor]. unfold within. cbn [Start End].
      rewrite !len_app. lia.
  - rewrite map_app, Htk. f_equal.
    + rewrite <- app_assoc, located_prefix by assumption. exact Hmap.
    + cbn [map Start End]. f_equal. apply items_between_suffix.
Qed.

Lemma MergeItems_loop_inv (rs : Regions) :
  len source + len (concat replace) <= int_max ->
  Forall well_formed rs ->
  forall st,
    Merge_inv source replace st ->
    (st.1.1.1 + length rs = length replace)%nat ->
    Check_from st.1.1.2 rs = true ->
    exists sourceIndex merged out,
      foldM (MergeItems_step source replace) rs st
      = Ok (length replace, sourceIndex, merged, out) /\
      Merge_inv source replace (length replace, sourceIndex, merged, out).
Proof.
  intros Hint Hwf. induction Hwf as [|r rs Hr Hwf IH]; intros st Hinv Hk Hc.
  - destruct st as [[[k sourceIndex] merged] out]. cbn [fst snd length] in *.
    replace (length replace) with k by lia. eauto.
  - apply Check_from_cons in Hc as [Hc1 Hc2].
    destruct (MergeItems_step_inv st r Hint Hinv) as (merged & out & Heq & Hinv').
    { cbn [length] in Hk. lia. }
    { unfold well_formed in Hr. lia. }
    cbn [foldM]. rewrite Heq, bind_Ok.
    apply IH; [assumption| |assumption].
    cbn [fst snd length] in *. lia.
Qed.

End MergeLocate.

(** The merged slice and the regions that [MergeItems] returns. *)
Lemma MergeItems_located {A : Type} (rs : Regions) (source : list A)
      (replace : list (list A)) :
  Regions_Check rs = true -> Forall well_formed rs ->
  length replace = length rs ->
  len source + len (concat replace) <= int_max ->
  exists merged out,
    Regions_MergeItems rs source replace = Ok (merged, out) /\
    is_int (len merged) /\ Forall (within (len merged)) out /\
    map (fun r => items_between merged (Start r) (End r)) out = replace.
Proof.
  intros Hc Hwf Hlen Hint.
  destruct (MergeItems_loop_inv source replace rs Hint Hwf (O, 0, [], []))
    as (s & merged & out & Heq & Hs & Hl & Hout & Hmap).
  { unfold Merge_inv. rewrite take_0. cbn. repeat split; try lia.
    - pose proof (len_nonneg source). lia.
    - constructor. }
  { cbn [fst snd]. lia. }
  { exact Hc. }
  rewrite firstn_all in Hmap, Hl.
  pose proof (len_nonneg merged). pose proof (len_nonneg source).
  pose proof (len_nonneg (concat replace)).
  unfold Regions_MergeItems. unfold Regions in *. rewrite Heq, bind_Ok.
  destruct (s <? len source) eqn:E.
  - destruct (s <? 0) eqn:E0; [lia|]. eexists _, _. split; [reflexivity|].
    split; [|split].
    + rewrite len_app. unfold is_int, int_min, int_max in *.
      assert (len (drop (Z.to_nat s) source) = len source - s)
        by (unfold len in *; rewrite length_drop; lia).
      lia.
    + eapply Forall_impl; [exact Hout|]. intros x. apply within_mono.
      rewrite len_app. pose proof (len_nonneg (drop (Z.to_nat s) source)). lia.
    + rewrite located_prefix by assumption. exact Hmap.
  - eexists _, _. split; [reflexivity|]. split; [|split; assumption].
    unfold is_int, int_min, int_max in *. lia.
Qed.

(** X11: the regions that [MergeItems] returns locate the replacements
    in the merged slice: for well-formed regions that pass [Regions.Check]
    and one replacement for every region, [MergeItems] returns
    [(merged, out)] with [out.ExtractItems(merged)] equal to the
    replacements, whatever their lengths. *)
Theorem MergeItems_locates {A : Type} (rs : Regions) (source : list A)
        (replace : list (list A)) :
  Regions_Check rs = true -> Forall well_formed rs ->
  length replace = length rs ->
  len source + len (concat replace) <= int_max ->
  exists merged out,
    Regions_MergeItems rs source replace = Ok (merged, out) /\
    Regions_ExtractItems out merged = Ok replace.
Proof.
  intros Hc Hwf Hlen Hint.
  destruct (MergeItems_located rs source replace Hc Hwf Hlen Hint)
    as (merged & out & Heq & Hm & Hout & Hmap).
  exists merged, out. split; [exact Heq|].
  unfold Regions_ExtractItems. rewrite ExtractItems_acc by assumption.
  rewrite app_nil_l, Hmap. reflexivity.
Qed.

Lemma MergeItems_locates_witness :
  exists merged out,
    Regions_MergeItems [mkRegion 1 2; mkRegion 3 3] [10; 20; 30; 40] [[7; 8; 9]; [5]]
    = Ok (merged, out) /\
    Regions_ExtractItems out merged = Ok [[7; 8; 9]; [5]].
Proof.
  apply (MergeItems_locates [mkRegion 1 2; mkRegion 3 3] [10; 20; 30; 40] [[7; 8; 9]; [5]]).
  - reflexivity.
  - repeat constructor; unfold well_formed; cbn [Start End]; lia.
  - reflexivity.
  - unfold int_max, len. cbn [concat app length]. lia.
Defined.

(** ** Regions.Simplify *)

Lemma Simplify_step_snoc (init : Regions) (lst r : Region) :
  Simplify_step (init ++ [lst]) r =
  if Region_Overlap lst r then init ++ [Region_Join lst r]
  else if Region_Len r >? 0 then (init ++ [lst]) ++ [r] else init ++ [lst].
Proof.
  unfold Simplify_step. rewrite last_snoc.
  destruct (Region_Overlap lst r); [|reflexivity].
  rewrite length_app. cbn [length].
  replace (Nat.pred (length init + 1)) with (length init + 0)%nat by lia.
  unfold Regions in *. rewrite insert_app_r. reflexivity.
Qed.

Lemma Region_Len_within (n : Z) (r : Region) :
  n <= int_max -> within n r -> Region_Len r = End r - Start r.
Proof.
  intros Hn [H1 H2]. unfold Region_Len, int_sub. apply wrap_id.
  unfold is_int, int_min, int_max in *. lia.
Qed.

Lemma Simplify_step_inv (w : Z) (result : Regions) (r : Region) :
  Simplify_inv w result -> w <= Start r -> within int_max r ->
  Simplify_inv (Start r) (Simplify_step result r) /\
  forall i, covers (Simplify_step result r) i <->
            covers result i \/ Region_ContainsIndex r i = true.
Proof.
  intros (Hw & Hc & Hs & Hl) Hr Hin.
  pose proof (Region_Len_within _ _ ltac:(reflexivity) Hin) as Hlen.
  destruct Hin as [Hin1 Hin2].
  destruct (decide (result = [])) as [->|Hne].
  - unfold Simplify_step. cbn [last]. rewrite Hlen.
    destruct (End r - Start r >? 0) eqn:E.
    + split.
      * unfold Simplify_inv. cbn. destruct (Start r <? 0) eqn:E0; [lia|].
        repeat split; try lia. constructor; [unfold strict; lia|constructor].
      * intros i. cbn [app]. rewrite covers_cons. tauto.
    + split.
      * unfold Simplify_inv. cbn. repeat split; try lia. constructor.
      * intros i. rewrite covers_nil, ContainsIndex_spec. lia.
  - destruct (exists_last Hne) as (init & lst & ->).
    rewrite last_snoc in Hl. rewrite Simplify_step_snoc.
    rewrite Check_from_app in Hc. apply andb_true_iff in Hc as [Hc1 Hc2].
    apply Check_from_cons in Hc2 as [Hc2 _].
    apply Forall_app in Hs as [Hs1 Hs2]. apply Forall_cons in Hs2 as [Hs2 _].
    unfold strict in Hs2.
    destruct (Region_Overlap lst r) eqn:Eo.
    + destruct (Join_shape lst r) as (Hj1 & Hj2 & Hj3);
        [lia|unfold well_formed; lia|unfold well_formed; lia|].
      split.
      * unfold Simplify_inv. rewrite last_snoc, Check_from_app, Hc1. cbn [andb].
        split; [lia|]. split.
        { apply Check_from_cons. split; [lia|reflexivity]. }
        split; [|lia].
        apply Forall_app. split; [assumption|]. constructor; [|constructor].
        unfold strict, well_formed in *.
        assert (End lst <= End (Region_Join lst r)).
        { unfold Region_Join. cbn [End]. destruct (End lst >? End r) eqn:E; lia. }
        lia.
      * intros i. rewrite !covers_app, !covers_cons, !covers_nil.
        rewrite (Join_covers _ _ _ Eo). tauto.
    + pose proof (not_Overlap_after lst r ltac:(lia) Eo) as Hafter.
      rewrite Hlen. destruct (End r - Start r >? 0) eqn:E.
      * split.
        -- unfold Simplify_inv. rewrite last_snoc, !Check_from_app, Hc1.
           rewrite last_End_app. cbn.
           destruct (Start lst <? last_End 0 init) eqn:E1; [lia|].
           destruct (Start r <? End lst) eqn:E2; [lia|].
           repeat split; try lia.
           apply Forall_app; split;
             [apply Forall_app; split; [assumption|constructor; [assumption|constructor]]
             |constructor; [unfold strict; lia|constructor]].
        -- intros i. rewrite !covers_app, !covers_cons, !covers_nil. tauto.
      * split.
        -- unfold Simplify_inv. rewrite last_snoc, !Check_from_app, Hc1. cbn.
           destruct (Start lst <? last_End 0 init) eqn:E1; [lia|].
           repeat split; try lia.
           apply Forall_app. split; [assumption|]. constructor; [assumption|constructor].
        -- intros i. rewrite ContainsIndex_spec. intuition lia.
Qed.

Lemma Simplify_loop (rs : Regions) :
  Forall (within int_max) rs ->
  forall (w : Z) (result : Regions),
    Simplify_inv w result -> CheckSorted_from w rs = true ->
    (exists w', Simplify_inv w' (fold_left Simplify_step (Regions_Compact rs) result)) /\
    forall i, covers (fold_left Simplify_step (Regions_Compact rs) result) i <->
              covers result i \/ covers rs i.
Proof.
  intros Hin. induction Hin as [|r rs Hr Hin IH]; intros w result Hinv Hs.
  - cbn. split; [eauto|]. intros i. rewrite covers_nil. tauto.
  - apply CheckSorted_from_cons in Hs as [Hs1 Hs2].
    unfold Regions_Compact in *. cbn [List.filter].
    assert (E : Region_Empty r = (End r - Start r =? 0)).
    { unfold Region_Empty. rewrite (Region_Len_within _ _ ltac:(reflexivity) Hr). reflexivity. }
    rewrite E. destruct (End r - Start r =? 0) eqn:E'; cbn [negb fold_left].
    + destruct Hinv as (Hw & Hc & Hst & Hl).
      destruct (IH (Start r) result) as [H1 H2]; auto.
      { unfold Simplify_inv. repeat split; auto; [lia|].
        destruct (last result); [lia|exact I]. }
      split; [exact H1|]. intros i. rewrite H2, covers_cons, ContainsIndex_spec. intuition lia.
    + destruct (Simplify_step_inv w result r Hinv Hs1 Hr) as [Hinv' Hcov].
      destruct (IH (Start r) (Simplify_step result r) Hinv' Hs2) as [H1 H2].
      split; [exact H1|]. intros i. rewrite H2, Hcov, covers_cons. tauto.
Qed.

(** X12: on regions sorted by their start (well-formed, of non-negative
    [int] indices) [Regions.Simplify] returns without a panic, and its
    result passes [Regions.Check] and holds no empty region. *)
Theorem Simplify_Check (rs : Regions) :
  Regions_CheckSorted rs = true -> Forall (within int_max) rs ->
  exists out,
    Regions_Simplify rs = Ok out /\
    Regions_Check out = true /\ Forall strict out.
Proof.
  intros Hs Hin. unfold Regions_Simplify. rewrite Hs. cbn [negb].
  eexists. split; [reflexivity|].
  destruct (Simplify_loop rs Hin 0 []) as [(w' & _ & Hc & Hst & _) _]; auto.
  unfold Simplify_inv. cbn. repeat split; auto. lia.
Qed.

Lemma Simplify_Check_witness :
  exists out,
    Regions_Simplify [mkRegion 0 4; mkRegion 2 2; mkRegion 3 9; mkRegion 9 12] = Ok out /\
    Regions_Check out = true /\ Forall strict out.
Proof.
  apply (Simplify_Check [mkRegion 0 4; mkRegion 2 2; mkRegion 3 9; mkRegion 9 12]).
  - reflexivity.
  - repeat constructor; unfold int_max; cbn [Start End]; lia.
Defined.

(** X13: [Regions.Simplify] keeps the set of indices: on the same inputs,
    its result enumerates exactly the indices of [rs]. *)
Theorem Simplify_indices (rs : Regions) (i : Z) :
  Regions_CheckSorted rs = true -> Forall (within int_max) rs ->
  exists out,
    Regions_Simplify rs = Ok out /\
    (i ∈ Regions_ToIndicies out <-> i ∈ Regions_ToIndicies rs).
Proof.
  intros Hs Hin. unfold Regions_Simplify. rewrite Hs. cbn [negb].
  eexists. split; [reflexivity|].
  destruct (Simplify_loop rs Hin 0 []) as [_ Hcov]; auto.
  { unfold Simplify_inv. cbn. repeat split; auto. lia. }
  rewrite !ToIndicies_covers, Hcov, covers_nil. tauto.
Qed.

Lemma Simplify_indices_witness :
  exists out,
    Regions_Simplify [mkRegion 0 4; mkRegion 2 2; mkRegion 3 9] = Ok out /\
    (5 ∈ Regions_ToIndicies out <->
     5 ∈ Regions_ToIndicies [mkRegion 0 4; mkRegion 2 2; mkRegion 3 9]).
Proof.
  apply (Simplify_indices [mkRegion 0 4; mkRegion 2 2; mkRegion 3 9] 5).
  - reflexivity.
  - repeat constructor; unfold int_max; cbn [Start End]; lia.
Defined.

(** ** NewRegionsFromIndicies *)

Lemma insert_int_perm (x : Z) (l : list Z) : Permutation (x :: l) (insert_int x l).
Proof.
  induction l as [|y l IH]; simpl; [reflexivity|].
  destruct (x <=? y); [reflexivity|].
  rewrite perm_swap. constructor. exact IH.
Qed.

Lemma sort_Ints_perm (l : list Z) : Permutation l (sort_Ints l).
Proof.
  induction l as [|x l IH]; simpl; [reflexivity|].
  rewrite <- insert_int_perm. constructor. exact IH.
Qed.

Lemma insert_int_sorted (x : Z) (l : list Z) :
  StronglySorted Z.le l -> StronglySorted Z.le (insert_int x l).
Proof.
  induction 1 as [|y l Hs IH Hf]; simpl.
  - constructor; constructor.
  - destruct (x <=? y) eqn:E.
    + constructor; [constructor; assumption|].
      constructor; [lia|]. eapply Forall_impl; [exact Hf|]. intros; lia.
    + constructor; [assumption|].
      rewrite <- insert_int_perm. constructor; [lia|assumption].
Qed.

Lemma sort_Ints_sorted (l : list Z) : StronglySorted Z.le (sort_Ints l).
Proof.
  induction l as [|x l IH]; simpl; [constructor|]. apply insert_int_sorted, IH.
Qed.

Lemma Region_Empty_strict (r : Region) :
  is_int (Start r) -> is_int (End r) -> Start r < End r -> Region_Empty r = false.
Proof.
  unfold Region_Empty, Region_Len, int_sub, wrap, is_int, int_min, int_max.
  intros H1 H2 H3. apply Z.eqb_neq. intros H.
  assert (Hm : (End r - Start r + 2 ^ 63) mod 2 ^ 64 = 2 ^ 63) by lia.
  destruct (Z.le_gt_cases (2 ^ 63) (End r - Start r)).
  - replace (End r - Start r + 2 ^ 63) with ((End r - Start r - 2 ^ 63) + 1 * 2 ^ 64) in Hm by lia.
    rewrite Z.mod_add in Hm by lia. rewrite Z.mod_small in Hm by lia. lia.
  - rewrite Z.mod_small in Hm by lia. lia.
Qed.

Lemma ToIndicies_app (a b : Regions) :
  Regions_ToIndicies (a ++ b) = Regions_ToIndicies a ++ Regions_ToIndicies b.
Proof. unfold Regions_ToIndicies. apply flat_map_app. Qed.

Lemma FromIndicies_step_inv (seen : list Z) (st : Regions * Region) (index : Z) :
  int_min <= index < int_max ->
  FromIndicies_inv seen st ->
  FromIndicies_inv (seen ++ [index]) (FromIndicies_step st index).
Proof.
  destruct st as [result next]. intros Hi (Hseen & Hs & He & Hle & Hempty).
  unfold FromIndicies_step, int_add. rewrite wrap_id by (unfold is_int; lia).
  assert (Hnew : Region_Empty (mkRegion index (index + 1)) = false).
  { apply Region_Empty_strict; cbn [Start End]; unfold is_int; lia. }
  destruct (Z.eq_dec (Start next) (End next)) as [Heq|Hne].
  - assert (Hemp : Region_Empty next = true).
    { unfold Region_Empty, Region_Len, int_sub. rewrite Heq, Z.sub_diag. reflexivity. }
    rewrite Hemp. unfold FromIndicies_inv, closed_indices in *. rewrite Hnew. cbn [negb Start End].
    rewrite Hemp in Hseen. cbn [negb] in Hseen.
    rewrite ToIndicies_app, Hseen. unfold Regions_ToIndicies at 1. cbn [flat_map Start End].
    rewrite index_range_one, app_nil_r. unfold is_int. repeat split; try lia.
  - assert (Hemp : Region_Empty next = false) by (apply Region_Empty_strict; auto; lia).
    rewrite Hemp. unfold FromIndicies_inv, closed_indices in *.
    rewrite Hemp in Hseen. cbn [negb] in Hseen. rewrite ToIndicies_app in Hseen.
    unfold Regions_ToIndicies at 2 in Hseen. cbn [flat_map] in Hseen.
    rewrite app_nil_r in Hseen.
    destruct (End next =? index) eqn:E.
    + apply Z.eqb_eq in E. subst index.
      assert (Hext : Region_Empty (mkRegion (Start next) (End next + 1)) = false).
      { apply Region_Empty_strict; cbn [Start End]; unfold is_int in *; lia. }
      rewrite Hext. cbn [negb Start End]. rewrite ToIndicies_app.
      unfold Regions_ToIndicies at 2. cbn [flat_map Start End].
      rewrite app_nil_r, index_range_snoc by lia. rewrite app_assoc, Hseen.
      unfold is_int in *. repeat split; try lia.
    + rewrite Hnew. cbn [negb Start End]. rewrite !ToIndicies_app.
      unfold Regions_ToIndicies at 2 3. cbn [flat_map Start End].
      rewrite !app_nil_r, index_range_one, Hseen.
      unfold is_int in *. repeat split; try lia.
Qed.

Lemma FromIndicies_loop (l : list Z) :
  Forall (fun i => int_min <= i < int_max) l ->
  forall seen st,
    FromIndicies_inv seen st ->
    FromIndicies_inv (seen ++ l) (fold_left FromIndicies_step l st).
Proof.
  induction 1 as [|i l Hi Hl IH]; intros seen st Hinv; cbn [fold_left].
  - rewrite app_nil_r. exact Hinv.
  - replace (seen ++ i :: l) with ((seen ++ [i]) ++ l) by (rewrite <- app_assoc; reflexivity).
    apply IH, FromIndicies_step_inv; assumption.
Qed.

(** X14: [NewRegionsFromIndicies] loses no index: the regions it returns
    enumerate the given indices in increasing order, duplicates included,
    which is also what the call leaves behind in its argument.  No index
    may be the largest [int]. *)
Theorem NewRegionsFromIndicies_indices (indicies : list Z) :
  Forall (fun i => int_min <= i < int_max) indicies ->
  Regions_ToIndicies (NewRegionsFromIndicies indicies).2
  = (NewRegionsFromIndicies indicies).1 /\
  StronglySorted Z.le (NewRegionsFromIndicies indicies).1 /\
  Permutation indicies (NewRegionsFromIndicies indicies).1.
Proof.
  intros H. unfold NewRegionsFromIndicies.
  assert (Hs : Forall (fun i => int_min <= i < int_max) (sort_Ints indicies)).
  { apply List.Forall_forall. intros x Hx.
    rewrite List.Forall_forall in H. apply H.
    apply Permutation_in with (l := sort_Ints indicies); [|exact Hx].
    symmetry. apply sort_Ints_perm. }
  pose proof (FromIndicies_loop _ Hs [] ([], mkRegion 0 0)) as Hinv.
  destruct (fold_left FromIndicies_step (sort_Ints indicies) ([], mkRegion 0 0))
    as [result next].
  destruct Hinv as (Hseen & _).
  { unfold FromIndicies_inv, closed_indices, is_int, int_min, int_max. cbn. repeat split; lia. }
  split; [exact Hseen|]. split; [apply sort_Ints_sorted|apply sort_Ints_perm].
Qed.

Lemma NewRegionsFromIndicies_indices_witness :
  Regions_ToIndicies (NewRegionsFromIndicies [7; 2; 3; 8; 3]).2
  = (NewRegionsFromIndicies [7; 2; 3; 8; 3]).1 /\
  StronglySorted Z.le (NewRegionsFromIndicies [7; 2; 3; 8; 3]).1 /\
  Permutation [7; 2; 3; 8; 3] (NewRegionsFromIndicies [7; 2; 3; 8; 3]).1.
Proof.
  apply (NewRegionsFromIndicies_indices [7; 2; 3; 8; 3]).
  repeat constructor; unfold int_min, int_max; lia.
Defined.

(** ** Regions.InsertAt and Regions.Cut *)

Ltac unwrap Hw :=
  repeat match goal with
         | |- context [wrap ?z] => rewrite (Hw z) by lia
         end.

Lemma InsertAt_Cut_one (r other : Region) :
  0 <= Start r <= End r -> 0 <= Start other <= End other ->
  End r + (End other - Start other) <= int_max ->
  Start r <> Start other \/ Start other = End other ->
  Region_Cut
    (if Region_IsAfter r (Start other) then Region_Shift r (Region_Len other)
     else if Region_ContainsIndex r (Start other) then Region_Grow r (Region_Len other)
     else r) other = r.
Proof.
  destruct r as [s e], other as [s' e']. cbn [Start End].
  intros Hr Ho Hmax Hne.
  assert (Hw : forall z, - int_max <= z <= int_max -> wrap z = z).
  { intros z Hz. apply wrap_id. unfold is_int, int_min, int_max in *. lia. }
  unfold Region_IsAfter, Region_ContainsIndex, Region_Shift, Region_Grow, Region_Len,
    int_add, int_sub. cbn [Start End].
  destruct (s >=? s') eqn:E1; [|destruct ((s' >=? s) && (s' <? e)) eqn:E2];
    unfold Region_Cut, Region_Shift, Region_Shrink, Region_Len, int_neg, int_add, int_sub;
    cbn [Start End]; unwrap Hw;
    repeat match goal with
           | |- context [if ?b then _ else _] => destruct b eqn:?
           end;
    unwrap Hw; f_equal; lia.
Qed.

(** X15: [Cut] undoes [InsertAt]: after room for the items of [other]
    has been made in the regions [rs], cutting [other] out again gives
    [rs] back.  The exception are the regions that start exactly where a
    non-empty [other] is inserted. *)
Theorem InsertAt_Cut (rs : Regions) (other : Region) :
  0 <= Start other <= End other -> End other <= int_max ->
  Forall (fun r => 0 <= Start r <= End r /\
                   End r + (End other - Start other) <= int_max /\
                   (Start r <> Start other \/ Start other = End other)) rs ->
  exists inserted,
    Regions_InsertAt rs other = Ok inserted /\
    Regions_Cut inserted other = rs.
Proof.
  intros Ho Hmax Hrs. unfold Regions_InsertAt.
  destruct (Region_Len other <? 0) eqn:E.
  - exfalso. unfold Region_Len, int_sub in E.
    rewrite wrap_id in E by (unfold is_int, int_min, int_max in *; lia). lia.
  - eexists. split; [reflexivity|].
    unfold Regions_Cut. rewrite map_map.
    induction Hrs as [|r rs (H1 & H2 & H3) Hrs IH]; cbn [map]; [reflexivity|].
    rewrite InsertAt_Cut_one by auto. f_equal. exact IH.
Qed.

Lemma InsertAt_Cut_witness :
  exists inserted,
    Regions_InsertAt [mkRegion 0 2; mkRegion 3 6; mkRegion 8 9] (mkRegion 4 7) = Ok inserted /\
    Regions_Cut inserted (mkRegion 4 7) = [mkRegion 0 2; mkRegion 3 6; mkRegion 8 9].
Proof.
  apply (InsertAt_Cut [mkRegion 0 2; mkRegion 3 6; mkRegion 8 9] (mkRegion 4 7)).
  - cbn [Start End]. lia.
  - cbn [Start End]. unfold int_max. lia.
  - repeat constructor; cbn [Start End]; unfold int_max; lia.
Defined.

(** ** Variables: Set and Value *)

Lemma outcome_bind_Ok {A B : Type} (m : outcome A) (f : A -> outcome B) (b : B) :
  (m ≫= f) = Ok b -> exists a, m = Ok a /\ f a = Ok b.
Proof. destruct m; try discriminate. intros H. eauto. Qed.

Lemma toCanonicalType_Ok (v w : value) : toCanonicalType v = Ok w -> w = v /\ v <> VNil.
Proof. destruct v; simpl; intros [= <-]; split; congruence. Qed.

Lemma as_map_Ok (v : value) (m : gmap string value) : as_map v = Ok m -> v = VMap m.
Proof. destruct v; simpl; congruence. Qed.

Lemma as_slice_Ok (v : value) (l : list value) : as_slice v = Ok l -> v = VSlice l.
Proof. destruct v; simpl; congruence. Qed.

Lemma VarRef_ind' (P : VarRef -> Prop) :
  (forall i d k, P (mkVarRef i d k CellRoot)) ->
  (forall i d k v, P (mkVarRef i d k (CellLiteral v))) ->
  (forall i d k parent key, P parent -> P (mkVarRef i d k (CellMapEntry parent key))) ->
  (forall i d k parent index, P parent -> P (mkVarRef i d k (CellArrayEntry parent index))) ->
  forall r, P r.
Proof.
  intros H1 H2 H3 H4. fix IH 1. intros [i d k c]. destruct c.
  - apply H1.
  - apply H2.
  - apply H3, IH.
  - apply H4, IH.
Qed.

Lemma slice_assign_Ok (items : list value) (index : Z) (v : value) (out : list value) :
  slice_assign items index v = Ok out ->
  0 <= index /\ (Z.to_nat index < length items)%nat /\ out = <[Z.to_nat index := v]> items.
Proof.
  unfold slice_assign. destruct (index <? 0) eqn:E; [discriminate|].
  destruct (Z.to_nat index <? length items)%nat eqn:E'; [|discriminate].
  intros [= <-]. apply Nat.ltb_lt in E'. repeat split; auto. lia.
Qed.

Lemma setter_getter (data : value) (r : VarRef) :
  forall v data', VarRef_setter data r v = Ok data' -> VarRef_getter data' r = Ok v.
Proof.
  induction r as [i d k|i d k lit|i d k parent key IH|i d k parent index IH]
    using VarRef_ind'; intros v data'; cbn [VarRef_setter VarRef_getter].
  - congruence.
  - discriminate.
  - intros H.
    apply outcome_bind_Ok in H as (pv & _ & H).
    apply outcome_bind_Ok in H as (m & _ & H).
    apply outcome_bind_Ok in H as (_ & _ & H).
    rewrite (IH _ _ H). cbn. unfold map_index. rewrite lookup_insert_eq. reflexivity.
  - intros H.
    apply outcome_bind_Ok in H as (pv & _ & H).
    apply outcome_bind_Ok in H as (current & _ & H).
    apply outcome_bind_Ok in H as (mutated & Hm & H).
    apply outcome_bind_Ok in H as (_ & _ & H).
    apply slice_assign_Ok in Hm as (H0 & Hlt & ->).
    rewrite (IH _ _ H). cbn. apply index_slice_Some; [assumption|].
    apply list_lookup_insert_eq. assumption.
Qed.

(** X16: what [VarRef.Set] has written, [VarRef.Value] reads: when
    [Set(v)] returns without error or panic on a variable of the document,
    the variable's value afterwards is [v]. *)
Theorem VarRef_Set_then_Value (data : value) (r : VarRef) (v : value) (data' : value) :
  VarRef_Set data r v = Ok data' -> VarRef_Value data' r = Ok v.
Proof.
  unfold VarRef_Set, VarRef_Value. intros H.
  apply outcome_bind_Ok in H as (_ & _ & H). exact (setter_getter _ _ _ _ H).
Qed.

Lemma VarRef_Set_then_Value_witness :
  VarRef_Value (VMap {[ "a" := VInt 2 ]})
    (mkVarRef "$.a" 2 (KeyString "a") (CellMapEntry rootVar "a")) = Ok (VInt 2).
Proof.
  apply (VarRef_Set_then_Value doc_a
           (mkVarRef "$.a" 2 (KeyString "a") (CellMapEntry rootVar "a")) (VInt 2)).
  vm_compute. reflexivity.
Defined.

Lemma setter_total (data : value) (r : VarRef) :
  rooted r ->
  forall old v, VarRef_getter data r = Ok old ->
  exists data', VarRef_setter data r v = Ok data'.
Proof.
  induction r as [i d k|i d k lit|i d k parent key IH|i d k parent index IH]
    using VarRef_ind'; intros Hr old v; cbn [VarRef_setter VarRef_getter rooted] in *.
  - eauto.
  - contradiction.
  - intros H.
    apply outcome_bind_Ok in H as (pv & Hpv & H).
    apply outcome_bind_Ok in H as (cv & Hcv & H).
    apply outcome_bind_Ok in H as (m & Hm & H).
    unfold VarRef_CanonicalValue. rewrite Hpv. cbn. rewrite Hcv. cbn. rewrite Hm. cbn.
    apply (IH Hr pv). exact Hpv.
  - intros H.
    apply outcome_bind_Ok in H as (pv & Hpv & H).
    apply outcome_bind_Ok in H as (cv & Hcv & H).
    apply outcome_bind_Ok in H as (items & Hitems & H).
    unfold VarRef_CanonicalValue. rewrite Hpv. cbn. rewrite Hcv. cbn. rewrite Hitems. cbn.
    unfold index_slice in H. unfold slice_assign.
    destruct (index <? 0) eqn:E; [discriminate|].
    destruct (items !! Z.to_nat index) as [x|] eqn:Hx; [|discriminate].
    apply lookup_lt_Some in Hx. apply Nat.ltb_lt in Hx. rewrite Hx. cbn.
    apply (IH Hr pv). exact Hpv.
Qed.

(** [Set(nil)] gets no further than [assertIsCompatible]. *)
Lemma VarRef_Set_nil (data : value) (r : VarRef) :
  VarRef_Set data r VNil = Panic panic_nil.
Proof. reflexivity. Qed.



(** ** Regions.IndiciesCount *)

Lemma len_index_range (s e : Z) : s <= e -> len (index_range s e) = e - s.
Proof. intros H. unfold len, index_range. rewrite length_map, length_seq. lia. Qed.

Lemma IndiciesCount_acc (rs : Regions) :
  Forall well_formed rs ->
  forall acc, 0 <= acc -> acc + len (Regions_ToIndicies rs) <= int_max ->
  fold_left (fun result r => int_add result (Region_Len r)) rs acc
  = acc + len (Regions_ToIndicies rs).
Proof.
  induction 1 as [|r rs Hr Hrs IH]; intros acc Hacc Hmax; cbn [fold_left].
  - unfold Regions_ToIndicies, len. cbn. lia.
  - unfold Regions_ToIndicies in *. cbn [flat_map] in *. rewrite len_app in *.
    unfold well_formed in Hr. rewrite len_index_range in * by assumption.
    pose proof (len_nonneg (flat_map (fun r => index_range (Start r) (End r)) rs)).
    unfold Region_Len, int_add, int_sub.
    rewrite (wrap_id (End r - Start r)) by (unfold is_int, int_min, int_max in *; lia).
    rewrite wrap_id by (unfold is_int, int_min, int_max in *; lia).
    rewrite IH by lia. lia.
Qed.

(** X18: [IndiciesCount] is the number of indices that [ToIndicies]
    enumerates, for well-formed regions whose indices can be counted in an
    [int].  (Overlapping regions count their common indices twice, in
    both.) *)
Theorem IndiciesCount_ToIndicies (rs : Regions) :
  Forall well_formed rs -> len (Regions_ToIndicies rs) <= int_max ->
  Regions_IndiciesCount rs = len (Regions_ToIndicies rs).
Proof.
  intros Hw Hmax. unfold Regions_IndiciesCount.
  rewrite IndiciesCount_acc; auto; lia.
Qed.

Lemma IndiciesCount_ToIndicies_witness :
  Regions_IndiciesCount [mkRegion 2 5; mkRegion 4 4; mkRegion 4 6]
  = len (Regions_ToIndicies [mkRegion 2 5; mkRegion 4 4; mkRegion 4 6]).
Proof.
  apply (IndiciesCount_ToIndicies [mkRegion 2 5; mkRegion 4 4; mkRegion 4 6]).
  - repeat constructor; unfold well_formed; cbn [Start End]; lia.
  - vm_compute. discriminate.
Defined.

(** ** unionKeys *)

Lemma findInKeys_spec (v : string) (set : list string) :
  findInKeys v set = true <-> v ∈ set.
Proof.
  induction set as [|x set IH]; simpl.
  - split; [discriminate|intros H; inversion H].
  - destruct (String.eqb v x) eqn:E.
    + apply String.eqb_eq in E as ->. split; [constructor|reflexivity].
    + apply String.eqb_neq in E. rewrite IH. split.
      * intros H. constructor 2. exact H.
      * intros H. apply elem_of_cons in H as [?|?]; [contradiction|assumption].
Qed.

Lemma dedup_keys_spec (superset : list string) :
  forall result,
    NoDup result ->
    let out := fold_left (fun result candidate =>
                 if findInKeys candidate result then result else result ++ [candidate])
              superset result in
    NoDup out /\ forall x, x ∈ out <-> x ∈ result \/ x ∈ superset.
Proof.
  induction superset as [|c l IH]; intros result Hnd; cbn [fold_left].
  - split; [assumption|]. intros x. rewrite elem_of_nil. tauto.
  - destruct (findInKeys c result) eqn:E.
    + apply findInKeys_spec in E. destruct (IH result Hnd) as [H1 H2].
      split; [exact H1|]. intros x. rewrite H2, elem_of_cons.
      split; [tauto|]. intros [?|[->|?]]; auto.
    + assert (Hc : c ∉ result) by (rewrite <- findInKeys_spec, E; discriminate).
      destruct (IH (result ++ [c])) as [H1 H2].
      { apply NoDup_app. split; [assumption|]. split; [|apply NoDup_singleton].
        intros x Hx Hx'. apply list_elem_of_singleton in Hx' as ->. contradiction. }
      split; [exact H1|]. intros x.
      rewrite H2, elem_of_app, list_elem_of_singleton, elem_of_cons. tauto.
Qed.

Lemma insert_string_perm (x : string) (l : list string) :
  Permutation (x :: l) (insert_string x l).
Proof.
  induction l as [|y l IH]; simpl; [reflexivity|].
  destruct (String.leb x y); [reflexivity|].
  rewrite perm_swap. constructor. exact IH.
Qed.

Lemma sort_Strings_perm (l : list string) : Permutation l (sort_Strings l).
Proof.
  induction l as [|x l IH]; simpl; [reflexivity|].
  rewrite <- insert_string_perm. constructor. exact IH.
Qed.

Lemma insert_string_sorted (x : string) (l : list string) :
  Sorted (fun a b => String.leb a b = true) l ->
  Sorted (fun a b => String.leb a b = true) (insert_string x l).
Proof.
  induction 1 as [|y l Hs IH Hhd]; simpl.
  - constructor; constructor.
  - destruct (String.leb x y) eqn:E.
    + constructor; [constructor; assumption|constructor; assumption].
    + constructor; [assumption|].
      destruct l as [|z l]; simpl.
      * constructor. destruct (String.leb_total x y); congruence.
      * destruct (String.leb x z).
        -- constructor. destruct (String.leb_total x y); congruence.
        -- constructor. inversion Hhd; assumption.
Qed.

Lemma sort_Strings_sorted (l : list string) :
  Sorted (fun a b => String.leb a b = true) (sort_Strings l).
Proof. induction l as [|x l IH]; simpl; [constructor|]. apply insert_string_sorted, IH. Qed.

Lemma Ascii_compare_Lt_trans (a b c : ascii) :
  Ascii.compare a b = Lt -> Ascii.compare b c = Lt -> Ascii.compare a c = Lt.
Proof.
  unfold Ascii.compare. rewrite !N.compare_lt_iff. lia.
Qed.

Lemma String_compare_Lt_trans (s1 : string) :
  forall s2 s3, String.compare s1 s2 = Lt -> String.compare s2 s3 = Lt ->
                String.compare s1 s3 = Lt.
Proof.
  induction s1 as [|a s1 IH]; intros [|b s2] [|c s3]; simpl; try congruence.
  destruct (Ascii.compare a b) eqn:E1; try discriminate;
    destruct (Ascii.compare b c) eqn:E2; try discriminate; intros H1 H2.
  - apply Ascii.compare_eq_iff in E1, E2. subst.
    replace (Ascii.compare c c) with Eq
      by (symmetry; unfold Ascii.compare; apply N.compare_refl).
    eapply IH; eassumption.
  - apply Ascii.compare_eq_iff in E1. subst. rewrite E2. reflexivity.
  - apply Ascii.compare_eq_iff in E2. subst. rewrite E1. reflexivity.
  - rewrite (Ascii_compare_Lt_trans _ _ _ E1 E2). reflexivity.
Qed.

Lemma String_leb_trans (s1 s2 s3 : string) :
  String.leb s1 s2 = true -> String.leb s2 s3 = true -> String.leb s1 s3 = true.
Proof.
  unfold String.leb.
  destruct (String.compare s1 s2) eqn:E1; try discriminate;
    destruct (String.compare s2 s3) eqn:E2; try discriminate; intros _ _.
  - apply String.compare_eq_iff in E1, E2. subst.
    destruct (String.compare s3 s3) eqn:E; try reflexivity.
    pose proof (String.compare_antisym s3 s3) as H. rewrite E in H. discriminate.
  - apply String.compare_eq_iff in E1. subst. rewrite E2. reflexivity.
  - apply String.compare_eq_iff in E2. subst. rewrite E1. reflexivity.
  - rewrite (String_compare_Lt_trans _ _ _ E1 E2). reflexivity.
Qed.

(** X19: [unionKeys(a, b)] holds exactly the keys of [a] and of [b], each
    of them once, in the increasing order of [sort.Strings]. *)
Theorem unionKeys_spec (a b : list string) :
  (forall k, k ∈ unionKeys a b <-> k ∈ a \/ k ∈ b) /\
  NoDup (unionKeys a b) /\
  StronglySorted (fun x y => String.leb x y = true) (unionKeys a b).
Proof.
  unfold unionKeys.
  destruct (dedup_keys_spec (a ++ b) [] (NoDup_nil_2)) as [H1 H2].
  split; [|split].
  - intros k. rewrite <- (sort_Strings_perm _). rewrite H2, elem_of_nil, elem_of_app. tauto.
  - rewrite <- (sort_Strings_perm _). exact H1.
  - apply Sorted_StronglySorted; [|apply sort_Strings_sorted].
    intros x y z. apply String_leb_trans.
Qed.

(** ** A field of the document, end to end *)

Section Field.
Variable template_compare : Token -> value -> value -> template_result.

(** X20: matching the field [name] on a document that is a map selects
    that key of the root, whether it is present or not.  [Values] then
    returns the field's value (nothing when the key is absent or nil),
    [Set(v)] returns the document with the key set to [v], and [Delete]
    returns the document without the key; all other keys are untouched. *)
Theorem field_read_write (m : gmap string value) (name : string) (v : value)
        (fuel fuel' : nat) :
  let e := mkMatchSet rootVar (RMap rootVar [name]) false in
  Expression_Match template_compare (S fuel) (fieldNode name) (VMap m) = Ok (e, []) /\
  MatchSet_Values e (VMap m)
    = Ok (match m !! name with Some VNil | None => [] | Some x => [x] end) /\
  MatchSet_Set [] e v (VMap m)
    = (Ok (VMap (<[name := v]> m)), set_mutated e, VMap (<[name := v]> m)) /\
  MatchSet_Delete fuel' e (VMap m)
    = (Ok (VMap (delete name m)), set_mutated e, VMap (delete name m)).
Proof.
  intros e. split; [|split; [|split]].
  - reflexivity.
  - unfold MatchSet_Values, e. cbn. unfold map_index.
    destruct (m !! name) as [[]|]; reflexivity.
  - reflexivity.
  - reflexivity.
Qed.
End Field.

(** ** Regions.Intersect *)

Lemma Intersect_loop_unfold (fuel : nat) (leftSet rightSet : Regions)
      (next : option Region) (result : Regions) :
  (leftSet <> [] \/ rightSet <> []) ->
  Intersect_loop (S fuel) leftSet rightSet next result =
  match next, leftSet with
  | None, [] => Some result
  | None, lft :: leftSet' =>
      Intersect_continue (Intersect_loop fuel) lft leftSet' rightSet result
  | Some n, _ => Intersect_continue (Intersect_loop fuel) n leftSet rightSet result
  end.
Proof.
  intros H. destruct leftSet, rightSet; try (destruct H; congruence);
    destruct next; reflexivity.
Qed.

Lemma catch_up_length (rightSet : Regions) (n : Region) :
  (length (Intersect_catch_up rightSet n) <= length rightSet)%nat.
Proof.
  induction rightSet as [|r rs IH]; simpl; [lia|].
  destruct (End r <=? Start n); simpl; lia.
Qed.

Lemma catch_up_spec (rightSet : Regions) (n : Region) :
  Check_from 0 rightSet = true -> Forall well_formed rightSet ->
  Check_from 0 (Intersect_catch_up rightSet n) = true /\
  Forall well_formed (Intersect_catch_up rightSet n) /\
  (forall i, Start n <= i ->
             (covers (Intersect_catch_up rightSet n) i <-> covers rightSet i)) /\
  match Intersect_catch_up rightSet n with
  | rgt :: _ => Start n < End rgt
  | [] => True
  end.
Proof.
  induction rightSet as [|r rs IH]; intros Hc Hw; simpl.
  - repeat split; auto.
  - apply Check_from_cons in Hc as Hc'. destruct Hc' as [Hc1 Hc2].
    apply Forall_cons in Hw as Hw'. destruct Hw' as [Hw1 Hw2]. unfold well_formed in Hw1.
    destruct (End r <=? Start n) eqn:E.
    + destruct IH as (H1 & H2 & H3 & H4);
        [apply Check_from_weaken with (w := End r); [lia|assumption]|assumption|].
      repeat split; auto. 
      * intros Hi. rewrite covers_cons. right. apply H3; assumption.
      * rewrite covers_cons, ContainsIndex_spec. intros [Hi|Hi]; [lia|]. apply H3; assumption.
    + repeat split; auto. lia.
Qed.

Lemma Region_Intersect_shape (n rgt : Region) :
  well_formed n -> well_formed rgt -> Start n < End rgt ->
  Region_Overlap rgt n = true ->
  (Region_Intersect n rgt = [] /\ Start rgt <= Start n /\ End n <= End rgt) \/
  (Region_Intersect n rgt = [mkRegion (End rgt) (End n)] /\
   Start rgt <= Start n /\ End rgt < End n) \/
  (Region_Intersect n rgt = [mkRegion (Start n) (Start rgt)] /\
   Start n < Start rgt /\ End n <= End rgt) \/
  (Region_Intersect n rgt = [mkRegion (Start n) (Start rgt); mkRegion (End rgt) (End n)] /\
   Start n < Start rgt /\ End rgt < End n).
Proof.
  destruct n as [s e], rgt as [a b]. unfold well_formed, Region_Overlap, Region_Intersect,
    Region_ContainsRegion. cbn [Start End]. intros Hn Hr Hlt Ho.
  rewrite !orb_true_iff, !andb_true_iff in Ho.
  destruct ((s >=? a) && (e <=? b)) eqn:E1.
  { apply andb_true_iff in E1. left. repeat split; lia. }
  apply andb_false_iff in E1.
  match goal with |- context [negb ?c] => destruct c eqn:E2 end; cbn [negb].
  - destruct (a <=? s) eqn:E3; [|destruct (b >=? e) eqn:E4].
    + right; left. repeat split; lia.
    + right; right; left. repeat split; lia.
    + right; right; right. repeat split; lia.
  - unfold Region_Overlap in E2. cbn [Start End] in E2. rewrite !orb_false_iff, !andb_false_iff in E2. lia.
Qed.

Lemma catch_up_keep (rgt : Region) (rs : Regions) (x : Region) :
  Start x < End rgt -> Intersect_catch_up (rgt :: rs) x = rgt :: rs.
Proof. intros H. simpl. destruct (End rgt <=? Start x) eqn:E; [lia|reflexivity]. Qed.

Lemma weight_after_left_cut (rgt : Region) (rs : Regions) (x : Region) :
  End rgt <= Start x -> (Intersect_weight (rgt :: rs) x <= 3 * length rs + 2)%nat.
Proof.
  intros H. unfold Intersect_weight. simpl Intersect_catch_up.
  destruct (End rgt <=? Start x) eqn:E; [|lia].
  pose proof (catch_up_length rs x).
  destruct (Intersect_catch_up rs x) as [|r' rs'] eqn:E'; [lia|].
  cbn [length] in *. destruct (Region_Overlap r' x); lia.
Qed.

Lemma covers_after (rs : Regions) (w i : Z) :
  Check_from w rs = true -> Forall well_formed rs -> covers rs i -> w <= i.
Proof. intros. eapply Check_from_lower; eassumption. Qed.

Lemma covers_head_after (r : Region) (rs : Regions) (i : Z) :
  Check_from 0 (r :: rs) = true -> Forall well_formed (r :: rs) ->
  covers (r :: rs) i -> Start r <= i.
Proof.
  intros Hc Hw Hi. apply Check_from_cons in Hc as [_ Hc].
  apply Forall_cons in Hw as [Hw1 Hw2]. unfold well_formed in Hw1.
  apply covers_cons in Hi as [Hi|Hi].
  - apply ContainsIndex_spec in Hi. lia.
  - pose proof (covers_after _ _ _ Hc Hw2 Hi). lia.
Qed.

Ltac decide_atoms n rgt i :=
  destruct (Z_le_dec (Start n) i), (Z_lt_dec i (End n)),
           (Z_le_dec (Start rgt) i), (Z_lt_dec i (End rgt)),
           (Z_lt_dec i (Start rgt)), (Z_le_dec (End rgt) i);
  try lia; intuition lia.

Lemma Intersect_continue_spec (fuel : nat)
      (n : Region) (leftSet rightSet result : Regions) :
  (forall leftSet rightSet next result,
      Intersect_inv leftSet rightSet next result ->
      (Intersect_measure leftSet rightSet next < fuel)%nat ->
      exists out, Intersect_loop fuel leftSet rightSet next result = Some out /\
                  Intersect_post leftSet rightSet next result out) ->
  Intersect_inv leftSet rightSet (Some n) result ->
  (3 * length leftSet + Intersect_weight rightSet n <= fuel)%nat ->
  exists out,
    Intersect_continue (Intersect_loop fuel) n leftSet rightSet result = Some out /\
    Intersect_post leftSet rightSet (Some n) result out.
Proof.
  intros IH (Hc & Hw & HwL & HcR & HwR & Hn & Hle & HcL) Hfuel.
  unfold Intersect_continue, Intersect_weight in *.
  destruct (catch_up_spec rightSet n HcR HwR) as (HcR' & HwR' & Hsame & Hhead).
  assert (HL : forall i, covers leftSet i -> End n <= i)
    by (intros i; apply covers_after; assumption).
  unfold well_formed in Hn.
  destruct (Intersect_catch_up rightSet n) as [|rgt rs'] eqn:Ecu.
  - (* nothing more to intersect away *)
    eexists. split; [reflexivity|]. split; [|split].
    + rewrite !Check_from_app, Hc, !last_End_app. cbn.
      destruct (Start n <? last_End 0 result) eqn:E; [lia|]. exact HcL.
    + rewrite !Forall_app. repeat split; auto.
    + intros i. rewrite !covers_app, covers_cons, covers_nil. cbn [covers_next].
      rewrite ContainsIndex_spec.
      pose proof (HL i) as HLi. pose proof (Hsame i) as Hsi. rewrite covers_nil in Hsi.
      destruct (Z_le_dec (Start n) i), (Z_lt_dec i (End n)); intuition lia.
  - pose proof (Forall_cons_1 _ _ _ HwR') as [Hwr HwRs]. unfold well_formed in Hwr.
    assert (Hrest : forall i, covers (rgt :: rs') i -> Start rgt <= i)
      by (intros i; apply covers_head_after; assumption).
    cbn [length] in Hfuel.
    destruct (Region_Overlap rgt n) eqn:Eo.
    + assert (Hin : Start rgt <= End n).
      { unfold Region_Overlap in Eo. rewrite !orb_true_iff, !andb_true_iff in Eo. lia. }
      destruct (Region_Intersect_shape n rgt Hn Hwr Hhead Eo)
        as [(Hi & H1 & H2)|[(Hi & H1 & H2)|[(Hi & H1 & H2)|(Hi & H1 & H2)]]];
        rewrite Hi; clear Hi.
      * (* chomped up *)
        destruct (IH leftSet (rgt :: rs') None result) as (out & Hout & Hc' & Hw' & Hcov').
        { repeat split; auto. apply Check_from_weaken with (w := End n); [lia|assumption]. }
        { unfold Intersect_measure. cbn [length]. lia. }
        exists out. split; [exact Hout|]. split; [exact Hc'|]. split; [exact Hw'|].
        intros i. rewrite Hcov'. cbn [covers_next]. rewrite ContainsIndex_spec.
        pose proof (HL i) as HLi. pose proof (Hsame i) as Hsi. pose proof (Hrest i) as Hri.
        rewrite covers_cons, ContainsIndex_spec in *.
        decide_atoms n rgt i.
      * (* cut from the left *)
        destruct (IH leftSet (rgt :: rs') (Some (mkRegion (End rgt) (End n))) result)
          as (out & Hout & Hc' & Hw' & Hcov').
        { repeat split; auto; unfold well_formed; cbn [Start End]; lia. }
        { unfold Intersect_measure.
          pose proof (weight_after_left_cut rgt rs' (mkRegion (End rgt) (End n))
                        ltac:(cbn [Start]; lia)). lia. }
        exists out. split; [exact Hout|]. split; [exact Hc'|]. split; [exact Hw'|].
        intros i. rewrite Hcov'. cbn [covers_next]. rewrite !ContainsIndex_spec. cbn [Start End].
        pose proof (HL i) as HLi. pose proof (Hsame i) as Hsi. pose proof (Hrest i) as Hri.
        rewrite covers_cons, ContainsIndex_spec in *.
        decide_atoms n rgt i.
      * (* cut from the right *)
        destruct (IH leftSet (rgt :: rs') (Some (mkRegion (Start n) (Start rgt))) result)
          as (out & Hout & Hc' & Hw' & Hcov').
        { repeat split; auto; unfold well_formed; cbn [Start End]; try lia.
          apply Check_from_weaken with (w := End n); [lia|assumption]. }
        { unfold Intersect_measure, Intersect_weight.
          rewrite catch_up_keep by (cbn [Start]; lia).
          assert (Region_Overlap rgt (mkRegion (Start n) (Start rgt)) = false) as ->.
          { unfold Region_Overlap. cbn [Start End].
            rewrite !orb_false_iff, !andb_false_iff. lia. }
          cbn [length]. lia. }
        exists out. split; [exact Hout|]. split; [exact Hc'|]. split; [exact Hw'|].
        intros i. rewrite Hcov'. cbn [covers_next]. rewrite !ContainsIndex_spec. cbn [Start End].
        pose proof (HL i) as HLi. pose proof (Hsame i) as Hsi. pose proof (Hrest i) as Hri.
        rewrite covers_cons, ContainsIndex_spec in *.
        decide_atoms n rgt i.
      * (* cut from the middle *)
        destruct (IH leftSet (rgt :: rs') (Some (mkRegion (End rgt) (End n)))
                     (result ++ [mkRegion (Start n) (Start rgt)]))
          as (out & Hout & Hc' & Hw' & Hcov').
        { unfold Intersect_inv. rewrite Check_from_app, Hc, last_End_app. cbn.
          destruct (Start n <? last_End 0 result) eqn:E; [lia|].
          repeat split; auto; unfold well_formed; cbn [Start End]; try lia.
          apply Forall_app. split; [assumption|].
          constructor; [unfold well_formed; cbn [Start End]; lia|constructor]. }
        { unfold Intersect_measure.
          pose proof (weight_after_left_cut rgt rs' (mkRegion (End rgt) (End n))
                        ltac:(cbn [Start]; lia)). lia. }
        exists out. split; [exact Hout|]. split; [exact Hc'|]. split; [exact Hw'|].
        intros i. rewrite Hcov'. cbn [covers_next].
        rewrite covers_app, (covers_cons (mkRegion _ _) []), covers_nil, !ContainsIndex_spec.
        cbn [Start End].
        pose proof (HL i) as HLi. pose proof (Hsame i) as Hsi. pose proof (Hrest i) as Hri.
        rewrite covers_cons, ContainsIndex_spec in *.
        decide_atoms n rgt i.
    + (* no overlap: flush *)
      assert (Hafter : End n <= Start rgt).
      { unfold Region_Overlap in Eo. rewrite !orb_false_iff, !andb_false_iff in Eo. lia. }
      destruct (IH leftSet (rgt :: rs') None (result ++ [n]))
        as (out & Hout & Hc' & Hw' & Hcov').
      { unfold Intersect_inv. rewrite Check_from_app, Hc, last_End_app. cbn.
        destruct (Start n <? last_End 0 result) eqn:E; [lia|].
        repeat split; auto. apply Forall_app. split; [assumption|].
        constructor; [exact Hn|constructor]. }
      { unfold Intersect_measure. cbn [length]. lia. }
      exists out. split; [exact Hout|]. split; [exact Hc'|]. split; [exact Hw'|].
      intros i. rewrite Hcov'. cbn [covers_next].
      rewrite covers_app, (covers_cons n []), covers_nil, !ContainsIndex_spec.
      pose proof (HL i) as HLi. pose proof (Hsame i) as Hsi. pose proof (Hrest i) as Hri.
      rewrite covers_cons, ContainsIndex_spec in *.
      decide_atoms n rgt i.
Qed.

Lemma Intersect_weight_le (rightSet : Regions) (n : Region) :
  (Intersect_weight rightSet n <= 3 * length rightSet + 2)%nat.
Proof.
  unfold Intersect_weight. pose proof (catch_up_length rightSet n).
  destruct (Intersect_catch_up rightSet n) as [|r rs]; [lia|].
  cbn [length] in *. destruct (Region_Overlap r n); lia.
Qed.

Lemma Intersect_loop_spec (fuel : nat) :
  forall leftSet rightSet next result,
    Intersect_inv leftSet rightSet next result ->
    (Intersect_measure leftSet rightSet next < fuel)%nat ->
    exists out, Intersect_loop fuel leftSet rightSet next result = Some out /\
                Intersect_post leftSet rightSet next result out.
Proof.
  induction fuel as [|fuel IH]; intros leftSet rightSet next result Hinv Hm; [lia|].
  destruct (decide (leftSet = [] /\ rightSet = [])) as [[-> ->]|Hne].
  - destruct Hinv as (Hc & Hw & _ & _ & _ & Hnext). cbn.
    destruct next as [n|]; eexists; (split; [reflexivity|]); split; [|split| |split]; auto.
    + destruct Hnext as (Hn & Hle & _). rewrite Check_from_app, Hc. cbn.
      destruct (Start n <? last_End 0 result) eqn:E; [lia|reflexivity].
    + destruct Hnext as (Hn & _). apply Forall_app. split; [assumption|].
      constructor; [assumption|constructor].
    + intros i. rewrite covers_app, covers_cons, !covers_nil. cbn [covers_next]. tauto.
    + intros i. rewrite covers_nil. cbn [covers_next]. tauto.
  - rewrite Intersect_loop_unfold
      by (destruct leftSet, rightSet; [exfalso; apply Hne; auto|right|left|left]; congruence).
    destruct next as [n|].
    + apply Intersect_continue_spec; [exact IH|exact Hinv|].
      unfold Intersect_measure in Hm. lia.
    + destruct leftSet as [|lft leftSet'].
      * destruct Hinv as (Hc & Hw & _). eexists. split; [reflexivity|].
        split; [assumption|]. split; [assumption|].
        intros i. rewrite covers_nil. cbn [covers_next]. tauto.
      * destruct Hinv as (Hc & Hw & HwL & HcR & HwR & HcL).
        apply Check_from_cons in HcL as [HcL1 HcL2].
        apply Forall_cons in HwL as [Hwl HwL'].
        destruct (Intersect_continue_spec fuel lft leftSet' rightSet result IH)
          as (out & Hout & Hc' & Hw' & Hcov').
        { repeat split; auto. }
        { unfold Intersect_measure in Hm. cbn [length] in Hm.
          pose proof (Intersect_weight_le rightSet lft). lia. }
        exists out. split; [exact Hout|]. split; [exact Hc'|]. split; [exact Hw'|].
        intros i. rewrite Hcov', covers_cons. cbn [covers_next]. tauto.
Qed.

Lemma Regions_Intersect_covers (rs other : Regions) (fuel : nat) :
  Regions_Check rs = true -> Forall well_formed rs ->
  Regions_Check other = true -> Forall well_formed other ->
  (3 * (length rs + length other) < fuel)%nat ->
  exists out,
    Regions_Intersect fuel rs other = Ok out /\
    Regions_Check out = true /\ Forall well_formed out /\
    forall i, covers out i <-> covers rs i /\ ~ covers other i.
Proof.
  intros Hc Hw Hco Hwo Hfuel. unfold Regions_Intersect.
  destruct rs as [|l ls].
  { exists []. repeat split; auto; rewrite ?covers_nil in *; tauto. }
  destruct other as [|r rs].
  { exists (l :: ls). repeat split; auto; rewrite ?covers_nil in *; tauto. }
  destruct (Intersect_loop_spec fuel (l :: ls) (r :: rs) None [])
    as (out & Hout & Hc' & Hw' & Hcov').
  { repeat split; auto. }
  { unfold Intersect_measure. lia. }
  rewrite Hout. exists out. repeat split; auto;
    rewrite Hcov', covers_nil in *; cbn [covers_next] in *; tauto.
Qed.

(** X21: for well-formed regions that pass [Regions.Check] on both
    sides, the loop of [rs.Intersect(other)] ends (within three passes for
    every region) and returns the difference: regions that pass
    [Regions.Check] and hold exactly the indices of [rs] that are not in
    [other]. *)
Theorem Regions_Intersect_difference (rs other : Regions) (fuel : nat) :
  Regions_Check rs = true -> Forall well_formed rs ->
  Regions_Check other = true -> Forall well_formed other ->
  (3 * (length rs + length other) < fuel)%nat ->
  exists out,
    Regions_Intersect fuel rs other = Ok out /\
    Regions_Check out = true /\ Forall well_formed out /\
    forall i, i ∈ Regions_ToIndicies out <->
              i ∈ Regions_ToIndicies rs /\ ~ i ∈ Regions_ToIndicies other.
Proof.
  intros Hc Hw Hco Hwo Hfuel.
  destruct (Regions_Intersect_covers rs other fuel Hc Hw Hco Hwo Hfuel)
    as (out & Hout & Hc' & Hw' & Hcov).
  exists out. split; [exact Hout|]. split; [exact Hc'|]. split; [exact Hw'|].
  intros i. rewrite !ToIndicies_covers. apply Hcov.
Qed.

Lemma Regions_Intersect_difference_witness :
  exists out,
    Regions_Intersect 10 [mkRegion 0 10] [mkRegion 2 4; mkRegion 7 7] = Ok out /\
    Regions_Check out = true /\ Forall well_formed out /\
    forall i, i ∈ Regions_ToIndicies out <->
              i ∈ Regions_ToIndicies [mkRegion 0 10] /\
              ~ i ∈ Regions_ToIndicies [mkRegion 2 4; mkRegion 7 7].
Proof.
  apply (Regions_Intersect_difference [mkRegion 0 10] [mkRegion 2 4; mkRegion 7 7] 10);
    try reflexivity; try (cbn [length]; lia);
    repeat constructor; unfold well_formed; cbn [Start End]; lia.
Defined.

(** ** Writing a container back to its variable *)

Lemma Value_CanonicalValue (data : value) (variable : VarRef) (v : value) :
  VarRef_Value data variable = Ok v -> v <> VNil ->
  VarRef_CanonicalValue data variable = Ok v.
Proof.
  unfold VarRef_Value, VarRef_CanonicalValue. intros -> Hv.
  destruct v; try contradiction; reflexivity.
Qed.

(** Writing a container over a container of the same kind. *)
Lemma SetWithMatchedType_container (data : value) (variable : VarRef) (old new : value) :
  rooted variable -> VarRef_Value data variable = Ok old ->
  (exists a b, old = VSlice a /\ new = VSlice b) \/
  (exists a b, old = VMap a /\ new = VMap b) ->
  exists data',
    VarRef_SetWithMatchedType data variable new = Ok data' /\
    VarRef_Value data' variable = Ok new.
Proof.
  intros Hr Hold Hkind. unfold VarRef_SetWithMatchedType. rewrite Hold, bind_Ok.
  assert (Hm : matchType new old = Ok new)
    by (destruct Hkind as [(a & b & -> & ->)|(a & b & -> & ->)]; reflexivity).
  rewrite Hm, bind_Ok.
  destruct (setter_total data variable Hr old new Hold) as [data' Hs].
  exists data'. split; [|exact (setter_getter _ _ _ _ Hs)].
  unfold VarRef_Set, assertIsCompatible.
  destruct Hkind as [(a & b & -> & ->)|(a & b & -> & ->)]; cbn; exact Hs.
Qed.

(** ** MapRef.Set and MapRef.Delete *)

Lemma fold_insert_lookup (keys : list string) (v : value) :
  forall (m : gmap string value) (k : string),
    fold_left (fun m k => <[k := v]> m) keys m !! k
    = if bool_decide (k ∈ keys) then Some v else m !! k.
Proof.
  induction keys as [|k' keys IH]; intros m k; cbn [fold_left].
  - rewrite bool_decide_eq_false_2 by (apply not_elem_of_nil). reflexivity.
  - rewrite IH. destruct (decide (k ∈ keys)) as [Hin|Hnin].
    + rewrite !bool_decide_eq_true_2; auto. constructor 2. exact Hin.
    + rewrite (bool_decide_eq_false_2 (k ∈ keys)) by assumption.
      destruct (decide (k = k')) as [->|Hne].
      * rewrite lookup_insert_eq, bool_decide_eq_true_2; [reflexivity|constructor].
      * rewrite lookup_insert_ne by congruence.
        rewrite bool_decide_eq_false_2; [reflexivity|].
        intros H. apply elem_of_cons in H as [?|?]; contradiction.
Qed.

Lemma fold_delete_lookup (keys : list string) :
  forall (m : gmap string value) (k : string),
    fold_left (fun m k => delete k m) keys m !! k
    = if bool_decide (k ∈ keys) then None else m !! k.
Proof.
  induction keys as [|k' keys IH]; intros m k; cbn [fold_left].
  - rewrite bool_decide_eq_false_2 by (apply not_elem_of_nil). reflexivity.
  - rewrite IH. destruct (decide (k ∈ keys)) as [Hin|Hnin].
    + rewrite !bool_decide_eq_true_2; auto. constructor 2. exact Hin.
    + rewrite (bool_decide_eq_false_2 (k ∈ keys)) by assumption.
      destruct (decide (k = k')) as [->|Hne].
      * rewrite lookup_delete_eq, bool_decide_eq_true_2; [reflexivity|constructor].
      * rewrite lookup_delete_ne by congruence.
        rewrite bool_decide_eq_false_2; [reflexivity|].
        intros H. apply elem_of_cons in H as [?|?]; contradiction.
Qed.

Lemma MapRef_Values_of (data : value) (variable : VarRef) (keys : list string)
      (m : gmap string value) :
  VarRef_Value data variable = Ok (VMap m) ->
  Ref_Values data (RMap variable keys) = Ok (omap (selected_value m) keys).
Proof.
  intros H. cbn [Ref_Values].
  rewrite (Value_CanonicalValue _ _ _ H) by discriminate.
  rewrite bind_Ok. cbn [as_map]. rewrite bind_Ok, MapRef_Values_fold. reflexivity.
Qed.

(** X22: [MapRef.Set(v)] on a readable variable of the document that
    holds a map succeeds, also for a nil [v]; afterwards the map holds [v]
    under every selected key and its old entries under all other keys, and
    [Values] returns [v] once for every selected key (nothing when [v] is
    nil, as [Values] leaves nil values out). *)
Theorem MapRef_Set_then_Values (data : value) (variable : VarRef) (keys : list string)
        (m : gmap string value) (v : value) :
  rooted variable -> VarRef_Value data variable = Ok (VMap m) ->
  exists data' m',
    MapRef_Set variable keys v data = (Ok tt, data') /\
    VarRef_Value data' variable = Ok (VMap m') /\
    (forall k, m' !! k = if bool_decide (k ∈ keys) then Some v else m !! k) /\
    Ref_Values data' (RMap variable keys)
    = Ok (match v with VNil => [] | _ => map (fun _ => v) keys end).
Proof.
  intros Hr Hval.
  set (m' := fold_left (fun m k => <[k := v]> m) keys m).
  destruct (SetWithMatchedType_container data variable (VMap m) (VMap m') Hr Hval)
    as (data' & Hset & Hget); [right; eauto|].
  exists data', m'. split; [|split; [exact Hget|split]].
  - unfold MapRef_Set, MapRef_cloneMap, mut_read.
    unfold mbind, Mut_bind, mut_bind.
    rewrite (Value_CanonicalValue _ _ _ Hval) by discriminate.
    rewrite bind_Ok. cbn [as_map]. fold m'. unfold mut_write. rewrite Hset. reflexivity.
  - intros k. apply fold_insert_lookup.
  - rewrite (MapRef_Values_of _ _ _ _ Hget).
    f_equal.
    assert (Hall : forall k0, k0 ∈ keys -> m' !! k0 = Some v).
    { intros k0 Hk0. unfold m'. rewrite fold_insert_lookup, bool_decide_eq_true_2; auto. }
    clearbody m'. clear -Hall.
    assert (Hsel : forall k0, k0 ∈ keys ->
              selected_value m' k0 = match v with VNil => None | _ => Some v end).
    { intros k0 Hk0. unfold selected_value. rewrite (Hall k0 Hk0). destruct v; reflexivity. }
    clear Hall. induction keys as [|x l IH]; [destruct v; reflexivity|]. cbn.
    rewrite (Hsel x) by constructor.
    assert (IH' := IH ltac:(intros k0 Hk0; apply Hsel; constructor 2; exact Hk0)).
    destruct v; cbn; rewrite IH'; reflexivity.
Qed.

Lemma MapRef_Set_then_Values_witness :
  exists data' m',
    MapRef_Set rootVar ["a"; "b"] (VInt 7) (VMap {[ "a" := VInt 1 ]}) = (Ok tt, data') /\
    VarRef_Value data' rootVar = Ok (VMap m') /\
    (forall k, m' !! k = if bool_decide (k ∈ ["a"; "b"]) then Some (VInt 7)
                         else ({[ "a" := VInt 1 ]} : gmap string value) !! k) /\
    Ref_Values data' (RMap rootVar ["a"; "b"]) = Ok (map (fun _ => VInt 7) ["a"; "b"]).
Proof.
  apply (MapRef_Set_then_Values (VMap {[ "a" := VInt 1 ]}) rootVar ["a"; "b"]
           {[ "a" := VInt 1 ]} (VInt 7)).
  - exact I.
  - reflexivity.
Defined.

(** X23: [MapRef.Delete] on a readable variable of the document that
    holds a map succeeds; afterwards the selected keys are gone from the
    map, all other entries are as before, and [Values] returns nothing. *)
Theorem MapRef_Delete_then_Values (data : value) (variable : VarRef) (keys : list string)
        (m : gmap string value) :
  rooted variable -> VarRef_Value data variable = Ok (VMap m) ->
  exists data' m',
    MapRef_Delete variable keys data = (Ok tt, data') /\
    VarRef_Value data' variable = Ok (VMap m') /\
    (forall k, m' !! k = if bool_decide (k ∈ keys) then None else m !! k) /\
    Ref_Values data' (RMap variable keys) = Ok [].
Proof.
  intros Hr Hval.
  set (m' := fold_left (fun m k => delete k m) keys m).
  destruct (SetWithMatchedType_container data variable (VMap m) (VMap m') Hr Hval)
    as (data' & Hset & Hget); [right; eauto|].
  exists data', m'. split; [|split; [exact Hget|split]].
  - unfold MapRef_Delete, MapRef_cloneMap, mut_read.
    unfold mbind, Mut_bind, mut_bind.
    rewrite (Value_CanonicalValue _ _ _ Hval) by discriminate.
    rewrite bind_Ok. cbn [as_map]. fold m'. unfold mut_write. rewrite Hset. reflexivity.
  - intros k. apply fold_delete_lookup.
  - rewrite (MapRef_Values_of _ _ _ _ Hget). f_equal.
    assert (Hall : forall k0, k0 ∈ keys -> selected_value m' k0 = None).
    { intros k0 Hk0. unfold selected_value, m'.
      rewrite fold_delete_lookup, bool_decide_eq_true_2; auto. }
    clearbody m'. clear -Hall.
    induction keys as [|x l IH]; [reflexivity|]. cbn.
    rewrite (Hall x) by constructor. cbn.
    apply IH. intros k0 Hk0. apply Hall. constructor 2. exact Hk0.
Qed.


Lemma MapRef_Delete_then_Values_witness :
  exists data' m',
    MapRef_Delete rootVar ["a"; "b"] (VMap {[ "a" := VInt 1 ]}) = (Ok tt, data') /\
    VarRef_Value data' rootVar = Ok (VMap m') /\
    (forall k, m' !! k = if bool_decide (k ∈ ["a"; "b"]) then None
                         else ({[ "a" := VInt 1 ]} : gmap string value) !! k) /\
    Ref_Values data' (RMap rootVar ["a"; "b"]) = Ok [].
Proof.
  apply (MapRef_Delete_then_Values (VMap {[ "a" := VInt 1 ]}) rootVar ["a"; "b"]
           {[ "a" := VInt 1 ]}).
  - exact I.
  - reflexivity.
Defined.

(** ** ArrayRef.Set *)

Lemma foldM_index_slice {A : Type} (items : list A) (f : Z -> A) (l : list Z) :
  Forall (fun i => 0 <= i /\ items !! Z.to_nat i = Some (f i)) l ->
  forall acc,
    foldM (fun result i => x ← index_slice items i; Ok (result ++ [x])) l acc
    = Ok (acc ++ map f l).
Proof.
  induction 1 as [|i l [Hi Hx] Hl IH]; intros acc; cbn [foldM map].
  - rewrite app_nil_r. reflexivity.
  - rewrite (index_slice_Some _ _ _ Hi Hx), !bind_Ok, IH, <- app_assoc. reflexivity.
Qed.

Lemma ArrayRef_current_of (data : value) (variable : VarRef) (items : list value) :
  VarRef_Value data variable = Ok (VSlice items) ->
  ArrayRef_current variable data = (Ok items, data).
Proof.
  intros H. unfold ArrayRef_current, mut_read.
  rewrite (Value_CanonicalValue _ _ _ H) by discriminate. reflexivity.
Qed.

Lemma covers_within (rs : Regions) (n i : Z) :
  Forall (within n) rs -> covers rs i -> 0 <= i < n.
Proof.
  intros Hw (r & Hr & Hi). rewrite Forall_forall in Hw. destruct (Hw r Hr) as [H1 H2].
  apply ContainsIndex_spec in Hi. lia.
Qed.

(** X24: [ArrayRef.Set(v)] on a readable variable of the document that
    holds a slice, with a selection that is sorted by start and within the
    bounds of the slice, succeeds; afterwards the slice has its old length,
    holds [v] at every selected index and its old items elsewhere, and
    [Values] returns [v] once for every selected index. *)
Theorem ArrayRef_Set_then_Values (data : value) (variable : VarRef) (selection : Regions)
        (items : list value) (v : value) :
  rooted variable -> VarRef_Value data variable = Ok (VSlice items) ->
  Regions_CheckSorted selection = true -> Forall (within (len items)) selection ->
  exists data' items',
    ArrayRef_Set variable selection v data = (Ok tt, data') /\
    VarRef_Value data' variable = Ok (VSlice items') /\
    length items' = length items /\
    (forall j x, items !! j = Some x ->
       items' !! j = Some (if bool_decide (Z.of_nat j ∈ Regions_ToIndicies selection)
                           then v else x)) /\
    Ref_Values data' (RArray variable selection)
    = Ok (map (fun _ => v) (Regions_ToIndicies selection)).
Proof.
  intros Hr Hval Hs Hw.
  set (items' := imap (fun i x => if Regions_ContainsIndex selection (Z.of_nat i)
                                  then v else x) items).
  destruct (SetWithMatchedType_container data variable (VSlice items) (VSlice items') Hr Hval)
    as (data' & Hset & Hget); [left; eauto|].
  assert (Hlookup : forall j x, items !! j = Some x ->
            items' !! j = Some (if bool_decide (Z.of_nat j ∈ Regions_ToIndicies selection)
                                then v else x)).
  { intros j x Hx. unfold items'. rewrite list_lookup_imap, Hx. cbn. f_equal.
    destruct (Regions_ContainsIndex selection (Z.of_nat j)) eqn:E.
    - rewrite bool_decide_eq_true_2; [reflexivity|].
      apply ToIndicies_covers, (ContainsIndex_covers _ _ 0 Hs). exact E.
    - rewrite bool_decide_eq_false_2; [reflexivity|].
      intros Hin. apply ToIndicies_covers, (ContainsIndex_covers _ _ 0 Hs) in Hin. congruence. }
  exists data', items'. split; [|split; [exact Hget|split; [|split; [exact Hlookup|]]]].
  - unfold ArrayRef_Set. unfold mbind, Mut_bind, mut_bind.
    rewrite (ArrayRef_current_of _ _ _ Hval). fold items'.
    unfold mut_write. rewrite Hset. reflexivity.
  - unfold items'. apply length_imap.
  - cbn [Ref_Values]. rewrite (Value_CanonicalValue _ _ _ Hget) by discriminate.
    rewrite bind_Ok. cbn [as_slice]. rewrite bind_Ok.
    rewrite (foldM_index_slice items' (fun _ => v)); [reflexivity|].
    apply List.Forall_forall. intros i Hi. apply list_elem_of_In in Hi.
    pose proof Hi as Hc. apply ToIndicies_covers in Hc.
    pose proof (covers_within _ _ _ Hw Hc) as Hb. split; [lia|].
    destruct (lookup_lt_is_Some_2 items (Z.to_nat i)) as [x Hx];
      [unfold len in Hb; lia|].
    rewrite (Hlookup _ _ Hx). rewrite bool_decide_eq_true_2; [reflexivity|].
    replace (Z.of_nat (Z.to_nat i)) with i by lia. exact Hi.
Qed.

Lemma ArrayRef_Set_then_Values_witness :
  exists data' items',
    ArrayRef_Set rootVar [mkRegion 1 3] (VString "x") doc_array = (Ok tt, data') /\
    VarRef_Value data' rootVar = Ok (VSlice items') /\
    length items' = length [VInt 0; VInt 10; VInt 20; VInt 30; VInt 40] /\
    (forall j x, [VInt 0; VInt 10; VInt 20; VInt 30; VInt 40] !! j = Some x ->
       items' !! j = Some (if bool_decide (Z.of_nat j ∈ Regions_ToIndicies [mkRegion 1 3])
                           then VString "x" else x)) /\
    Ref_Values data' (RArray rootVar [mkRegion 1 3])
    = Ok (map (fun _ => VString "x") (Regions_ToIndicies [mkRegion 1 3])).
Proof.
  apply (ArrayRef_Set_then_Values doc_array rootVar [mkRegion 1 3]
           [VInt 0; VInt 10; VInt 20; VInt 30; VInt 40] (VString "x")).
  - exact I.
  - reflexivity.
  - reflexivity.
  - repeat constructor; unfold len; cbn [Start End length]; lia.
Defined.

(** ** ArrayRef.Delete *)

Lemma StronglySorted_lt_unique (l1 : list Z) :
  forall l2, StronglySorted Z.lt l1 -> StronglySorted Z.lt l2 ->
             (forall x, x ∈ l1 <-> x ∈ l2) -> l1 = l2.
Proof.
  induction l1 as [|a l1 IH]; intros [|b l2] H1 H2 Heq.
  - reflexivity.
  - exfalso. apply (not_elem_of_nil b). apply Heq. constructor.
  - exfalso. apply (not_elem_of_nil a). apply Heq. constructor.
  - apply StronglySorted_inv in H1 as [H1 H1']. apply StronglySorted_inv in H2 as [H2 H2'].
    rewrite List.Forall_forall in H1', H2'.
    assert (a = b).
    { pose proof (proj1 (Heq a) ltac:(constructor)) as Ha.
      pose proof (proj2 (Heq b) ltac:(constructor)) as Hb.
      apply elem_of_cons in Ha as [?|Ha]; [assumption|].
      apply elem_of_cons in Hb as [?|Hb]; [congruence|].
      apply list_elem_of_In in Ha, Hb. specialize (H2' _ Ha). specialize (H1' _ Hb). lia. }
    subst b. f_equal. apply IH; auto. intros x. split; intros Hx.
    + pose proof (proj1 (Heq x) ltac:(constructor 2; exact Hx)) as Hx'.
      apply elem_of_cons in Hx' as [->|?]; [|assumption].
      apply list_elem_of_In in Hx. specialize (H1' _ Hx). lia.
    + pose proof (proj2 (Heq x) ltac:(constructor 2; exact Hx)) as Hx'.
      apply elem_of_cons in Hx' as [->|?]; [|assumption].
      apply list_elem_of_In in Hx. specialize (H2' _ Hx). lia.
Qed.

Lemma StronglySorted_lt_filter (P : Z -> Prop) `{!forall x, Decision (P x)} (l : list Z) :
  StronglySorted Z.lt l -> StronglySorted Z.lt (filter P l).
Proof.
  induction 1 as [|a l Hs IH Hf]; [constructor|].
  rewrite filter_cons. destruct (decide (P a)); [|exact IH].
  constructor; [exact IH|].
  apply List.Forall_forall. intros x Hx. apply list_elem_of_In, list_elem_of_filter in Hx as [_ Hx].
  rewrite List.Forall_forall in Hf. apply Hf, list_elem_of_In, Hx.
Qed.

Lemma foldM_index_slice_omap {A : Type} (items : list A) (l : list Z) :
  Forall (fun i => 0 <= i /\ exists x, items !! Z.to_nat i = Some x) l ->
  forall acc,
    foldM (fun result i => x ← index_slice items i; Ok (result ++ [x])) l acc
    = Ok (acc ++ omap (fun i => items !! Z.to_nat i) l).
Proof.
  induction 1 as [|i l (Hi & x & Hx) Hl IH]; intros acc; cbn [foldM].
  - cbn. rewrite app_nil_r. reflexivity.
  - rewrite (index_slice_Some _ _ _ Hi Hx), !bind_Ok, IH. cbn. rewrite Hx. cbn.
    rewrite <- app_assoc. reflexivity.
Qed.

(** X25: [ArrayRef.Delete] on a readable variable of the document that
    holds a slice, with a selection of well-formed regions that passes
    [Regions.Check], succeeds: the variable then holds the items whose
    index was not selected, in their old order, and the selection of the
    reference is empty. *)
Theorem ArrayRef_Delete_remaining (data : value) (variable : VarRef) (selection : Regions)
        (items : list value) (fuel : nat) :
  rooted variable -> VarRef_Value data variable = Ok (VSlice items) ->
  Regions_Check selection = true -> Forall well_formed selection ->
  is_int (len items) -> (3 * (1 + length selection) < fuel)%nat ->
  exists data',
    ArrayRef_Delete fuel variable selection data = (Ok tt, [], data') /\
    VarRef_Value data' variable = Ok (VSlice (remaining selection items)).
Proof.
  intros Hr Hval Hc Hw Hint Hfuel.
  destruct (Regions_Intersect_covers [mkRegion 0 (len items)] selection fuel)
    as (keep & Hkeep & Hck & Hwk & Hcov).
  { reflexivity. }
  { pose proof (len_nonneg items). repeat constructor. assumption. }
  { exact Hc. }
  { exact Hw. }
  { cbn [length]. lia. }
  assert (Hidx : Regions_ToIndicies keep
                 = filter (fun i => i ∉ Regions_ToIndicies selection)
                          (index_range 0 (len items))).
  { apply StronglySorted_lt_unique.
    - apply (Check_from_indices_sorted keep 0 Hck Hwk).
    - apply StronglySorted_lt_filter, index_range_sorted.
    - intros x. rewrite list_elem_of_filter, !ToIndicies_covers, Hcov.
      rewrite covers_cons, covers_nil, ContainsIndex_spec, index_range_spec.
      cbn [Start End]. tauto. }
  assert (Hin : Forall (fun i => 0 <= i /\ exists x, items !! Z.to_nat i = Some x)
                       (Regions_ToIndicies keep)).
  { apply List.Forall_forall. intros i Hi. apply list_elem_of_In in Hi.
    rewrite Hidx in Hi. apply list_elem_of_filter in Hi as [_ Hi].
    apply index_range_spec in Hi. split; [lia|].
    apply lookup_lt_is_Some_2. unfold len in Hi. lia. }
  set (modified := remaining selection items).
  destruct (SetWithMatchedType_container data variable (VSlice items) (VSlice modified) Hr Hval)
    as (data' & Hset & Hget); [left; eauto|].
  exists data'. split; [|exact Hget].
  assert (Hcount : make_cap (Regions_IndiciesCount keep) = Ok tt).
  { unfold make_cap, Regions_IndiciesCount. rewrite IndiciesCount_acc; auto; try lia.
    - pose proof (len_nonneg (Regions_ToIndicies keep)).
      destruct (0 + len (Regions_ToIndicies keep) <? 0) eqn:E; [lia|reflexivity].
    - rewrite Hidx. unfold len at 1.
      pose proof (length_filter (fun i => i ∉ Regions_ToIndicies selection)
                    (index_range 0 (len items))) as Hlen.
      unfold index_range in Hlen at 2. rewrite length_map, length_seq in Hlen.
      unfold is_int, int_min, int_max, len in *. lia. }
  assert (Hmod : foldM (fun modified i => x ← index_slice items i; Ok (modified ++ [x]))
                       (Regions_ToIndicies keep) [] = Ok modified).
  { rewrite (foldM_index_slice_omap items _ Hin). unfold modified, remaining.
    rewrite <- Hidx. reflexivity. }
  unfold ArrayRef_Delete, with_field. unfold mbind, Mut_bind, mut_bind.
  rewrite (ArrayRef_current_of _ _ _ Hval). cbv beta iota.
  unfold mut_lift at 1. rewrite Hkeep. cbv beta iota.
  unfold mut_lift at 1. rewrite Hcount. cbv beta iota.
  unfold mut_lift at 1. unfold mbind in Hmod. rewrite Hmod. cbv beta iota.
  unfold mut_write. rewrite Hset. reflexivity.
Qed.

Lemma ArrayRef_Delete_remaining_witness :
  exists data',
    ArrayRef_Delete 7 rootVar [mkRegion 1 3] doc_array = (Ok tt, [], data') /\
    VarRef_Value data' rootVar
    = Ok (VSlice (remaining [mkRegion 1 3] [VInt 0; VInt 10; VInt 20; VInt 30; VInt 40])).
Proof.
  apply (ArrayRef_Delete_remaining doc_array rootVar [mkRegion 1 3]
           [VInt 0; VInt 10; VInt 20; VInt 30; VInt 40] 7).
  - exact I.
  - reflexivity.
  - reflexivity.
  - repeat constructor; unfold well_formed; cbn [Start End]; lia.
  - unfold is_int, int_min, int_max, len. cbn [length]. lia.
  - cbn [length]. lia.
Defined.

(** ** A missing field, end to end *)

Lemma field_of_missing (m : gmap string value) (a b : string) (h : Heap) :
  m !! a = None ->
  processFieldSelection (VMap m) (RMap rootVar [a]) b false h
  = Ok (RLatent (length h) (RMap rootVar [a]), h ++ [[b]]).
Proof.
  intros Ha. unfold processFieldSelection, latentMapRefs, MapRef_GetLatentMapRef.
  assert (Hmap : VarRef_IsMap (VMap m)
                   (mkVarRef (map_identity "$" a) (int_add (int_add 0 1) 1)
                             (KeyString a) (CellMapEntry rootVar a)) = Ok false).
  { unfold VarRef_IsMap, VarRef_TypeKind. cbn -[lookup]. unfold map_index. rewrite Ha.
    reflexivity. }
  cbn -[lookup alter VarRef_IsMap].
  unfold mbind, Eval_bind, eval_bind, eval_lift, eval_ret.
  cbn -[lookup alter VarRef_IsMap]. rewrite Hmap.
  cbn -[lookup alter]. rewrite !Ha.
  cbn -[lookup alter].
  unfold mbind, Eval_bind, eval_bind, eval_ret, latent_ref. cbn -[alter].
  f_equal. f_equal.
  assert (Hh : (h ++ [[]] : Heap) !! length h = Some []).
  { rewrite lookup_app_r by lia. rewrite Nat.sub_diag. reflexivity. }
  apply list_eq. intros i. destruct (decide (i = length h)) as [->|Hne].
  - rewrite list_lookup_alter_eq, Hh. cbn.
    rewrite lookup_app_r by lia. rewrite Nat.sub_diag. reflexivity.
  - rewrite list_lookup_alter_ne by congruence.
    destruct (decide (i < length h)%nat).
    + rewrite !lookup_app_l by lia. reflexivity.
    + rewrite !lookup_app_r by lia.
      destruct (i - length h)%nat as [|k] eqn:E; [lia|]. reflexivity.
Qed.

Section EndToEnd.
Variable template_compare : Token -> value -> value -> template_result.

(** X26: matching the path [a.b] on a document that is a map without the
    key [a] gives a latent reference: it has no values, and [Set(v)] on it
    creates the missing maps, returning the document with [a] set to the
    map that holds [v] under [b]. *)
Theorem missing_field_created (m : gmap string value) (a b : string) (v : value)
        (fuel : nat) :
  m !! a = None ->
  let e := mkMatchSet rootVar (RLatent 0 (RMap rootVar [a])) false in
  Expression_Match template_compare (S (S fuel)) (pathNode [fieldNode a; fieldNode b]) (VMap m)
    = Ok (e, [[b]]) /\
  MatchSet_Values e (VMap m) = Ok [] /\
  MatchSet_Set [[b]] e v (VMap m)
    = (Ok (VMap (<[a := VMap {[ b := v ]}]> m)), set_mutated e,
       VMap (<[a := VMap {[ b := v ]}]> m)).
Proof.
  intros Ha e. split; [|split].
  - unfold Expression_Match. cbn [process eval_fold].
    unfold mbind at 2 3. unfold Eval_bind, eval_bind.
    change (processFieldSelection (VMap m) (RVar rootVar) a false [])
      with (Ok (RMap rootVar [a], @nil (list string))).
    cbv beta iota. rewrite (field_of_missing m a b [] Ha). reflexivity.
  - reflexivity.
  - reflexivity.
Qed.

End EndToEnd.

Lemma missing_field_created_witness :
  Expression_Match no_compare 2 (pathNode [fieldNode "a"; fieldNode "b"])
                   (VMap {[ "c" := VInt 1 ]})
    = Ok (mkMatchSet rootVar (RLatent 0 (RMap rootVar ["a"])) false, [["b"]]) /\
  MatchSet_Values (mkMatchSet rootVar (RLatent 0 (RMap rootVar ["a"])) false)
                  (VMap {[ "c" := VInt 1 ]}) = Ok [] /\
  MatchSet_Set [["b"]] (mkMatchSet rootVar (RLatent 0 (RMap rootVar ["a"])) false)
               (VInt 2) (VMap {[ "c" := VInt 1 ]})
    = (Ok (VMap (<["a" := VMap {[ "b" := VInt 2 ]}]> {[ "c" := VInt 1 ]})),
       set_mutated (mkMatchSet rootVar (RLatent 0 (RMap rootVar ["a"])) false),
       VMap (<["a" := VMap {[ "b" := VInt 2 ]}]> {[ "c" := VInt 1 ]})).
Proof.
  apply (missing_field_created no_compare {[ "c" := VInt 1 ]} "a" "b" (VInt 2) 0).
  reflexivity.
Defined.


(** ** A slice of the document, end to end *)

Lemma Values_of_region (items : list value) (s e : Z) :
  0 <= s -> e <= len items ->
  foldM (fun result i => x ← index_slice items i; Ok (result ++ [x]))
        (index_range s e) [] = Ok (items_between items s e).
Proof.
  intros Hs He. destruct (Z.le_gt_cases s e) as [Hle|Hgt].
  - replace e with (s + Z.of_nat (Z.to_nat (e - s))) by lia.
    rewrite extract_loop by lia. reflexivity.
  - rewrite index_range_nil by lia. unfold items_between.
    replace (Z.to_nat (e - s)) with 0%nat by lia. reflexivity.
Qed.

Lemma processSlice_var_contiguous (fuel : nat) (items : list value)
      (start end_ step : Z) (startSpecified endSpecified : bool) :
  is_int start -> is_int end_ -> len items <= int_max ->
  processSlice_var fuel (VSlice items) rootVar start end_ step
                   startSpecified endSpecified false NewEmptyRef
  = Ok (RArray rootVar [mkRegion (slice_from (len items) startSpecified start)
                                 (slice_to (len items) endSpecified end_)]).
Proof.
  intros Hs He Hlen. pose proof (len_nonneg items) as Hn.
  assert (Hcv : VarRef_CanonicalValue (VSlice items) rootVar = Ok (VSlice items))
    by reflexivity.
  unfold processSlice_var, slice_from, slice_to. rewrite Hcv, bind_Ok.
  cbn [as_slice]. rewrite bind_Ok. unfold int_add.
  set (s0 := if startSpecified then start else 0).
  set (e0 := if endSpecified then end_ else len items).
  assert (Hs0 : is_int s0) by (unfold s0; destruct startSpecified; auto;
                               unfold is_int, int_min, int_max; lia).
  assert (He0 : is_int e0) by (unfold e0; destruct endSpecified; auto;
                               unfold is_int, int_min, int_max in *; lia).
  unfold is_int, int_min, int_max in *.
  destruct (s0 <? 0) eqn:E1; destruct (e0 <? 0) eqn:E2;
    rewrite ?wrap_id by (unfold is_int, int_min, int_max; lia);
    cbn [Z.eqb]; 
    match goal with
    | |- context [if ?x <? 0 then 0 else ?x] =>
        replace (if x <? 0 then 0 else x) with (Z.max 0 x)
          by (destruct (x <? 0) eqn:?; lia)
    end;
    match goal with
    | |- context [if ?x >? ?n then ?n else ?x] =>
        replace (if x >? n then n else x) with (Z.min n x)
          by (destruct (x >? n) eqn:?; lia)
    end; reflexivity.
Qed.

Section Slice.
Variable template_compare : Token -> value -> value -> template_result.

(** X27: a slice selector without a step on a document that is a slice
    selects one region, from [slice_from] to [slice_to]: a bound that is
    not given is the start or the end of the slice, a negative bound counts
    from the end, and both are cut off at the ends of the slice.  [Values]
    returns the items between the two bounds, none when they cross. *)
Theorem slice_values (items : list value) (start end_ step : Z)
        (startSpecified endSpecified : bool) (fuel : nat) :
  is_int start -> is_int end_ -> len items <= int_max ->
  let from := slice_from (len items) startSpecified start in
  let to := slice_to (len items) endSpecified end_ in
  let e := mkMatchSet rootVar (RArray rootVar [mkRegion from to]) false in
  Expression_Match template_compare (S fuel)
    (sliceNode start end_ step startSpecified endSpecified false) (VSlice items)
    = Ok (e, []) /\
  MatchSet_Values e (VSlice items) = Ok (items_between items from to).
Proof.
  intros Hs He Hlen from to e. split.
  - assert (Hslice : VarRef_IsSlice (VSlice items) rootVar = Ok true) by reflexivity.
    unfold Expression_Match. cbn [process]. unfold processSlice.
    cbn [Ref_Vars]. rewrite bind_Ok. cbn [foldM]. rewrite Hslice, bind_Ok.
    rewrite processSlice_var_contiguous by assumption. reflexivity.
  - assert (Hcv : VarRef_CanonicalValue (VSlice items) rootVar = Ok (VSlice items))
      by reflexivity.
    unfold MatchSet_Values, e. cbn [mutated ref Ref_Values].
    rewrite Hcv, bind_Ok. cbn [as_slice]. rewrite bind_Ok. unfold Regions_ToIndicies. cbn [flat_map Start End].
    rewrite app_nil_r. apply Values_of_region; unfold from, to, slice_from, slice_to; lia.
Qed.

End Slice.

Lemma slice_values_witness :
  Expression_Match no_compare 1 (sliceNode (-3) 100 0 true true false) doc_array
    = Ok (mkMatchSet rootVar
            (RArray rootVar
               [mkRegion (slice_from (len [VInt 0; VInt 10; VInt 20; VInt 30; VInt 40]) true (-3))
                         (slice_to (len [VInt 0; VInt 10; VInt 20; VInt 30; VInt 40]) true 100)])
            false, []) /\
  MatchSet_Values
    (mkMatchSet rootVar
       (RArray rootVar
          [mkRegion (slice_from (len [VInt 0; VInt 10; VInt 20; VInt 30; VInt 40]) true (-3))
                    (slice_to (len [VInt 0; VInt 10; VInt 20; VInt 30; VInt 40]) true 100)])
       false) doc_array
  = Ok (items_between [VInt 0; VInt 10; VInt 20; VInt 30; VInt 40]
          (slice_from (len [VInt 0; VInt 10; VInt 20; VInt 30; VInt 40]) true (-3))
          (slice_to (len [VInt 0; VInt 10; VInt 20; VInt 30; VInt 40]) true 100)).
Proof.
  apply (slice_values no_compare [VInt 0; VInt 10; VInt 20; VInt 30; VInt 40]
           (-3) 100 0 true true 0).
  - unfold is_int, int_min, int_max. lia.
  - unfold is_int, int_min, int_max. lia.
  - unfold int_max, len. cbn [length]. lia.
Defined.


(** ** ArrayRef.MutateRegions *)

(** X28: [ArrayRef.MutateRegions] on a readable variable of the document
    that holds a slice, with a selection of well-formed regions in bounds
    that passes [Regions.Check] and a mutator that returns one replacement
    for every region, succeeds; afterwards the selection of the reference
    locates the replacements in the new slice: extracting it gives the
    replacements back. *)
Theorem ArrayRef_MutateRegions_locates (data : value) (variable : VarRef)
        (selection : Regions) (items : list value) (mutator : MutateRegionsFunc)
        (replace : list (list value)) :
  rooted variable -> VarRef_Value data variable = Ok (VSlice items) ->
  Regions_Check selection = true -> Forall (within (len items)) selection ->
  mutator (identity variable +:+ "[" +:+ Regions_ToSliceSelector selection +:+ "]")
          (map (fun r => items_between items (Start r) (End r)) selection)
  = Ok replace ->
  length replace = length selection ->
  len items + len (concat replace) <= int_max ->
  exists data' merged out,
    ArrayRef_MutateRegions variable selection mutator data = (Ok tt, out, data') /\
    VarRef_Value data' variable = Ok (VSlice merged) /\
    Regions_ExtractItems out merged = Ok replace.
Proof.
  intros Hr Hval Hc Hw Hmut Hlen Hint.
  pose proof (len_nonneg items) as Hn0. pose proof (len_nonneg (concat replace)) as Hn1.
  assert (Hwf : Forall well_formed selection).
  { eapply Forall_impl; [exact Hw|]. intros r [H1 H2]. unfold well_formed. lia. }
  destruct (MergeItems_located selection items replace Hc Hwf Hlen Hint)
    as (merged & out & Heq & Hm & Hout & Hmap).
  destruct (SetWithMatchedType_container data variable (VSlice items) (VSlice merged) Hr Hval)
    as (data' & Hset & Hget); [left; eauto|].
  exists data', merged, out. split; [|split; [exact Hget|]].
  - assert (Hex : Regions_ExtractItems selection items
                  = Ok (map (fun r => items_between items (Start r) (End r)) selection)).
    { unfold Regions_ExtractItems. rewrite ExtractItems_acc; auto.
      unfold is_int, int_min, int_max in *. lia. }
    unfold ArrayRef_MutateRegions, with_field. unfold mbind, Mut_bind, mut_bind.
    rewrite (ArrayRef_current_of _ _ _ Hval). cbv beta iota.
    unfold mut_lift at 1. rewrite Hex. cbv beta iota.
    unfold mut_lift at 1. rewrite Hmut. cbv beta iota.
    unfold mut_lift at 1. rewrite Heq. cbv beta iota.
    unfold mut_write. rewrite Hset. reflexivity.
  - unfold Regions_ExtractItems. rewrite ExtractItems_acc by assumption.
    rewrite app_nil_l, Hmap. reflexivity.
Qed.

Lemma ArrayRef_MutateRegions_locates_witness :
  exists data' merged out,
    ArrayRef_MutateRegions rootVar [mkRegion 1 3]
      (fun _ _ => Ok [[VString "x"; VString "y"; VString "z"]]) doc_array
    = (Ok tt, out, data') /\
    VarRef_Value data' rootVar = Ok (VSlice merged) /\
    Regions_ExtractItems out merged = Ok [[VString "x"; VString "y"; VString "z"]].
Proof.
  apply (ArrayRef_MutateRegions_locates doc_array rootVar [mkRegion 1 3]
           [VInt 0; VInt 10; VInt 20; VInt 30; VInt 40]
           (fun _ _ => Ok [[VString "x"; VString "y"; VString "z"]])
           [[VString "x"; VString "y"; VString "z"]]).
  - exact I.
  - reflexivity.
  - reflexivity.
  - repeat constructor; unfold len; cbn [Start End length]; lia.
  - reflexivity.
  - reflexivity.
  - unfold int_max, len. cbn [concat app length]. lia.
Defined.

(** ** NewRegionsFromIndicies on distinct indices *)

Lemma Gaps_from_app (a b : Regions) :
  forall w, Gaps_from w (a ++ b) <-> Gaps_from w a /\ Gaps_from (last_End w a) b.
Proof.
  induction a as [|r a IH]; intros w; cbn [app Gaps_from].
  - unfold last_End. cbn. tauto.
  - rewrite IH. unfold last_End. cbn [fold_left]. tauto.
Qed.

Lemma Gaps_from_Check (rs : Regions) :
  forall w w', w' <= w + 1 -> Gaps_from w rs -> Check_from w' rs = true.
Proof.
  induction rs as [|r rs IH]; intros w w' Hle; cbn [Gaps_from Check_from]; [reflexivity|].
  intros (H1 & H2 & H3). destruct (Start r <? w') eqn:E; [lia|].
  apply (IH (End r)); [lia|assumption].
Qed.

Lemma sorted_le_NoDup_lt (l : list Z) :
  StronglySorted Z.le l -> NoDup l -> StronglySorted Z.lt l.
Proof.
  induction 1 as [|a l Hs IH Hf]; intros Hnd; [constructor|].
  apply NoDup_cons in Hnd as [Hna Hnd]. constructor; [apply IH, Hnd|].
  rewrite List.Forall_forall in *. intros x Hx. specialize (Hf x Hx).
  assert (x <> a) by (intros ->; apply Hna, list_elem_of_In, Hx). lia.
Qed.

Lemma Runs_step (st : Regions * Region) (y : Z) (todo : list Z) :
  y < int_max -> StronglySorted Z.lt (y :: todo) ->
  Runs_inv st (y :: todo) -> Runs_inv (FromIndicies_step st y) todo.
Proof.
  destruct st as [result next]. intros Hy Hs (Hg & Hi1 & Hi2 & Hf).
  apply StronglySorted_inv in Hs as [Hs Hlt].
  apply Forall_cons in Hf as [Hy' Hf].
  apply Gaps_from_app in Hg as [Hg1 Hg2]. cbn [Gaps_from] in Hg2.
  destruct Hg2 as (Hg2 & Hg3 & _).
  unfold FromIndicies_step.
  rewrite (Region_Empty_strict next) by assumption.
  unfold int_add. rewrite wrap_id by (unfold is_int, int_min, int_max in *; lia).
  assert (Hrest : Forall (fun z => y + 1 <= z) todo).
  { rewrite List.Forall_forall in *. intros z Hz. specialize (Hlt z Hz). lia. }
  destruct (End next =? y) eqn:E.
  - unfold Runs_inv. cbn [Start End]. split; [|split; [assumption|split; [|assumption]]].
    + apply Gaps_from_app. split; [assumption|]. cbn [Gaps_from Start End]. lia.
    + unfold is_int, int_min, int_max in *. lia.
  - unfold Runs_inv. cbn [Start End]. split; [|split; [|split; [|assumption]]].
    + apply Gaps_from_app. split.
      * apply Gaps_from_app. split; [assumption|]. cbn [Gaps_from]. lia.
      * rewrite last_End_app. unfold last_End at 1. cbn [fold_left Gaps_from Start End]. lia.
    + unfold is_int, int_min, int_max in *. lia.
    + unfold is_int, int_min, int_max in *. lia.
Qed.

Lemma Runs_loop (todo : list Z) :
  Forall (fun y => y < int_max) todo -> StronglySorted Z.lt todo ->
  forall st, Runs_inv st todo ->
             Runs_inv (fold_left FromIndicies_step todo st) [].
Proof.
  induction 1 as [|y todo Hy Hf IH]; intros Hs st Hinv; cbn [fold_left]; [assumption|].
  apply IH.
  - apply StronglySorted_inv in Hs as [Hs _]. exact Hs.
  - apply Runs_step; assumption.
Qed.

(** X29: on distinct non-negative indices [NewRegionsFromIndicies]
    returns the runs of consecutive indices: regions that pass
    [Regions.Check], none of them empty, and no two of them overlapping or
    adjacent. *)
Theorem NewRegionsFromIndicies_runs (indicies : list Z) :
  NoDup indicies -> Forall (fun i => 0 <= i < int_max) indicies ->
  Regions_Check (NewRegionsFromIndicies indicies).2 = true /\
  Gaps_from (-1) (NewRegionsFromIndicies indicies).2.
Proof.
  intros Hnd Hb.
  assert (Hg : Gaps_from (-1) (NewRegionsFromIndicies indicies).2);
    [|split; [apply (Gaps_from_Check _ (-1) 0); [lia|exact Hg]|exact Hg]].
  unfold NewRegionsFromIndicies.
  pose proof (sort_Ints_perm indicies) as Hp.
  assert (Hnd' : NoDup (sort_Ints indicies)) by (rewrite <- Hp; exact Hnd).
  pose proof (sorted_le_NoDup_lt _ (sort_Ints_sorted indicies) Hnd') as Hs.
  assert (Hb' : Forall (fun i => 0 <= i < int_max) (sort_Ints indicies)).
  { apply List.Forall_forall. intros x Hx. rewrite List.Forall_forall in Hb. apply Hb.
    apply Permutation_in with (l := sort_Ints indicies); [symmetry; exact Hp|exact Hx]. }
  clear Hp Hnd Hnd' Hb. destruct (sort_Ints indicies) as [|y todo]; [cbn; exact I|].
  cbn [fold_left]. unfold FromIndicies_step at 2.
  replace (Region_Empty (mkRegion 0 0)) with true by reflexivity.
  apply Forall_cons in Hb' as [Hy Hb'].
  unfold int_add. rewrite wrap_id by (unfold is_int, int_min, int_max in *; lia).
  assert (Hinv : Runs_inv ([], mkRegion y (y + 1)) todo).
  { unfold Runs_inv. cbn [app Gaps_from Start End].
    apply StronglySorted_inv in Hs as [_ Hlt].
    repeat split; try (unfold is_int, int_min, int_max in *; lia).
    rewrite List.Forall_forall in *. intros z Hz. specialize (Hlt z Hz). lia. }
  pose proof (Runs_loop todo) as Hloop.
  specialize (Hloop ltac:(eapply Forall_impl; [exact Hb'|]; intros; cbn in *; lia)).
  specialize (Hloop ltac:(apply StronglySorted_inv in Hs as [Hs' _]; exact Hs')).
  specialize (Hloop _ Hinv).
  match goal with
  | |- context [fold_left ?f ?l ?s] => set (st := fold_left f l s) in *
  end.
  change (Runs_inv st []) in Hloop. clearbody st. destruct st as [result next].
  destruct Hloop as (Hg & Hi1 & Hi2 & _). cbn [snd].
  assert (Hne : Region_Empty next = false).
  { apply Region_Empty_strict; auto. apply Gaps_from_app in Hg as [_ Hg].
    cbn [Gaps_from] in Hg. lia. }
  rewrite Hne. exact Hg.
Qed.

Lemma NewRegionsFromIndicies_runs_witness :
  Regions_Check (NewRegionsFromIndicies [7; 2; 3; 8; 0]).2 = true /\
  Gaps_from (-1) (NewRegionsFromIndicies [7; 2; 3; 8; 0]).2.
Proof.
  apply (NewRegionsFromIndicies_runs [7; 2; 3; 8; 0]).
  - apply (bool_decide_unpack _). vm_compute. exact I.
  - repeat constructor; unfold int_max; lia.
Defined.

(** ** Errors of a filter *)

Lemma no_error_bind {A B : Type} (m : outcome A) (f : A -> outcome B) :
  no_error m -> (forall a, no_error (f a)) -> no_error (m ≫= f).
Proof.
  intros Hm Hf msg. destruct m as [a|e| |]; cbn; try discriminate.
  - apply Hf.
  - exfalso. apply (Hm e). reflexivity.
Qed.

Lemma no_error_Ok {A : Type} (a : A) : no_error (Ok a).
Proof. intros msg. discriminate. Qed.

Lemma no_error_Panic {A : Type} (p : string) : no_error (@Panic A p).
Proof. intros msg. discriminate. Qed.

Lemma no_error_foldM {A S : Type} (f : S -> A -> outcome S) (l : list A) :
  (forall s x, x ∈ l -> no_error (f s x)) -> forall s, no_error (foldM f l s).
Proof.
  induction l as [|x l IH]; intros Hf s; cbn [foldM]; [apply no_error_Ok|].
  apply no_error_bind; [apply Hf; constructor|].
  intros s'. apply IH. intros s0 y Hy. apply Hf. constructor 2. exact Hy.
Qed.

Lemma no_error_index_slice {A : Type} (l : list A) (i : Z) : no_error (index_slice l i).
Proof.
  unfold index_slice. destruct (i <? 0); [apply no_error_Panic|].
  destruct (l !! Z.to_nat i); [apply no_error_Ok|apply no_error_Panic].
Qed.

Lemma no_error_toCanonicalType (v : value) : no_error (toCanonicalType v).
Proof. destruct v; cbn; first [apply no_error_Ok|apply no_error_Panic]. Qed.

Lemma no_error_as_map (v : value) : no_error (as_map v).
Proof. destruct v; cbn; first [apply no_error_Ok|apply no_error_Panic]. Qed.

Lemma no_error_as_slice (v : value) : no_error (as_slice v).
Proof. destruct v; cbn; first [apply no_error_Ok|apply no_error_Panic]. Qed.

Lemma no_error_make_cap (n : Z) : no_error (make_cap n).
Proof. unfold make_cap. destruct (n <? 0); [apply no_error_Panic|apply no_error_Ok]. Qed.

Lemma no_error_getter (data : value) (r : VarRef) : no_error (VarRef_getter data r).
Proof.
  induction r as [i d k|i d k lit|i d k parent key IH|i d k parent index IH]
    using VarRef_ind'; cbn [VarRef_getter].
  - apply no_error_Ok.
  - apply no_error_Ok.
  - apply no_error_bind; [exact IH|]. intros pv.
    apply no_error_bind; [apply no_error_toCanonicalType|]. intros cv.
    apply no_error_bind; [apply no_error_as_map|]. intros m. apply no_error_Ok.
  - apply no_error_bind; [exact IH|]. intros pv.
    apply no_error_bind; [apply no_error_toCanonicalType|]. intros cv.
    apply no_error_bind; [apply no_error_as_slice|]. intros items.
    apply no_error_index_slice.
Qed.

Lemma no_error_CanonicalValue (data : value) (r : VarRef) :
  no_error (VarRef_CanonicalValue data r).
Proof.
  unfold VarRef_CanonicalValue. apply no_error_bind; [apply no_error_getter|].
  intros v. apply no_error_toCanonicalType.
Qed.

Lemma no_error_EstimateSize (r : Ref) : no_error (Ref_EstimateSize r).
Proof.
  induction r as [|v|variable selection|variable keys|refs IH|v|addr rootRef IH]
    using Ref_nested_ind; cbn [Ref_EstimateSize];
    try first [apply no_error_Ok|apply no_error_Panic].
  apply no_error_foldM. intros s x Hx.
  apply no_error_bind; [|intros n; apply no_error_Ok].
  rewrite List.Forall_forall in IH. apply IH, list_elem_of_In, Hx.
Qed.

Lemma no_error_IsEmpty (r : Ref) : no_error (Ref_IsEmpty r).
Proof.
  induction r as [|v|variable selection|variable keys|refs IH|v|addr rootRef IH]
    using Ref_nested_ind; cbn [Ref_IsEmpty];
    try first [apply no_error_Ok|apply no_error_Panic].
  induction IH as [|x l Hx Hl IHl]; [apply no_error_Ok|].
  apply no_error_bind; [exact Hx|]. intros [|]; [exact IHl|apply no_error_Ok].
Qed.

Lemma no_error_Values (data : value) (r : Ref) : no_error (Ref_Values data r).
Proof.
  induction r as [|v|variable selection|variable keys|refs IH|v|addr rootRef IH]
    using Ref_nested_ind; cbn [Ref_Values];
    try first [apply no_error_Ok|apply no_error_Panic].
  - apply no_error_bind; [apply no_error_getter|]. intros x. apply no_error_Ok.
  - apply no_error_bind; [apply no_error_CanonicalValue|]. intros cv.
    apply no_error_bind; [apply no_error_as_slice|]. intros array.
    apply no_error_foldM. intros s i _.
    apply no_error_bind; [apply no_error_index_slice|]. intros x. apply no_error_Ok.
  - apply no_error_bind; [apply no_error_CanonicalValue|]. intros cv.
    apply no_error_bind; [apply no_error_as_map|]. intros m. apply no_error_Ok.
  - apply no_error_bind; [apply (no_error_EstimateSize (RUnion refs))|]. intros n.
    apply no_error_bind; [apply no_error_make_cap|]. intros _.
    apply no_error_foldM. intros s x Hx.
    apply no_error_bind; [|intros vs; apply no_error_Ok].
    rewrite List.Forall_forall in IH. apply IH, list_elem_of_In, Hx.
Qed.

Section Filter.
Variable template_compare : Token -> value -> value -> template_result.

(** X30: [applyFilter] returns an error in two cases only: both sides
    have exactly one value and the comparison of package [template] fails
    with an error that is not one of its two bad-comparison errors (the
    error is handed on), or the operator is no comparison operator.
    Reading the values of the two references never returns an error. *)
Theorem applyFilter_errors (data : value) (lhs rhs : Ref) (operator : Token) (msg : string) :
  applyFilter template_compare data lhs rhs operator = Err msg ->
  (exists l r b, Ref_Values data lhs = Ok [l] /\ Ref_Values data rhs = Ok [r] /\
                 template_compare operator (coerceComparisionValue l)
                                  (coerceComparisionValue r) = TError b msg) \/
  (exists name, operator = OtherToken name /\
                msg = "unrecognized filter operator " +:+ name).
Proof.
  unfold applyFilter. intros H.
  destruct (Ref_IsEmpty lhs) as [e|m| |] eqn:E1; cbn in H; try discriminate;
    [|exfalso; exact (no_error_IsEmpty lhs m E1)].
  destruct e; [discriminate|].
  destruct (Ref_Values data lhs) as [lv|m| |] eqn:E2; cbn in H; try discriminate;
    [|exfalso; exact (no_error_Values data lhs m E2)].
  destruct lv as [|l0 lrest]; [discriminate|].
  destruct operator; try discriminate;
    (destruct (Ref_Values data rhs) as [rv|m| |] eqn:E3; cbn in H; try discriminate;
     [|exfalso; exact (no_error_Values data rhs m E3)]);
    (destruct rv as [|r0 rrest]; [discriminate|]);
    (destruct lrest; [|discriminate]); (destruct rrest; [|discriminate]);
    try (destruct (template_compare _ _ _) as [b| |b m] eqn:E4; try discriminate;
         injection H as <-; left; exists l0, r0, b; auto).
  right. injection H as <-. eauto.
Qed.

End Filter.

Lemma applyFilter_errors_witness :
  (exists l r b,
      Ref_Values VNil (RLiteral (VInt 1)) = Ok [l] /\
      Ref_Values VNil (RLiteral (VString "a")) = Ok [r] /\
      (fun _ _ _ => TError false "boom") LT (coerceComparisionValue l)
                                         (coerceComparisionValue r)
      = TError b "boom") \/
  (exists name, LT = OtherToken name /\ "boom" = "unrecognized filter operator " +:+ name).
Proof.
  apply (applyFilter_errors (fun _ _ _ => TError false "boom") VNil
           (RLiteral (VInt 1)) (RLiteral (VString "a")) LT "boom").
  reflexivity.
Defined.

